(** * numericcompfricas: the sine / cosine / one-minus-cosine accuracy tester

    A shallow embedding of the C program in
    [src/fricas/commonNumericFunctions.spad] (the part after the SPAD
    package: [sncs1cs], [ud], [quiteInteresting], [scoresOf], [isNull],
    [checkSinCosOmcInPoint], [testRange], [updateMicroReport], [main]).

    Doubles are IEEE-754 binary64 values, modelled by the Standard
    Library's [spec_float] with [prec = 53] and [emax = 1024]; every
    arithmetic operation of the source is one correctly rounded
    (round-to-nearest-even) operation of [SpecFloat], none fused with
    another. [spec_float] has a single NaN, without sign or payload.

    Integers are those of an LP64 platform: [int] has 32 bits, [long]
    and [unsigned long] have 64. Unsigned arithmetic is modulo [2^64],
    a conversion from [uint64] to [int64] keeps the bits, and [int64]
    subtraction and negation wrap around. A conversion from [double]
    to [int] and the [int] arithmetic that follows it have a result
    only where C defines one, so that [sncs1cs] and what calls it
    return an [option].

    The reference library ([sin] and [cos] of [<math.h>]) and FriCAS
    are parameters; the calls to them and the lines printed for single
    points are recorded, in order, in a trace of events. *)

From Stdlib Require Import ZArith Lia List Bool String Ascii Permutation.
From Stdlib Require Import DecimalString.
From Stdlib Require Import Floats.SpecFloat.
Import ListNotations.

Local Open Scope Z_scope.

(** ** Machine integers *)

Module MachInt.

(** [typedef int mint_t;] is a 32-bit signed integer. *)
Definition INT_MIN : Z := - 2 ^ 31.
Definition INT_MAX : Z := 2 ^ 31 - 1.

Definition in_int (z : Z) : bool := (INT_MIN <=? z) && (z <=? INT_MAX).

(** [int] addition and multiplication: C leaves signed overflow
    undefined, so there is a result only when it is representable. *)
Definition int_add (a b : Z) : option Z :=
  if in_int (a + b) then Some (a + b) else None.
Definition int_mul (a b : Z) : option Z :=
  if in_int (a * b) then Some (a * b) else None.

(** [typedef unsigned long uint64;] arithmetic is modulo [2^64]. *)
Definition u64 (z : Z) : Z := z mod 2 ^ 64.

(** Conversion of a [uint64] to [int64] ([typedef long int64;]): the
    two's complement reading of the same 64 bits. *)
Definition to_int64 (u : Z) : Z := if u <? 2 ^ 63 then u else u - 2 ^ 64.

(** [int64] subtraction and negation, with wrap-around. *)
Definition int64_sub (a b : Z) : Z := to_int64 (u64 (a - b)).
Definition int64_neg (a : Z) : Z := to_int64 (u64 (- a)).

(** [~0UL >> 1] converted to [int64]: the greatest [int64]. *)
Definition INT64_MAX : Z := to_int64 (Z.shiftr (u64 (Z.lnot 0)) 1).

End MachInt.
Import MachInt.

(** ** Doubles *)

Module Dbl.

Definition prec : Z := 53.
Definition emax : Z := 1024.

(** [typedef double mfloat_t;] *)
Definition mfloat_t : Type := spec_float.

Definition is_double (x : mfloat_t) : bool := valid_binary prec emax x.

Definition add : mfloat_t -> mfloat_t -> mfloat_t := SFadd prec emax.
Definition sub : mfloat_t -> mfloat_t -> mfloat_t := SFsub prec emax.
Definition mul : mfloat_t -> mfloat_t -> mfloat_t := SFmul prec emax.
Definition div : mfloat_t -> mfloat_t -> mfloat_t := SFdiv prec emax.
Definition sqrt : mfloat_t -> mfloat_t := SFsqrt prec emax.
Definition neg : mfloat_t -> mfloat_t := SFopp.
Definition eqb : mfloat_t -> mfloat_t -> bool := SFeqb.
Definition ltb : mfloat_t -> mfloat_t -> bool := SFltb.

(** C's [x != y] on doubles: true when unordered. *)
Definition neb (x y : mfloat_t) : bool := negb (SFeqb x y).

Definition isnan (x : mfloat_t) : bool :=
  match x with S754_nan => true | _ => false end.

Definition isinf (x : mfloat_t) : bool :=
  match x with S754_infinity _ => true | _ => false end.

(** Conversion of an integer to [double] (exact below [2^53], rounded
    to nearest even above). *)
Definition of_Z (z : Z) : mfloat_t := binary_normalize prec emax z 0 false.

(** A decimal literal [m * 10^e10] of the source, correctly rounded. *)
Definition dec (m : positive) (e10 : Z) : mfloat_t :=
  match e10 with
  | Zneg k => div (S754_finite false m 0) (S754_finite false (10 ^ k) 0)
  | _ => of_Z (Zpos m * 10 ^ e10)
  end.

(** The integral part of a double, toward zero; none for NaN and the
    infinities. *)
Definition trunc (x : mfloat_t) : option Z :=
  match x with
  | S754_zero _ => Some 0
  | S754_finite s m e => Some (cond_Zopp s (Z.shiftl (Zpos m) e))
  | S754_infinity _ | S754_nan => None
  end.

(** The cast [(mint_t)x]. C defines it only when the integral part of
    [x] is representable in [int] (C11 6.3.1.4); otherwise there is
    no result. *)
Definition to_int (x : mfloat_t) : option Z :=
  match trunc x with
  | Some t => if in_int t then Some t else None
  | None => None
  end.

(** [nextafter(x, posInf)] *)
Definition nextafter_posInf (x : mfloat_t) : mfloat_t := SFsucc prec emax x.

(** [copysign(x, (mfloat_t)1)] *)
Definition copysign_one (x : mfloat_t) : mfloat_t := SFabs x.

(** The 64 bits of a double, as the unions of the source read them
    (binary64 interchange format: sign, 11 exponent bits, 52
    fraction bits). *)
Definition sign_bit (s : bool) : Z := if s then Z.shiftl 1 63 else 0.

Definition bits (x : mfloat_t) : Z :=
  match x with
  | S754_zero s => sign_bit s
  | S754_infinity s => Z.lor (sign_bit s) (Z.shiftl 2047 52)
  | S754_nan => Z.lor (Z.shiftl 2047 52) (Z.shiftl 1 51)
  | S754_finite s m e =>
      if Zpos m <? 2 ^ 52
      then Z.lor (sign_bit s) (Zpos m)
      else Z.lor (sign_bit s) (Z.shiftl (e + 1075) 52 + (Zpos m - 2 ^ 52))
  end.

Definition zero : mfloat_t :=
  Eval vm_compute in of_Z 0.
Definition one : mfloat_t :=
  Eval vm_compute in of_Z 1.
(** [static const mfloat_t posInf = 1.0/0.0;] *)
Definition posInf : mfloat_t :=
  Eval vm_compute in div (dec 10 (-1)) zero.

End Dbl.
Import Dbl.


(** A small error monad for the partial operations. *)
Definition bind {A B : Type} (o : option A) (k : A -> option B) : option B :=
  match o with
  | Some a => k a
  | None => None
  end.

Notation "x <- o ;; k" := (bind o (fun x => k))
  (at level 61, o at next level, right associativity).

(** ** The trigonometric kernel *)

(** [typedef struct { mfloat_t sin, cos, omc; } sincos1cos;] *)
Record sincos1cos : Type := mk_sincos1cos {
  sin : mfloat_t;
  cos : mfloat_t;
  omc : mfloat_t
}.

Module Kernel.

Definition fourOverPi : mfloat_t :=
  Eval vm_compute in dec 127323954473516268615 (-20).

(** [const double sc[]], as [C * 10^e] literals. *)
Definition sc0 : mfloat_t :=
  Eval vm_compute in dec 158962301576546568060 (-30).
Definition sc1 : mfloat_t :=
  Eval vm_compute in neg (dec 250507477628578072866 (-28)).
Definition sc2 : mfloat_t :=
  Eval vm_compute in dec 275573136213857245213 (-26).
Definition sc3 : mfloat_t :=
  Eval vm_compute in neg (dec 198412698295895385996 (-24)).
Definition sc4 : mfloat_t :=
  Eval vm_compute in dec 833333333332211858878 (-23).
Definition sc5 : mfloat_t :=
  Eval vm_compute in neg (dec 166666666666666307295 (-21)).

(** [const double cc[]] *)
Definition cc0 : mfloat_t :=
  Eval vm_compute in neg (dec 113585365213876817300 (-31)).
Definition cc1 : mfloat_t :=
  Eval vm_compute in dec 208757008419747316778 (-29).
Definition cc2 : mfloat_t :=
  Eval vm_compute in neg (dec 275573141792967388112 (-27)).
Definition cc3 : mfloat_t :=
  Eval vm_compute in dec 248015872888517045348 (-25).
Definition cc4 : mfloat_t :=
  Eval vm_compute in neg (dec 138888888888730564116 (-23)).
Definition cc5 : mfloat_t :=
  Eval vm_compute in dec 416666666666665929218 (-22).

Definition DP1 : mfloat_t :=
  Eval vm_compute in dec 785398125648498535156 (-21).
Definition DP2 : mfloat_t :=
  Eval vm_compute in dec 377489470793079817668 (-28).
Definition DP3 : mfloat_t :=
  Eval vm_compute in dec 269515142907905952645 (-35).

Definition half : mfloat_t :=
  Eval vm_compute in dec 5 (-1).

(** Lines 181 and 182: the two polynomials in [zz = z*z]. *)
Definition sin_poly (z zz : mfloat_t) : mfloat_t :=
  add z (mul (mul zz z)
    (add (mul (add (mul (add (mul (add (mul (add (mul sc0 zz) sc1) zz) sc2) zz) sc3) zz) sc4) zz) sc5)).

Definition omc_poly (zz : mfloat_t) : mfloat_t :=
  sub (mul half zz) (mul (mul zz zz)
    (add (mul (add (mul (add (mul (add (mul (add (mul cc0 zz) cc1) zz) cc2) zz) cc3) zz) cc4) zz) cc5)).

(** Lines 145 to 154: the octant modulo one turn and the two signs.
    After [j & 7] the subtraction [j -= 4] and the negations of the
    signs (which are 1 or -1) cannot overflow. *)
Definition octant (j sign csign : Z) : Z * Z * Z :=
  let j := Z.land j 7 in
  let '(sign, csign, j) :=
    if 3 <? j then (- sign, - csign, j - 4) else (sign, csign, j) in
  let csign := if 1 <? j then - csign else csign in
  (j, sign, csign).

(** Lines 184 to 202: the three results from the two polynomial
    values, by octant and signs. *)
Definition assemble (j sign csign : Z) (rsin romc : mfloat_t) : sincos1cos :=
  let r :=
    if (j =? 1) || (j =? 2) then
      let rsin := if csign <? 0 then neg rsin else rsin in
      let rcos := rsin in
      let rsin := sub one romc in
      let romc := sub one rcos in
      mk_sincos1cos rsin rcos romc
    else
      if csign <? 0 then
        let rcos := sub romc one in
        let romc := sub one rcos in
        mk_sincos1cos rsin rcos romc
      else
        let rcos := sub one romc in
        mk_sincos1cos rsin rcos romc in
  if sign <? 0 then mk_sincos1cos (neg (sin r)) (cos r) (omc r) else r.

(** Lines 138 to 202, for [x] positive and finite. [sign] is the
    sign recorded at lines 134 to 137. *)
Definition reduced (sign : Z) (x : mfloat_t) : option sincos1cos :=
  let csign := 1 in
  j <- to_int (mul x fourOverPi) ;;
  let y := of_Z j in
  jy <- (if Z.land j 1 =? 0 then Some (j, y)
         else j' <- int_add j 1 ;; Some (j', add y one)) ;;
  let '(j, sign, csign) := octant (fst jy) sign csign in
  let y := snd jy in
  let z := sub (sub (sub x (mul y DP1)) (mul y DP2)) (mul y DP3) in
  let zz := mul z z in
  Some (assemble j sign csign (sin_poly z zz) (omc_poly zz)).

(** [static sincos1cos sncs1cs(mfloat_t x)] *)
Definition sncs1cs (x : mfloat_t) : option sincos1cos :=
  if eqb x (of_Z 0) then Some (mk_sincos1cos x (of_Z 1) (of_Z 0))
  else if isnan x then Some (mk_sincos1cos x x x)
  else if isinf x then Some (mk_sincos1cos (sub x x) (sub x x) (sub x x))
  else if ltb x (of_Z 0) then reduced (-1) (neg x)
  else reduced 1 x.

End Kernel.
Import Kernel.

(** ** The distance and the scores *)

(** [enum { sinIndex, cosIndex, omcIndex, FuncLimit, PointsInOneRange = 32 };] *)
Definition sinIndex : nat := 0.
Definition cosIndex : nat := 1.
Definition omcIndex : nat := 2.
Definition FuncLimit : nat := 3.
Definition PointsInOneRange : nat := 32.

Definition funcNames : list string := ["sin"; "cos"; "omc"]%string.

(** [typedef struct { mfloat_t old, new, accurate; } funcVal;] *)
Record funcVal : Type := mk_funcVal {
  old : mfloat_t;
  new : mfloat_t;
  accurate : mfloat_t
}.

(** [static int interesting(long d)] *)
Definition interesting (d : Z) : bool := negb (d =? 0).

(** [static int64 ud(mfloat_t x, mfloat_t y)] *)
Definition ud (x y : mfloat_t) : Z :=
  if neb x x || neb y y then INT64_MAX
  else
    let a := bits x in
    let b := bits y in
    if Z.land a (Z.shiftl 1 63) =? Z.land b (Z.shiftl 1 63) then
      let a := u64 (a - b) in
      if negb (Z.land a (Z.shiftl 1 63) =? 0) then to_int64 (u64 (- a))
      else to_int64 a
    else to_int64 (u64 (u64 (a - Z.shiftl 1 63) + b)).

(** [static const char *quiteInteresting(funcVal v)]; [nil] is [None]. *)
Definition L : mfloat_t := Eval vm_compute in dec 1 (-7).

Definition quiteInteresting (v : funcVal) : option string :=
  let ac := ud (old v) (accurate v) in
  let bc := ud (new v) (accurate v) in
  if ltb L (div (of_Z (int64_sub ac bc)) (of_Z bc)) then Some "better"%string
  else if ltb L (div (of_Z (int64_sub bc ac)) (of_Z ac)) then Some "worse "%string
  else None.

(** [static void about(mfloat_t old, mfloat_t new, char *r)]: the text
    written to [r], with the count [n] of the second format kept as a
    number. *)
Inductive about_text : Type :=
| ExponentsOrSignsDiffer
| MantissasDifferIn (n : Z).

(** The loop [for (n = 1;; n++) { d >>= 1; if (d == 0) break; }]. *)
Fixpoint msb_loop (d : positive) (n : Z) : Z :=
  match d with
  | xH => n
  | xO p | xI p => msb_loop p (n + 1)
  end.

Definition about (o n : mfloat_t) : about_text :=
  if negb (Z.land (Z.lxor (bits o) (bits n)) (Z.shiftl 4095 52) =? 0)
  then ExponentsOrSignsDiffer
  else
    let d := to_int64 (u64 (bits o - bits n)) in
    let d := if d <? 0 then int64_neg d else d in
    MantissasDifferIn (match d with Zpos p => msb_loop p 1 | _ => 1 end).

(** [typedef struct { int64 iscor; mfloat_t fscor; } ifscor;] *)
Record ifscor : Type := mk_ifscor {
  iscor : Z;
  fscor : mfloat_t
}.

(** [static ifscor scoresOf(funcVal v)] *)
Definition scoresOf (v : funcVal) : ifscor :=
  let ac := ud (old v) (accurate v) in
  let bc := ud (new v) (accurate v) in
  let r := mk_ifscor (int64_sub ac bc) (of_Z 0) in
  mk_ifscor (iscor r) (div (of_Z (iscor r)) (of_Z bc)).

(** [static int isNull(funcVal v)] *)
Definition isNull (v : funcVal) : bool := eqb (old v) (new v).

(** ** Arrays *)

(** [l[n] = f(l[n])]; the source never indexes out of range, where
    this leaves the list as it is. *)
Fixpoint alter_nth {A : Type} (f : A -> A) (n : nat) (l : list A) : list A :=
  match l, n with
  | [], _ => []
  | x :: r, O => f x :: r
  | x :: r, S n' => x :: alter_nth f n' r
  end.

(** [p[i-1] = f(p[i-1])] for a slice [p] of [i] elements. *)
Fixpoint alter_last {A : Type} (f : A -> A) (p : list A) : list A :=
  match p with
  | [] => []
  | [x] => [f x]
  | x :: r => x :: alter_last f r
  end.

(** ** The data of a run *)

Definition funcVal_zero : funcVal := mk_funcVal (of_Z 0) (of_Z 0) (of_Z 0).

(** [typedef struct { funcVal a[PointsInOneRange][FuncLimit];
    mfloat_t limits[2]; } Range;] *)
Record Range : Type := mk_Range {
  a : list (list funcVal);
  limits : mfloat_t * mfloat_t
}.

(** One element of [calloc(size, sizeof(Range))]. *)
Definition Range_zero : Range :=
  mk_Range (repeat (repeat funcVal_zero FuncLimit) PointsInOneRange) (of_Z 0, of_Z 0).

(** What the program does to the outside, in order: the calls of the
    reference library, the requests to FriCAS and the lines of the
    first section of the output. *)
Inductive event : Type :=
| Call_sin (x : mfloat_t)
| Call_cos (x : mfloat_t)
| Call_FricasFloatEval (fn : nat) (x : mfloat_t)
| Printf_point (s : string) (x : mfloat_t) (fn : nat) (buf : about_text)
    (diff : Z) (v : funcVal).

(** [typedef struct { FloatFricas fr; Range *funcData; int i; } dat;]
    The interface [fr] to FriCAS stands, with the rest of the outside,
    for the trace of the events so far. *)
Record dat : Type := mk_dat {
  fr : list event;
  funcData : list Range;
  data_i : nat
}.

Definition cell (d : dat) (ran point fn : nat) : funcVal :=
  nth fn (nth point (a (nth ran (funcData d) Range_zero)) []) funcVal_zero.

Definition set_cell (d : dat) (point fn : nat) (v : funcVal) : dat :=
  mk_dat (fr d)
    (alter_nth (fun R => mk_Range (alter_nth (alter_nth (fun _ => v) fn) point (a R)) (limits R))
       (data_i d) (funcData d))
    (data_i d).

Definition set_limits (f : mfloat_t * mfloat_t -> mfloat_t * mfloat_t) (d : dat) : dat :=
  mk_dat (fr d)
    (alter_nth (fun R => mk_Range (a R) (f (limits R))) (data_i d) (funcData d))
    (data_i d).

Definition emit (e : event) (d : dat) : dat :=
  mk_dat (fr d ++ [e]) (funcData d) (data_i d).

(** [typedef struct { int count; int64 max; mfloat_t maxScor;
    mfloat_t mean2; } microReport;] *)
Record microReport : Type := mk_microReport {
  count : Z;
  max : Z;
  maxScor : mfloat_t;
  mean2 : mfloat_t
}.

(** [typedef struct { mfloat_t limits[2]; microReport improvements,
    worsenings; mfloat_t mean1; } rangeReport;] *)
Record rangeReport : Type := mk_rangeReport {
  report_limits : mfloat_t * mfloat_t;
  improvements : microReport;
  worsenings : microReport;
  mean1 : mfloat_t
}.

Definition microReport_zero : microReport :=
  mk_microReport 0 0 (of_Z 0) (of_Z 0).

(** A [rangeReport] as [calloc] or [memset] leaves it. *)
Definition rangeReport_zero : rangeReport :=
  mk_rangeReport (of_Z 0, of_Z 0) microReport_zero microReport_zero (of_Z 0).

(** [static void updateMicroReport(microReport *r, int64 iS, mfloat_t fS)].
    [count] stays below [PointsInOneRange] in [main]. *)
Definition updateMicroReport (r : microReport) (iS : Z) (fS : mfloat_t) : microReport :=
  let count' := count r + 1 in
  let mean2' := add (mean2 r) (mul fS fS) in
  let max' :=
    if ((0 <=? iS) && (max r <? iS)) || ((iS <=? 0) && (iS <=? max r))
    then iS else max r in
  let maxScor' :=
    if ltb (copysign_one (maxScor r)) (copysign_one fS) then fS else maxScor r in
  mk_microReport count' max' maxScor' mean2'.

(** ** The pipeline *)

Section Pipeline.

(** The reference library: [sin] and [cos] of [<math.h>]. *)
Variable libm_sin libm_cos : mfloat_t -> mfloat_t.

(** What [FricasFloatEval(data->fr, fricasFuncNames[fn], x)] returns,
    given what has happened before. *)
Variable FricasFloatEval : list event -> nat -> mfloat_t -> mfloat_t.

(** Whether [FricasFloatNew()] returned a working pair of pipes. *)
Variable FricasFloatNew_ok : bool.

(** The body of the loop of [checkSinCosOmcInPoint] for the function
    of index [fn]; [a_] is the local array [a]. *)
Definition check_function (pointInRange : nat) (x : mfloat_t)
    (a_ : list funcVal) (d : dat) (fn : nat) : dat :=
  let v := nth fn a_ funcVal_zero in
  let diff := ud (old v) (new v) in
  if interesting diff then
    let acc := FricasFloatEval (fr d) fn x in
    let v := mk_funcVal (old v) (new v) acc in
    let d := emit (Call_FricasFloatEval fn x) (set_cell d pointInRange fn v) in
    match quiteInteresting v with
    | Some s => emit (Printf_point s x fn (about (old v) (new v)) diff v) d
    | None => d
    end
  else d.

(** The local array [a] of [checkSinCosOmcInPoint] once filled. *)
Definition values_at (x : mfloat_t) (sc1c : sincos1cos) : list funcVal :=
  let a_sin := mk_funcVal (libm_sin x) (of_Z 0) (of_Z 0) in
  let a_cos := mk_funcVal (libm_cos x) (of_Z 0) (of_Z 0) in
  let a_omc := mk_funcVal (of_Z 0) (of_Z 0) (of_Z 0) in
  let a_omc := mk_funcVal (sub (of_Z 1) (old a_cos)) (new a_omc) (accurate a_omc) in
  [ mk_funcVal (old a_sin) (sin sc1c) (accurate a_sin);
    mk_funcVal (old a_cos) (cos sc1c) (accurate a_cos);
    mk_funcVal (old a_omc) (omc sc1c) (accurate a_omc) ].

(** [static void checkSinCosOmcInPoint(dat *data, int pointInRange, mfloat_t x)] *)
Definition checkSinCosOmcInPoint (d : dat) (pointInRange : nat) (x : mfloat_t)
    : option dat :=
  let d := emit (Call_cos x) (emit (Call_sin x) d) in
  sc1c <- sncs1cs x ;;
  Some (fold_left (check_function pointInRange x (values_at x sc1c))
          (seq 0 FuncLimit) d).

(** One turn of the loop of [testRange]. *)
Definition testRange_step (st : option (dat * mfloat_t)) (i : nat)
    : option (dat * mfloat_t) :=
  dx <- st ;;
  d <- checkSinCosOmcInPoint (fst dx) i (snd dx) ;;
  Some (d, nextafter_posInf (snd dx)).

(** [static void testRange(dat *data, mfloat_t x)] *)
Definition testRange (d : dat) (x : mfloat_t) : option dat :=
  let d := set_limits (fun l => (x, snd l)) d in
  dx <- fold_left testRange_step (seq 0 PointsInOneRange) (Some (d, x)) ;;
  Some (set_limits (fun l => (fst l, snd dx)) (fst dx)).

Definition fourPi : mfloat_t :=
  Eval vm_compute in dec 125663706143591729539 (-19).
Definition step : mfloat_t :=
  Eval vm_compute in dec 3125 (-5).

(** [const int size = 2*(int)((fourPi + 0.5)/step + 0.5) + 1;] *)
Definition size : option Z :=
  n <- to_int (add (div (add fourPi half) step) half) ;;
  m <- int_mul 2 n ;;
  int_add m 1.

(** The argument [-fourPi + step*data.i] of [testRange]. *)
Definition range_start (i : nat) : mfloat_t :=
  add (neg fourPi) (mul step (of_Z (Z.of_nat i))).

(** One turn of [for (; data.i < size; data.i++)]. *)
Definition sample_step (st : option dat) (_ : nat) : option dat :=
  d <- st ;;
  d <- testRange d (range_start (data_i d)) ;;
  Some (mk_dat (fr d) (funcData d) (S (data_i d))).

(** [for (; data.i < size; data.i++) testRange(&data, ...);] *)
Definition sample_loop (size : nat) (d : dat) : option dat :=
  fold_left sample_step (seq (data_i d) (size - data_i d)) (Some d).

(** The body of the innermost loop of [main], lines 442 to 469, for
    the value [v = data.funcData[ran].a[point][fn]]. The state is
    the slice [dataByFunction[fn]] and the flag [exists]. *)
Definition scan_point (st : list rangeReport * bool) (v : funcVal)
    : list rangeReport * bool :=
  if isNull v then st
  else
    let s := scoresOf v in
    if iscor s =? 0 then st
    else
      let p := if negb (snd st) then fst st ++ [rangeReport_zero] else fst st in
      let p :=
        if 0 <? iscor s then
          alter_last (fun r => mk_rangeReport (report_limits r)
            (updateMicroReport (improvements r) (iscor s) (fscor s))
            (worsenings r) (mean1 r)) p
        else
          alter_last (fun r => mk_rangeReport (report_limits r)
            (improvements r)
            (updateMicroReport (worsenings r) (iscor s) (fscor s))
            (mean1 r)) p in
      let p :=
        alter_last (fun r => mk_rangeReport (report_limits r)
          (improvements r) (worsenings r) (add (mean1 r) (fscor s))) p in
      (p, true).

(** Lines 471 to 483: the limits and the means of a finished range. *)
Definition finish_range (R : Range) (r : rangeReport) : rangeReport :=
  let imp := improvements r in
  let wor := worsenings r in
  let imp' := mk_microReport (count imp) (max imp) (maxScor imp)
                (sqrt (div (mean2 imp) (of_Z (count imp)))) in
  let wor' := mk_microReport (count wor) (max wor) (maxScor wor)
                (sqrt (div (mean2 wor) (of_Z (count wor)))) in
  mk_rangeReport (limits R) imp' wor'
    (div (mean1 r) (of_Z (count imp' + count wor'))).

(** The body of the loop over [ran], lines 440 to 483. *)
Definition scan_range (fn : nat) (p : list rangeReport) (R : Range)
    : list rangeReport :=
  let st :=
    fold_left
      (fun st point => scan_point st (nth fn (nth point (a R) []) funcVal_zero))
      (seq 0 PointsInOneRange) (p, false) in
  if snd st then alter_last (finish_range R) (fst st) else fst st.

(** Lines 438 to 485: [dataByFunction], an element for each function. *)
Definition aggregate (d : dat) : list (list rangeReport) :=
  map (fun fn =>
         fold_left (fun p ran => scan_range fn p (nth ran (funcData d) Range_zero))
           (seq 0 (data_i d)) [])
      (seq 0 FuncLimit).

(** [int main(void)]: the exit status, what happened, and the
    reports that the last section of the output prints. There is no
    result when the run leaves what C defines. *)
Definition main : option (Z * list event * list (list rangeReport)) :=
  sz <- size ;;
  if negb FricasFloatNew_ok then Some (1, [], [])
  else
    d <- sample_loop (Z.to_nat sz)
           (mk_dat [] (repeat Range_zero (Z.to_nat sz)) 0) ;;
    Some (0, fr d, aggregate d).

End Pipeline.

(** ** Notions of the statements *)

(** The triple with its sine negated. *)
Definition negate_sin (r : sincos1cos) : sincos1cos :=
  mk_sincos1cos (neg (sin r)) (cos r) (omc r).

(** [n] consecutive doubles from [x] upward: [x] and its successors by
    [nextafter(., posInf)]. *)
Fixpoint successors (n : nat) (x : mfloat_t) : list mfloat_t :=
  match n with
  | O => []
  | S n' => x :: successors n' (nextafter_posInf x)
  end.

(** The sample points of a run: the arguments of the reference sine,
    in the order of the calls. *)
Definition sampled (tr : list event) : list mfloat_t :=
  flat_map (fun e => match e with Call_sin x => [x] | _ => [] end) tr.

(** The function an event of the FriCAS channel or of the output is
    about. *)
Definition event_fn (e : event) : option nat :=
  match e with
  | Call_FricasFloatEval fn _ => Some fn
  | Printf_point _ _ fn _ _ _ => Some fn
  | Call_sin _ | Call_cos _ => None
  end.

(** The values [data.funcData[ran].a[point][fn]] of a range for one
    function, by increasing [point]. *)
Definition column (fn : nat) (R : Range) : list funcVal :=
  map (fun point => nth fn (nth point (a R) []) funcVal_zero)
      (seq 0 PointsInOneRange).

(** What lines 464 to 469 do to the current [rangeReport] for a value
    with a nonzero [iscor]. *)
Definition score_into (r : rangeReport) (v : funcVal) : rangeReport :=
  let s := scoresOf v in
  let r :=
    if 0 <? iscor s then
      mk_rangeReport (report_limits r)
        (updateMicroReport (improvements r) (iscor s) (fscor s))
        (worsenings r) (mean1 r)
    else
      mk_rangeReport (report_limits r) (improvements r)
        (updateMicroReport (worsenings r) (iscor s) (fscor s)) (mean1 r) in
  mk_rangeReport (report_limits r) (improvements r) (worsenings r)
    (add (mean1 r) (fscor s)).

(** A point that the aggregation counts: old and new differ and the
    [iscor] is not 0. *)
Definition scored (v : funcVal) : bool :=
  negb (isNull v) && negb (iscor (scoresOf v) =? 0).

(** [x] is a zero, or finite and below [2^k] in magnitude: its
    mantissa has [d] binary digits and [d + e <= k]. *)
Definition finb (k : Z) (x : mfloat_t) : bool :=
  match x with
  | S754_zero _ => true
  | S754_finite _ m e => Zpos (digits2_pos m) + e <=? k
  | S754_infinity _ | S754_nan => false
  end.

(** The number of ranges of a run. *)
Definition ranges : nat := 837.

(** The sample points: the 32 doubles from the start of each range. *)
Definition sample_point (x : mfloat_t) : Prop :=
  exists i, In i (seq 0 ranges) /\
            In x (successors PointsInOneRange (range_start i)).

(** From the specification's words, [round]: the integer nearest to a
    double, halves away from zero; none for NaN and the infinities. *)
Definition round_nearest (x : mfloat_t) : option Z :=
  match x with
  | S754_zero _ => Some 0
  | S754_finite s m e =>
      Some (cond_Zopp s (Z.shiftr (Z.shiftl (Zpos m) (e + 1) + 1) 1))
  | S754_infinity _ | S754_nan => None
  end.

(** A range for the examples: for the sine, three points whose old
    and new values differ, around the accurate value 1, with [iscor] 5,
    -2 and 0; everything else as [calloc] leaves it. *)
Definition ulps_above_one (k : Z) : mfloat_t :=
  S754_finite false (Z.to_pos (2 ^ 52 + k)) (-52).

Definition below_one : mfloat_t := S754_finite false (Z.to_pos (2 ^ 53 - 1)) (-53).

Definition example_better : funcVal :=
  mk_funcVal (ulps_above_one 6) (ulps_above_one 1) one.
Definition example_worse : funcVal :=
  mk_funcVal (ulps_above_one 1) (ulps_above_one 3) one.
Definition example_even : funcVal :=
  mk_funcVal (ulps_above_one 1) below_one one.

Definition example_Range : Range :=
  mk_Range
    ([ [example_better; funcVal_zero; funcVal_zero];
       [example_worse; funcVal_zero; funcVal_zero];
       [example_even; funcVal_zero; funcVal_zero] ]
     ++ repeat (repeat funcVal_zero FuncLimit) 29)
    (ulps_above_one 0, ulps_above_one 32).

(** The reference library of the example: constant, and right about
    the cosine at [-fourPi], where the kernel returns 1 too. *)
Definition example_libm_sin (x : mfloat_t) : mfloat_t := zero.
Definition example_libm_cos (x : mfloat_t) : mfloat_t := one.
Definition example_dat : dat := mk_dat [] [Range_zero] 0.

(** ** Notions of the further properties *)

(** A zero or a finite double: neither NaN nor an infinity. *)
Definition is_finite (x : mfloat_t) : bool :=
  match x with
  | S754_zero _ | S754_finite _ _ _ => true
  | S754_infinity _ | S754_nan => false
  end.

(** The sign of a double (that of its sign bit). *)
Definition sign_of (x : mfloat_t) : bool :=
  match x with
  | S754_zero s | S754_infinity s | S754_finite s _ _ => s
  | S754_nan => false
  end.

(** The 63 bits of a double below its sign bit, written out. *)
Definition mag_value (x : mfloat_t) : Z :=
  match x with
  | S754_zero _ => 0
  | S754_infinity _ => 2047 * 2 ^ 52
  | S754_nan => 2047 * 2 ^ 52 + 2 ^ 51
  | S754_finite _ m e =>
      if Zpos m <? 2 ^ 52 then Zpos m else (e + 1075) * 2 ^ 52 + (Zpos m - 2 ^ 52)
  end.

(** [%2d] of [printf]: the decimal digits, with a space before a
    single one. *)
Definition fmt_2d (n : Z) : string :=
  let s := NilZero.string_of_int (Z.to_int n) in
  if (String.length s <? 2)%nat then (" " ++ s)%string else s.

(** The characters that [about] writes to [r] with [sprintf], not
    counting the final NUL. *)
Definition about_string (t : about_text) : string :=
  match t with
  | ExponentsOrSignsDiffer => "Exponents or signs differ !"
  | MantissasDifferIn n => ("Mantissas differ in " ++ fmt_2d n ++ " bits")%string
  end.

(** The counted points of a range for one function, by increasing
    [point]. *)
Definition counted (fn : nat) (R : Range) : list funcVal :=
  filter scored (column fn R).

(** The integer scores of the improvements and of the worsenings among
    some points. *)
Definition gains (vs : list funcVal) : list Z :=
  filter (fun s => 0 <? s) (map (fun v => iscor (scoresOf v)) vs).
Definition losses (vs : list funcVal) : list Z :=
  filter (fun s => s <? 0) (map (fun v => iscor (scoresOf v)) vs).

(** The ranges that [main] goes through, in order. *)
Definition ranges_of (d : dat) : list Range :=
  map (fun ran => nth ran (funcData d) Range_zero) (seq 0 (data_i d)).

(** The store has the shape that [main] allocates: in every range,
    [PointsInOneRange] rows of [FuncLimit] values. *)
Definition shaped (d : dat) : bool :=
  forallb (fun R =>
             (List.length (a R) =? PointsInOneRange)%nat &&
             forallb (fun row => (List.length row =? FuncLimit)%nat) (a R))
          (funcData d).

(** ** The interface to FriCAS, in C *)

Module CFricas.

(** [enum { FloatFricasLinesToSkipAtStartup = 17 };] *)
Definition FloatFricasLinesToSkipAtStartup : nat := 17.

Definition newline : ascii := "010"%char.
Definition NUL : ascii := "000"%char.

(** The bytes that the pipe [f.out] still holds; its end is EOF. *)
Definition stream : Type := list ascii.

(** [for (;;) { int c = fgetc(f); if (c < 0) return ...; if (c == stop)
    break; }]: the stream after the first [stop], none at EOF. *)
Fixpoint skip_past (stop : ascii) (s : stream) : option stream :=
  match s with
  | [] => None
  | c :: r => if Ascii.eqb c stop then Some r else skip_past stop r
  end.

(** [fgets(num, k + 1, f)] (C11 7.21.7.2): at most [k] bytes, none
    after a newline; the bytes stored before the terminating NUL, and
    the stream left. Nothing stored is the null pointer result. *)
Fixpoint fgets (k : nat) (s : stream) : list ascii * stream :=
  match k, s with
  | O, _ => ([], s)
  | S _, [] => ([], [])
  | S k', c :: r =>
      if Ascii.eqb c newline then ([c], r)
      else let '(l, rest) := fgets k' r in (c :: l, rest)
  end.

(** The string that a pointer into a [char] array designates: the
    bytes up to the first NUL. *)
Fixpoint c_string (buf : list ascii) : list ascii :=
  match buf with
  | [] => []
  | c :: r => if Ascii.eqb c NUL then [] else c :: c_string r
  end.

(** [(ieee754FloatingPointNumber)0 / (ieee754FloatingPointNumber)0] *)
Definition nan : mfloat_t := div (of_Z 0) (of_Z 0).

Section Lexer.

(** [strtod(s, &ss)]: the value and the length [ss - s] of the text
    converted. *)
Variable strtod : list ascii -> mfloat_t * nat.

(** The results of [fprintf(f.in, fricasCmd, x)] and [fflush(f.in)]. *)
Variable fprintf_n fflush_s : Z.

(** [x = strtod(s, &ss); if (ss == s) return nan; return x;] *)
Definition convert (s : list ascii) : mfloat_t :=
  let '(x, len) := strtod s in
  if (len =? 0)%nat then nan else x.

(** [FricasFloatEval(f, fricasCmd, x)]: the value returned and the
    stream left. There is no result when [strtod] is made to read
    the part of [num] that [fgets] has not written. *)
Definition FricasFloatEval (out : stream) : option (mfloat_t * stream) :=
  if fprintf_n <=? 0 then Some (nan, out)
  else if negb (fflush_s =? 0) then Some (nan, out)
  else
    match skip_past ")" out with
    | None => Some (nan, [])
    | Some out =>
        match out with
        | [] | [_] => Some (nan, [])
        | _ :: _ :: out =>
            match fgets 59 out with
            | ([], out) => Some (nan, out)
            | (c :: num, out) =>
                if Ascii.eqb c "-" then
                  match num with
                  | [] => None
                  | _ :: num' => Some (convert (c_string ("-"%char :: num')), out)
                  end
                else Some (convert (c_string (c :: num)), out)
            end
        end
    end.

End Lexer.

(** The loop of [FricasFloatNew] that discards the lines printed at
    startup: the stream after [n] lines, none at EOF. *)
Fixpoint discard_lines (n : nat) (s : stream) : option stream :=
  match n with
  | O => Some s
  | S n' =>
      match skip_past newline s with
      | Some r => discard_lines n' r
      | None => None
      end
  end.

(** [FricasFloatNew()]: the stream of the new interface, none for
    the null pair. [started] tells whether the pipes, the process
    and the two [FILE]s could be made; [out] is what FriCAS prints. *)
Definition FricasFloatNew (started : bool) (out : stream) : option stream :=
  if started then discard_lines FloatFricasLinesToSkipAtStartup out else None.

End CFricas.

(** ** The interface to FriCAS, in Go *)

Module GoFricas.

(** [const FloatFricasLinesToSkipAtStartup = 17] *)
Definition FloatFricasLinesToSkipAtStartup : nat := 17.

(** The size of the buffer of [bufio.NewReader]. *)
Definition buffer_size : nat := 4096.

(** The first [delim] among the next [k] bytes: the bytes up to it,
    it included, and the stream after it. *)
Fixpoint find (delim : ascii) (k : nat) (s : CFricas.stream)
    : option (list ascii * CFricas.stream) :=
  match k, s with
  | O, _ | _, [] => None
  | S k', c :: r =>
      if Ascii.eqb c delim then Some ([c], r)
      else match find delim k' r with
           | Some (l, rest) => Some (c :: l, rest)
           | None => None
           end
  end.

(** [f.outBuf.ReadSlice(delim)]: the slice, or none for an error (the
    buffer is full, or the stream has ended, without a [delim]), and
    the stream left. *)
Definition ReadSlice (delim : ascii) (s : CFricas.stream)
    : option (list ascii) * CFricas.stream :=
  match find delim buffer_size s with
  | Some (line, rest) => (Some line, rest)
  | None => (None, skipn buffer_size s)
  end.

(** The errors of [strconv.ParseFloat]. *)
Inductive parse_error : Type := NoError | ErrRange | ErrSyntax.

Section Lexer.

(** [strconv.ParseFloat(s, 64)] *)
Variable ParseFloat : list ascii -> mfloat_t * parse_error.

(** Lines 79 to 84 of [FloatEval]. *)
Definition parse (s : list ascii) : mfloat_t :=
  let '(n, err) := ParseFloat s in
  match err with
  | ErrSyntax => S754_nan
  | NoError | ErrRange => n
  end.

(** [func FloatEval(f *FloatFricas, fricasCmd string, x float64) float64]:
    the value returned and the stream left; none would be a run-time
    panic of an index expression. *)
Definition FloatEval (out : CFricas.stream) : option (mfloat_t * CFricas.stream) :=
  match ReadSlice ")" out with
  | (None, out) => Some (S754_nan, out)
  | (Some _, out) =>
      match out with
      | [] | [_] => Some (S754_nan, [])
      | _ :: _ :: out =>
          match ReadSlice CFricas.newline out with
          | (None, out) => Some (S754_nan, out)
          | (Some num, out) =>
              match num with
              | [] => None
              | c :: tl =>
                  if Ascii.eqb c "-" then
                    match tl with
                    | [] => None
                    | _ :: tl' => Some (parse (removelast ("-"%char :: tl')), out)
                    end
                  else Some (parse (removelast num), out)
              end
          end
      end
  end.

End Lexer.

(** The loop of [NewFloatFricas] over the lines printed at startup;
    an error of [ReadSlice] is reported and the loop goes on. *)
Fixpoint skip_lines (n : nat) (s : CFricas.stream) : CFricas.stream :=
  match n with
  | O => s
  | S n' => skip_lines n' (snd (ReadSlice CFricas.newline s))
  end.

(** [func NewFloatFricas(f *FloatFricas)]: the stream of [f.outBuf]. *)
Definition NewFloatFricas (out : CFricas.stream) : CFricas.stream :=
  skip_lines FloatFricasLinesToSkipAtStartup out.

End GoFricas.

(** ** Data of the further examples *)

(** Data for the examples of the store: one range taken from the
    examples above, already gone through. *)
Definition example_store : dat := mk_dat [] [example_Range] 1.

(** A range where the sine has improved at one point and has not got
    worse at any. *)
Definition example_gain_Range : Range :=
  mk_Range
    ([example_better; funcVal_zero; funcVal_zero]
     :: repeat (repeat funcVal_zero FuncLimit) 31)
    (ulps_above_one 0, ulps_above_one 32).

(** An oracle that answers with its argument. *)
Definition example_oracle (tr : list event) (fn : nat) (x : mfloat_t) : mfloat_t := x.

(** Lines for the examples of the lexers, and parsers that only
    measure their text. *)
Definition example_strtod (s : list ascii) : mfloat_t * nat :=
  (of_Z (Z.of_nat (List.length s)), List.length s).
Definition example_ParseFloat (s : list ascii) : mfloat_t * GoFricas.parse_error :=
  (of_Z (Z.of_nat (List.length s)), GoFricas.NoError).
Definition example_prompt : list ascii := list_ascii_of_string "   (13".
Definition example_number : list ascii := list_ascii_of_string "0.3300000000000000000000000E1".
Definition example_banner : list ascii :=
  List.concat (repeat (list_ascii_of_string "FriCAS" ++ [CFricas.newline]) 17).

(** * Properties *)

(** ** The kernel *)

Lemma neg_involutive (x : mfloat_t) : neg (neg x) = x.
Proof. destruct x; simpl; rewrite ?negb_involutive; reflexivity. Qed.

Lemma to_int_in_int (x : mfloat_t) (j : Z) : to_int x = Some j -> in_int j = true.
Proof.
  unfold to_int. destruct (trunc x) as [t|]; [|discriminate].
  destruct (in_int t) eqn:E; [|discriminate].
  intros H; injection H as <-. exact E.
Qed.

(** On a finite, nonzero argument [sncs1cs] records the sign and goes
    on with the absolute value. *)
Lemma sncs1cs_finite (s : bool) (m : positive) (e : Z) :
  sncs1cs (S754_finite s m e) =
  reduced (if s then -1 else 1) (S754_finite false m e).
Proof. destruct s; reflexivity. Qed.

Lemma octant_sign (j : Z) :
  exists j' s c,
    octant j 1 1 = (j', s, c) /\ octant j (-1) 1 = (j', - s, c) /\
    (s = 1 \/ s = -1).
Proof.
  unfold octant.
  destruct (3 <? Z.land j 7); [destruct (1 <? Z.land j 7 - 4) | destruct (1 <? Z.land j 7)];
    eexists _, _, _; (split; [reflexivity | split; [reflexivity | auto]]).
Qed.

Lemma assemble_sign (j s c : Z) (rsin romc : mfloat_t) :
  s = 1 \/ s = -1 ->
  assemble j (- s) c rsin romc = negate_sin (assemble j s c rsin romc).
Proof.
  intros [-> | ->]; unfold assemble, negate_sin; cbn [Z.opp Z.ltb Z.compare];
    cbn [sin cos omc]; rewrite ?neg_involutive.
  - reflexivity.
  - match goal with |- ?r = _ => destruct r end. reflexivity.
Qed.

Lemma reduced_sign (x : mfloat_t) :
  reduced (-1) x = option_map negate_sin (reduced 1 x).
Proof.
  unfold reduced.
  destruct (to_int (mul x fourOverPi)) as [j|]; [|reflexivity].
  cbn [bind].
  destruct (if Z.land j 1 =? 0 then Some (j, of_Z j)
            else j' <- int_add j 1;; Some (j', add (of_Z j) one)) as [[j1 y]|];
    [|reflexivity].
  cbn [bind fst snd].
  destruct (octant_sign j1) as (j' & s & c & E1 & E2 & Hs).
  rewrite E1, E2. cbn [option_map]. f_equal. apply assemble_sign, Hs.
Qed.

(** Two values of the kernel, as an IEEE-754 machine computes them. *)
Example sncs1cs_at_4 :
  sncs1cs (of_Z 4) =
  Some (mk_sincos1cos (S754_finite true 6816670871723694 (-53))
                      (S754_finite true 5887498334708929 (-53))
                      (S754_finite false 7447348794724960 (-52))).
Proof. vm_compute. reflexivity. Qed.

Example sncs1cs_at_one_tenth :
  sncs1cs (dec 1 (-1)) =
  Some (mk_sincos1cos (S754_finite false 7193755808156460 (-56))
                      (S754_finite false 8962200775956416 (-53))
                      (S754_finite false 5759805284425664 (-60))).
Proof. vm_compute. reflexivity. Qed.

(** C5. [sncs1cs] of [+0] and of [-0] is [(x, 1, 0)], the sine keeping
    the sign of the zero; of NaN, of [+Inf] and of [-Inf] it is NaN in
    all three components. *)
Theorem sncs1cs_special_values :
  sncs1cs (S754_zero false) = Some (mk_sincos1cos (S754_zero false) one zero) /\
  sncs1cs (S754_zero true) = Some (mk_sincos1cos (S754_zero true) one zero) /\
  sncs1cs S754_nan = Some (mk_sincos1cos S754_nan S754_nan S754_nan) /\
  sncs1cs (S754_infinity false) = Some (mk_sincos1cos S754_nan S754_nan S754_nan) /\
  sncs1cs (S754_infinity true) = Some (mk_sincos1cos S754_nan S754_nan S754_nan).
Proof. repeat split; reflexivity. Qed.

(** For an argument that is neither NaN nor an infinity,
    [sncs1cs (-x)] is [sncs1cs x] with the sine negated and the two
    other components the same (and it is defined exactly when
    [sncs1cs x] is). *)
Lemma sncs1cs_neg (x : mfloat_t) :
  isnan x = false -> isinf x = false ->
  sncs1cs (neg x) = option_map negate_sin (sncs1cs x).
Proof.
  destruct x as [s | s | | s m e]; try discriminate; intros _ _.
  - destruct s; reflexivity.
  - cbn [neg SFopp]. rewrite !sncs1cs_finite.
    destruct s; cbn [negb].
    + rewrite reduced_sign.
      destruct (reduced 1 (S754_finite false m e)) as [r|]; [|reflexivity].
      cbn [option_map]. destruct r; unfold negate_sin; cbn [sin cos omc].
      rewrite neg_involutive. reflexivity.
    + apply reduced_sign.
Qed.






(** ** Magnitudes

    Rounding keeps a bound on the magnitude up to one binary digit, so
    that nothing overflows in the kernel at arguments of moderate size:
    there the cast has a result and no operation gives an infinity or
    a NaN. *)

Lemma digits2_pos_size (p : positive) : digits2_pos p = Pos.size p.
Proof. induction p as [p IH | p IH |]; cbn; rewrite ?IH; reflexivity. Qed.

Lemma Zdigits2_log2 (m : Z) : 0 < m -> Zdigits2 m = Z.log2 m + 1.
Proof.
  destruct m as [|p|p]; try lia. intros _. cbn [Zdigits2].
  destruct p as [p|p|]; cbn [digits2_pos Z.log2];
    rewrite ?digits2_pos_size, ?Pos2Z.inj_succ; lia.
Qed.

Lemma Zdigits2_nonneg (m : Z) : 0 <= Zdigits2 m.
Proof. destruct m; cbn; lia. Qed.

Lemma Zdigits2_mono (a b : Z) : 0 <= a <= b -> Zdigits2 a <= Zdigits2 b.
Proof.
  intros [Ha Hab]. destruct (Z.eq_dec a 0) as [-> | Hz].
  - apply Zdigits2_nonneg.
  - rewrite !Zdigits2_log2 by lia. pose proof (Z.log2_le_mono a b Hab). lia.
Qed.

Lemma Zdigits2_succ (m : Z) : 0 <= m -> Zdigits2 (m + 1) <= Zdigits2 m + 1.
Proof.
  intros H. destruct (Z.eq_dec m 0) as [-> | Hz]; [cbn; lia|].
  rewrite !Zdigits2_log2 by lia. pose proof (Z.log2_succ_le m) as P.
  unfold Z.succ in P. lia.
Qed.

Lemma Zdigits2_mul (a b : Z) : 0 < a -> 0 < b -> Zdigits2 (a * b) <= Zdigits2 a + Zdigits2 b.
Proof.
  intros Ha Hb. rewrite !Zdigits2_log2 by nia.
  pose proof (Z.log2_mul_above a b). lia.
Qed.

Lemma Zdigits2_add (a b : Z) :
  0 <= a -> 0 <= b -> Zdigits2 (a + b) <= Z.max (Zdigits2 a) (Zdigits2 b) + 1.
Proof.
  intros Ha Hb.
  destruct (Z.eq_dec (Z.max a b) 0) as [E | E].
  - replace a with 0 by lia. replace b with 0 by lia. cbn. lia.
  - assert (H : Zdigits2 (a + b) <= Zdigits2 (2 * Z.max a b)) by (apply Zdigits2_mono; lia).
    rewrite (Zdigits2_log2 (2 * _)) in H by lia. rewrite Z.log2_double in H by lia.
    assert (M : Zdigits2 (Z.max a b) = Z.max (Zdigits2 a) (Zdigits2 b)).
    { destruct (Z.max_spec a b) as [[L ->] | [L ->]].
      - pose proof (Zdigits2_mono a b). lia.
      - pose proof (Zdigits2_mono b a). lia. }
    rewrite <- M, (Zdigits2_log2 (Z.max a b)) by lia. lia.
Qed.

Lemma shr_1_digits (mrs : shr_record) :
  0 <= shr_m mrs ->
  Zdigits2 (shr_m (shr_1 mrs)) <= Z.max (Zdigits2 (shr_m mrs) - 1) 0.
Proof.
  destruct mrs as [m r s]. cbn [shr_m].
  destruct m as [|p|p]; [| destruct p | lia];
    cbn [shr_1 shr_m Zdigits2 digits2_pos]; rewrite ?Pos2Z.inj_succ; lia.
Qed.

Lemma shr_1_nonneg (mrs : shr_record) : 0 <= shr_m mrs -> 0 <= shr_m (shr_1 mrs).
Proof.
  destruct mrs as [m r s]. cbn [shr_m].
  destruct m as [|p|p]; [| destruct p | lia]; cbn; lia.
Qed.

Lemma iter_shr_1_digits (p : positive) (mrs : shr_record) :
  0 <= shr_m mrs ->
  0 <= shr_m (iter_pos shr_1 p mrs) /\
  Zdigits2 (shr_m (iter_pos shr_1 p mrs)) <= Z.max (Zdigits2 (shr_m mrs) - Zpos p) 0.
Proof.
  revert mrs. induction p as [p IH | p IH |]; intros mrs H; cbn [iter_pos].
  - pose proof (shr_1_nonneg mrs H) as H1. pose proof (shr_1_digits mrs H) as D1.
    destruct (IH _ H1) as [H2 D2]. destruct (IH _ H2) as [H3 D3].
    split; [exact H3|]. lia.
  - destruct (IH _ H) as [H2 D2]. destruct (IH _ H2) as [H3 D3].
    split; [exact H3|]. lia.
  - split; [apply shr_1_nonneg, H|]. apply shr_1_digits, H.
Qed.

Lemma shr_fexp_bound (m e : Z) (l : location) :
  0 <= m ->
  let r := shr_fexp prec emax m e l in
  0 <= shr_m (fst r) /\
  Zdigits2 (shr_m (fst r)) + snd r <= Z.max (Zdigits2 m + e) (-1074) /\
  snd r <= Z.max e (Z.max (Zdigits2 m + e - 53) (-1074)).
Proof.
  intros H. unfold shr_fexp, shr, fexp, emin, prec, emax.
  assert (H0 : shr_m (shr_record_of_loc m l) = m).
  { destruct l as [|[| |]]; reflexivity. }
  pose proof (Zdigits2_nonneg m) as Dn.
  destruct (Z.max (Zdigits2 m + e - 53) (3 - 1024 - 53) - e) as [|p|p] eqn:E;
    cbn [fst snd]; rewrite ?H0.
  - lia.
  - destruct (iter_shr_1_digits p (shr_record_of_loc m l)) as [N D]; [rewrite H0; exact H|].
    rewrite H0 in D. split; [exact N|]. lia.
  - lia.
Qed.

Lemma round_nearest_even_bound (m : Z) (l : location) :
  0 <= m -> m <= round_nearest_even m l <= m + 1.
Proof.
  intros H. destruct l as [|[| |]]; cbn [round_nearest_even]; try lia.
  destruct (Z.even m); lia.
Qed.

Lemma binary_round_aux_fin (k : Z) (sx : bool) (mx ex : Z) (lx : location) :
  0 < mx -> Zdigits2 mx + ex <= k -> 0 <= k <= 970 ->
  finb (k + 1) (binary_round_aux prec emax sx mx ex lx) = true.
Proof.
  intros Hm Hk Hr. unfold binary_round_aux.
  assert (D1 : 1 <= Zdigits2 mx).
  { rewrite Zdigits2_log2 by lia. pose proof (Z.log2_nonneg mx). lia. }
  destruct (shr_fexp_bound mx ex lx) as (N1 & S1 & E1); [lia|].
  destruct (shr_fexp prec emax mx ex lx) as [mrs' e']. cbn [fst snd] in *.
  pose proof (round_nearest_even_bound (shr_m mrs') (loc_of_shr_record mrs') N1) as R.
  set (m1 := round_nearest_even (shr_m mrs') (loc_of_shr_record mrs')) in *.
  assert (Dm1 : Zdigits2 m1 <= Zdigits2 (shr_m mrs') + 1).
  { etransitivity; [apply (Zdigits2_mono m1 (shr_m mrs' + 1)); lia|].
    apply Zdigits2_succ, N1. }
  destruct (shr_fexp_bound m1 e' loc_Exact) as (N2 & S2 & E2); [lia|].
  destruct (shr_fexp prec emax m1 e' loc_Exact) as [mrs'' e'']. cbn [fst snd] in *.
  destruct (shr_m mrs'') as [|p|p] eqn:Ep; [reflexivity | | lia].
  cbn [Zdigits2] in S2.
  replace (e'' <=? emax - prec) with true
    by (symmetry; apply Z.leb_le; unfold emax, prec; lia).
  cbn [finb]. apply Z.leb_le. lia.
Qed.

Lemma iter_xO_digits (m d : positive) :
  Zpos (digits2_pos (Pos.iter xO m d)) = Zpos (digits2_pos m) + Zpos d.
Proof.
  induction d as [|d IH] using Pos.peano_ind.
  - cbn [Pos.iter digits2_pos]. rewrite Pos2Z.inj_succ. lia.
  - rewrite Pos.iter_succ. cbn [digits2_pos]. rewrite !Pos2Z.inj_succ, IH. lia.
Qed.

Lemma shl_align_digits (m : positive) (e e0 : Z) :
  Zpos (digits2_pos (fst (shl_align m e e0))) + snd (shl_align m e e0)
  = Zpos (digits2_pos m) + e.
Proof.
  unfold shl_align. destruct (e0 - e) as [|d|d] eqn:E; cbn [fst snd]; try reflexivity.
  rewrite iter_xO_digits. lia.
Qed.

Lemma binary_normalize_fin (k m e : Z) (szero : bool) :
  Zdigits2 m + e <= k -> 0 <= k <= 970 ->
  finb (k + 1) (binary_normalize prec emax m e szero) = true.
Proof.
  intros Hk Hr.
  destruct m as [|p|p]; cbn [binary_normalize]; [reflexivity | |];
    unfold binary_round;
    pose proof (shl_align_digits p e (fexp prec emax (Z.pos (digits2_pos p) + e))) as A;
    destruct (shl_align p e (fexp prec emax (Z.pos (digits2_pos p) + e))) as [mz ez];
    cbn [fst snd] in A; cbn [Zdigits2] in Hk;
    apply binary_round_aux_fin; cbn [Zdigits2]; lia.
Qed.

Lemma finb_weaken (k k' : Z) (x : mfloat_t) :
  finb k x = true -> k <= k' -> finb k' x = true.
Proof.
  destruct x as [s | s | | s m e]; cbn [finb]; try (intros; assumption).
  intros H L. apply Z.leb_le in H. apply Z.leb_le. lia.
Qed.

Lemma finb_not_nan (k : Z) (x : mfloat_t) : finb k x = true -> isnan x = false.
Proof. destruct x; cbn; congruence. Qed.

Lemma finb_neg (k : Z) (x : mfloat_t) : finb k x = true -> finb k (neg x) = true.
Proof. destruct x; cbn; congruence. Qed.

Lemma finb_mul (ka kb : Z) (x y : mfloat_t) :
  finb ka x = true -> finb kb y = true ->
  0 <= ka + kb <= 970 ->
  finb (ka + kb + 1) (mul x y) = true.
Proof.
  intros Hx Hy Hr.
  destruct x as [sx | sx | | sx mx ex]; try discriminate Hx;
    destruct y as [sy | sy | | sy my ey]; try discriminate Hy; try reflexivity.
  cbn [finb] in Hx, Hy. apply Z.leb_le in Hx. apply Z.leb_le in Hy.
  unfold mul, SFmul. apply binary_round_aux_fin; [lia | | lia].
  pose proof (Zdigits2_mul (Zpos mx) (Zpos my)) as D.
  cbn [Zdigits2 Z.mul] in D. cbn [Zdigits2]. lia.
Qed.

Lemma cond_Zopp_digits (s : bool) (m : Z) : Zdigits2 (cond_Zopp s m) = Zdigits2 m.
Proof. destruct s, m; reflexivity. Qed.

Lemma Zdigits2_abs (m : Z) : Zdigits2 (Z.abs m) = Zdigits2 m.
Proof. destruct m; reflexivity. Qed.

(** The digits of a sum or difference of two signed mantissas. *)
Lemma Zdigits2_signed_add (a b : Z) :
  Zdigits2 (a + b) <= Z.max (Zdigits2 a) (Zdigits2 b) + 1.
Proof.
  rewrite <- (Zdigits2_abs (a + b)), <- (Zdigits2_abs a), <- (Zdigits2_abs b).
  etransitivity; [apply (Zdigits2_mono _ (Z.abs a + Z.abs b)); lia|].
  apply Zdigits2_add; lia.
Qed.

Lemma finb_add_sub (ka kb : Z) (x y : mfloat_t) :
  finb ka x = true -> finb kb y = true ->
  0 <= ka <= 960 -> 0 <= kb <= 960 ->
  finb (Z.max ka kb + 2) (add x y) = true /\
  finb (Z.max ka kb + 2) (sub x y) = true.
Proof.
  intros Hx Hy Ha Hb.
  destruct x as [sx | sx | | sx mx ex]; try discriminate Hx;
    destruct y as [sy | sy | | sy my ey]; try discriminate Hy.
  - split; [destruct sx, sy | destruct sx, sy]; reflexivity.
  - split; cbn [add sub SFadd SFsub finb] in *; apply Z.leb_le in Hy; apply Z.leb_le; lia.
  - split; cbn [add sub SFadd SFsub finb] in *; apply Z.leb_le in Hx; apply Z.leb_le; lia.
  - cbn [finb] in Hx, Hy. apply Z.leb_le in Hx. apply Z.leb_le in Hy.
    pose proof (shl_align_digits mx ex (Z.min ex ey)) as Ax.
    pose proof (shl_align_digits my ey (Z.min ex ey)) as Ay.
    assert (Sx : snd (shl_align mx ex (Z.min ex ey)) = Z.min ex ey).
    { unfold shl_align. destruct (Z.min ex ey - ex) eqn:E; cbn [snd]; lia. }
    assert (Sy : snd (shl_align my ey (Z.min ex ey)) = Z.min ex ey).
    { unfold shl_align. destruct (Z.min ex ey - ey) eqn:E; cbn [snd]; lia. }
    rewrite Sx in Ax. rewrite Sy in Ay.
    set (ax := fst (shl_align mx ex (Z.min ex ey))) in *.
    set (ay := fst (shl_align my ey (Z.min ex ey))) in *.
    split; unfold add, sub, SFadd, SFsub; fold ax; fold ay.
    + replace (Z.max ka kb + 2) with ((Z.max ka kb + 1) + 1) by lia.
      apply binary_normalize_fin; [|lia].
      pose proof (Zdigits2_signed_add (cond_Zopp sx (Zpos ax)) (cond_Zopp sy (Zpos ay))) as D.
      rewrite !cond_Zopp_digits in D. cbn [Zdigits2] in D. lia.
    + replace (Z.max ka kb + 2) with ((Z.max ka kb + 1) + 1) by lia.
      apply binary_normalize_fin; [|lia].
      pose proof (Zdigits2_signed_add (cond_Zopp sx (Zpos ax)) (- cond_Zopp sy (Zpos ay))) as D.
      assert (O : Zdigits2 (- cond_Zopp sy (Zpos ay)) = Zdigits2 (Zpos ay)).
      { destruct sy; reflexivity. }
      rewrite O, cond_Zopp_digits in D. cbn [Zdigits2] in D.
      replace (cond_Zopp sx (Z.pos ax) - cond_Zopp sy (Z.pos ay))
        with (cond_Zopp sx (Z.pos ax) + - cond_Zopp sy (Z.pos ay)) by lia.
      lia.
Qed.

Lemma finb_add (ka kb : Z) (x y : mfloat_t) :
  finb ka x = true -> finb kb y = true ->
  0 <= ka <= 960 -> 0 <= kb <= 960 ->
  finb (Z.max ka kb + 2) (add x y) = true.
Proof. intros. apply finb_add_sub; assumption. Qed.

Lemma finb_sub (ka kb : Z) (x y : mfloat_t) :
  finb ka x = true -> finb kb y = true ->
  0 <= ka <= 960 -> 0 <= kb <= 960 ->
  finb (Z.max ka kb + 2) (sub x y) = true.
Proof. intros. apply finb_add_sub; assumption. Qed.

Lemma finb_of_int (j : Z) : in_int j = true -> finb 33 (of_Z j) = true.
Proof.
  intros H. unfold in_int, INT_MIN, INT_MAX in H. apply andb_true_iff in H.
  destruct H as [H1 H2]. apply Z.leb_le in H1. apply Z.leb_le in H2.
  unfold of_Z. change 33 with (32 + 1). apply binary_normalize_fin; [|lia].
  rewrite <- Zdigits2_abs.
  destruct (Z.eq_dec j 0) as [-> | Hz]; [cbn; lia|].
  rewrite Zdigits2_log2 by lia.
  assert (Z.log2 (Z.abs j) < 32); [|lia].
  apply Z.log2_lt_pow2; lia.
Qed.

Lemma finb_at (k : Z) (x : mfloat_t) : finb k x = true -> finb k x = true.
Proof. exact (fun H => H). Qed.

Ltac finb_step :=
  lazymatch goal with
  | |- finb _ (mul _ _) = true => eapply finb_mul; [finb_step | finb_step | lia]
  | |- finb _ (add _ _) = true => eapply finb_add; [finb_step | finb_step | lia | lia]
  | |- finb _ (sub _ _) = true => eapply finb_sub; [finb_step | finb_step | lia | lia]
  | |- finb _ (neg _) = true => eapply finb_neg; finb_step
  | |- finb _ ?c = true => first [eassumption | apply (finb_at 1 c); reflexivity]
  end.

Ltac finb_bound := eapply finb_weaken; [finb_step | lia].

Lemma sin_poly_fin (z zz : mfloat_t) :
  finb 50 z = true -> finb 110 zz = true -> finb 800 (sin_poly z zz) = true.
Proof. intros Hz Hzz. unfold sin_poly. finb_bound. Qed.

Lemma omc_poly_fin (zz : mfloat_t) :
  finb 110 zz = true -> finb 800 (omc_poly zz) = true.
Proof. intros Hzz. unfold omc_poly. finb_bound. Qed.

Lemma assemble_fin (j s c : Z) (rsin romc : mfloat_t) :
  finb 800 rsin = true -> finb 800 romc = true ->
  let r := assemble j s c rsin romc in
  finb 810 (sin r) = true /\ finb 810 (cos r) = true /\ finb 810 (omc r) = true.
Proof.
  intros Hs Ho. unfold assemble.
  destruct ((j =? 1) || (j =? 2)); [destruct (c <? 0) | destruct (c <? 0)];
    destruct (s <? 0); cbn [sin cos omc]; repeat split; finb_bound.
Qed.

Lemma reduced_fin (s : Z) (x : mfloat_t) (r : sincos1cos) :
  finb 5 x = true -> reduced s x = Some r ->
  finb 810 (sin r) = true /\ finb 810 (cos r) = true /\ finb 810 (omc r) = true.
Proof.
  intros Hx. unfold reduced.
  destruct (to_int (mul x fourOverPi)) as [j|] eqn:Hj; [|discriminate].
  cbn [bind]. apply to_int_in_int in Hj. pose proof (finb_of_int j Hj) as Fj.
  assert (Fy : forall jy,
             (if Z.land j 1 =? 0 then Some (j, of_Z j)
              else j' <- int_add j 1;; Some (j', add (of_Z j) one)) = Some jy ->
             finb 40 (snd jy) = true).
  { intros jy. destruct (Z.land j 1 =? 0).
    - intros E; injection E as <-. cbn [snd]. finb_bound.
    - destruct (int_add j 1) as [j'|]; [|discriminate]. cbn [bind].
      intros E; injection E as <-. cbn [snd]. finb_bound. }
  destruct (if Z.land j 1 =? 0 then Some (j, of_Z j)
            else j' <- int_add j 1;; Some (j', add (of_Z j) one)) as [[j1 y]|];
    [|discriminate].
  specialize (Fy _ eq_refl). cbn [snd] in Fy. cbn [bind fst snd].
  destruct (octant j1 s 1) as [[j' s'] c'].
  intros E; injection E as <-.
  assert (Fz : finb 50 (sub (sub (sub x (mul y DP1)) (mul y DP2)) (mul y DP3)) = true)
    by finb_bound.
  set (z := sub (sub (sub x (mul y DP1)) (mul y DP2)) (mul y DP3)) in *.
  assert (Fzz : finb 110 (mul z z) = true) by finb_bound.
  apply assemble_fin; [apply sin_poly_fin | apply omc_poly_fin]; assumption.
Qed.

(** Whenever the kernel returns at a point below 32 in magnitude, none
    of its three results is NaN. *)
Lemma sncs1cs_fin (x : mfloat_t) (r : sincos1cos) :
  finb 5 x = true -> sncs1cs x = Some r ->
  isnan (sin r) = false /\ isnan (cos r) = false /\ isnan (omc r) = false.
Proof.
  intros Hx.
  destruct x as [s | s | | s m e]; try discriminate Hx.
  - destruct s; intros E; injection E as <-; repeat split; reflexivity.
  - rewrite sncs1cs_finite. intros E.
    destruct (reduced_fin _ (S754_finite false m e) r Hx E) as (H1 & H2 & H3).
    repeat split; eapply finb_not_nan; eassumption.
Qed.

Lemma shiftl_bound (k : Z) (m : positive) (e : Z) :
  Zpos (digits2_pos m) + e <= k -> 1 <= k -> Z.shiftl (Zpos m) e < 2 ^ k.
Proof.
  intros H Hk.
  pose proof (Zdigits2_log2 (Zpos m) eq_refl) as D. cbn [Zdigits2] in D.
  assert (N : 0 <= Z.shiftl (Zpos m) e) by (apply Z.shiftl_nonneg; lia).
  destruct (Z.eq_dec (Z.shiftl (Zpos m) e) 0) as [-> | Hz]; [lia|].
  apply Z.log2_lt_pow2; [lia|].
  destruct (Z.le_gt_cases 0 e) as [He | He].
  - rewrite Z.log2_shiftl by lia. lia.
  - rewrite <- Z.shiftr_opp_r, Z.log2_shiftr by lia. lia.
Qed.

(** Below [2^28] in magnitude the cast of line 138 has a result, and
    it is not [INT_MAX]. *)
Lemma cast_defined (x : mfloat_t) :
  finb 28 x = true ->
  exists j, to_int (mul x fourOverPi) = Some j /\ j <> INT_MAX.
Proof.
  intros Hx.
  assert (F : finb 30 (mul x fourOverPi) = true) by finb_bound.
  unfold to_int.
  destruct (mul x fourOverPi) as [s | s | | s m e]; try discriminate F; cbn [trunc].
  - exists 0. split; [reflexivity | discriminate].
  - cbn [finb] in F. apply Z.leb_le in F.
    pose proof (shiftl_bound 30 m e F ltac:(lia)) as B.
    assert (N : 0 <= Z.shiftl (Zpos m) e) by (apply Z.shiftl_nonneg; lia).
    assert (I : in_int (cond_Zopp s (Z.shiftl (Z.pos m) e)) = true).
    { unfold in_int, INT_MIN, INT_MAX. apply andb_true_iff.
      destruct s; cbn [cond_Zopp]; split; apply Z.leb_le; lia. }
    rewrite I. eexists. split; [reflexivity|].
    unfold INT_MAX. destruct s; cbn [cond_Zopp]; lia.
Qed.

(** C3, as found false: [x = 2^31] is finite and [x * fourOverPi] is
    beyond the range of [mint_t], so the cast has no result and
    neither has [sncs1cs]. *)
Lemma sncs1cs_counterexample :
  is_double (of_Z (2 ^ 31)) = true /\
  to_int (mul (of_Z (2 ^ 31)) fourOverPi) = None /\
  sncs1cs (of_Z (2 ^ 31)) = None.
Proof. repeat split; vm_compute; reflexivity. Qed.

Lemma reduced_defined (s : Z) (x : mfloat_t) (j : Z) :
  to_int (mul x fourOverPi) = Some j -> j <> INT_MAX ->
  exists r, reduced s x = Some r.
Proof.
  intros Hj Hmax. unfold reduced. rewrite Hj. cbn [bind].
  apply to_int_in_int in Hj.
  destruct (Z.land j 1 =? 0).
  - cbn [bind fst snd]. destruct (octant j s 1) as [[j' s'] c']. eexists; reflexivity.
  - assert (E : int_add j 1 = Some (j + 1)).
    { unfold int_add. replace (in_int (j + 1)) with true; [reflexivity|].
      symmetry. unfold in_int, INT_MIN, INT_MAX in *.
      apply andb_true_iff in Hj. apply andb_true_iff. lia. }
    rewrite E. cbn [bind fst snd].
    destruct (octant (j + 1) s 1) as [[j' s'] c']. eexists; reflexivity.
Qed.

(** Below [2^28] in magnitude the kernel returns. *)
Lemma sncs1cs_moderate (x : mfloat_t) :
  finb 28 x = true -> exists r, sncs1cs x = Some r.
Proof.
  destruct x as [s | s | | s m e]; try discriminate.
  - intros _. destruct s; eexists; reflexivity.
  - intros H. rewrite sncs1cs_finite.
    destruct (cast_defined (S754_finite false m e) H) as (j & Hj & Hmax).
    exact (reduced_defined _ _ j Hj Hmax).
Qed.

(** C3, amended. [sncs1cs] returns a triple for [+0], [-0], NaN and
    the infinities, for every finite [x] below [2^28] in magnitude,
    and for every other [x] for which the cast
    [(mint_t)(|x| * fourOverPi)] is defined and is not [INT_MAX]. *)
Theorem sncs1cs_defined (x : mfloat_t) :
  eqb x zero = true \/ isnan x = true \/ isinf x = true \/
  finb 28 x = true \/
  (exists j, to_int (mul (SFabs x) fourOverPi) = Some j /\ j <> INT_MAX) ->
  exists r, sncs1cs x = Some r.
Proof.
  intros H.
  destruct x as [s | s | | s m e];
    try (destruct s; eexists; reflexivity); try (eexists; reflexivity).
  destruct H as [H | [H | [H | [H | H]]]]; try (destruct s; discriminate H).
  - apply sncs1cs_moderate, H.
  - destruct H as (j & Hj & Hmax).
    rewrite sncs1cs_finite. exact (reduced_defined _ _ j Hj Hmax).
Qed.

Lemma sncs1cs_defined_witness :
  finb 28 (of_Z 4) = true /\
  to_int (mul (SFabs (of_Z 4)) fourOverPi) = Some 5 /\
  exists r, sncs1cs (of_Z 4) = Some r.
Proof.
  split; [reflexivity|]. split; [vm_compute; reflexivity|].
  apply (sncs1cs_defined (of_Z 4)).
  right; right; right; right. exists 5.
  split; [vm_compute; reflexivity | discriminate].
Defined.

(** ** The distance *)

Lemma u64_range (z : Z) : 0 <= u64 z < 2 ^ 64.
Proof. unfold u64. apply Z.mod_pos_bound. lia. Qed.

(** The test [a & (1UL << 63)] of a [uint64] reads its top bit. *)
Lemma top_bit_clear (u : Z) :
  0 <= u < 2 ^ 64 ->
  (Z.land u (Z.shiftl 1 63) =? 0) = (u <? 2 ^ 63).
Proof.
  intros Hu.
  assert (E : Z.land u (Z.shiftl 1 63) = if Z.testbit u 63 then 2 ^ 63 else 0).
  { apply Z.bits_inj'. intros n Hn.
    rewrite Z.land_spec, Z.shiftl_spec by lia.
    destruct (Z.eq_dec n 63) as [-> | Hne].
    - destruct (Z.testbit u 63); reflexivity.
    - replace (Z.testbit 1 (n - 63)) with false.
      + rewrite andb_false_r. destruct (Z.testbit u 63).
        * change (2 ^ 63) with (Z.shiftl 1 63). rewrite Z.shiftl_spec by lia.
          destruct (Z.ltb_spec n 63).
          -- rewrite Z.testbit_neg_r by lia. reflexivity.
          -- change 1 with (2 ^ 0). rewrite Z.pow2_bits_eqb by lia.
             symmetry. apply Z.eqb_neq. lia.
        * rewrite Z.bits_0. reflexivity.
      + destruct (Z.ltb_spec n 63).
        * rewrite Z.testbit_neg_r by lia. reflexivity.
        * change 1 with (2 ^ 0). rewrite Z.pow2_bits_eqb by lia.
          symmetry. apply Z.eqb_neq. lia. }
  rewrite E.
  assert (T : Z.testbit u 63 = negb (u <? 2 ^ 63)).
  { destruct (Z.ltb_spec u (2 ^ 63)); cbn [negb].
    - apply Z.bits_above_log2; [lia|].
      destruct (Z.eq_dec u 0) as [-> | Hz]; [reflexivity|].
      apply Z.log2_lt_pow2; lia.
    - rewrite Z.testbit_eqb by lia.
      replace (u / 2 ^ 63) with 1; [reflexivity|].
      apply Z.div_unique with (r := u - 2 ^ 63); lia. }
  rewrite T. destruct (u <? 2 ^ 63); reflexivity.
Qed.

Lemma u64_opp_sub (a b : Z) : u64 (- u64 (a - b)) = u64 (b - a).
Proof.
  unfold u64.
  rewrite <- (Z.sub_0_l (_ mod _)), Zminus_mod_idemp_r. f_equal. lia.
Qed.

(** The same-sign branch of [ud] gives the same value both ways. *)
Lemma ud_same_sign_sym (a b : Z) :
  (let d := u64 (a - b) in
   if negb (Z.land d (Z.shiftl 1 63) =? 0) then to_int64 (u64 (- d)) else to_int64 d) =
  (let d := u64 (b - a) in
   if negb (Z.land d (Z.shiftl 1 63) =? 0) then to_int64 (u64 (- d)) else to_int64 d).
Proof.
  cbv zeta.
  rewrite !top_bit_clear by apply u64_range.
  rewrite !u64_opp_sub.
  pose proof (u64_range (a - b)) as Hd.
  pose proof (u64_range (b - a)) as Hd'.
  assert (S : u64 (a - b) = 0 /\ u64 (b - a) = 0 \/
              u64 (a - b) + u64 (b - a) = 2 ^ 64).
  { rewrite <- (u64_opp_sub a b). unfold u64 in *.
    destruct (Z.eq_dec ((a - b) mod 2 ^ 64) 0) as [E | E].
    - left. rewrite E. split; reflexivity.
    - right. rewrite Z.mod_opp_l_nz by (rewrite ?Z.mod_mod; lia).
      rewrite Z.mod_mod by lia. lia. }
  destruct (Z.ltb_spec (u64 (a - b)) (2 ^ 63)), (Z.ltb_spec (u64 (b - a)) (2 ^ 63));
    cbn [negb]; try reflexivity; f_equal; lia.
Qed.

(** C2, as found false: the distance from 1 to 2 and the distance from
    2 to 1 are both [2^52], not opposite. *)
Lemma ud_antisymmetry_counterexample :
  ud (of_Z 1) (of_Z 2) = 2 ^ 52 /\
  int64_neg (ud (of_Z 2) (of_Z 1)) = - 2 ^ 52 /\
  ud (of_Z 1) (of_Z 2) <> int64_neg (ud (of_Z 2) (of_Z 1)).
Proof. repeat split; vm_compute; congruence. Qed.

(** C2, amended. [ud] is symmetric: [ud x y] and [ud y x] are the same
    [int64], for every pair of doubles. *)
Theorem ud_symmetric (x y : mfloat_t) : ud x y = ud y x.
Proof.
  unfold ud. rewrite (orb_comm (neb x x)).
  destruct (neb y y || neb x x); [reflexivity|].
  rewrite (Z.eqb_sym (Z.land (bits x) _)).
  destruct (Z.land (bits y) (Z.shiftl 1 63) =? Z.land (bits x) (Z.shiftl 1 63)).
  - apply ud_same_sign_sym.
  - f_equal. unfold u64. rewrite !Zplus_mod_idemp_l. f_equal. lia.
Qed.

Lemma eqb_refl (x : mfloat_t) : isnan x = false -> eqb x x = true.
Proof.
  unfold eqb, SFeqb.
  destruct x as [s | s | | s m e]; try reflexivity; try (destruct s; reflexivity).
  - discriminate.
  - intros _. cbn [SFcompare].
    rewrite Z.compare_refl, Pos.compare_cont_refl. destruct s; reflexivity.
Qed.

Lemma ud_refl (x : mfloat_t) : isnan x = false -> ud x x = 0.
Proof.
  intros H. pose proof (eqb_refl x H) as E. unfold eqb in E.
  unfold ud, neb. rewrite E. cbn [negb orb].
  rewrite Z.eqb_refl, Z.sub_diag. reflexivity.
Qed.

(** C6. [ud x x] is 0 for every [x] that is not NaN, and the two zeros
    are at distance 0 from each other, either way. *)
Theorem ud_identical_and_zeros (x : mfloat_t) :
  isnan x = false ->
  ud x x = 0 /\
  ud (S754_zero false) (S754_zero true) = 0 /\
  ud (S754_zero true) (S754_zero false) = 0.
Proof. intros H. split; [apply ud_refl, H | split; reflexivity]. Qed.

Lemma ud_identical_and_zeros_witness :
  isnan (dec 1 (-1)) = false /\
  ud (dec 1 (-1)) (dec 1 (-1)) = 0 /\
  ud (S754_zero false) (S754_zero true) = 0 /\
  ud (S754_zero true) (S754_zero false) = 0.
Proof.
  split; [reflexivity|].
  apply (ud_identical_and_zeros (dec 1 (-1))). reflexivity.
Defined.

(** ** The scores and the aggregation *)

Lemma ud_nan_r (x : mfloat_t) : ud x S754_nan = INT64_MAX.
Proof. unfold ud. rewrite orb_true_r. reflexivity. Qed.

Lemma alter_last_app {A : Type} (f : A -> A) (p : list A) (x : A) :
  alter_last f (p ++ [x]) = p ++ [f x].
Proof.
  induction p as [|y p IH]; [reflexivity|].
  cbn [app alter_last]. rewrite IH.
  destruct (p ++ [x]) eqn:E; [destruct p; discriminate E | reflexivity].
Qed.

Lemma scan_point_skip (st : list rangeReport * bool) (v : funcVal) :
  scored v = false -> scan_point st v = st.
Proof.
  unfold scored, scan_point. destruct (isNull v); [reflexivity|].
  destruct (iscor (scoresOf v) =? 0); [reflexivity | discriminate].
Qed.

Lemma scan_point_first (p : list rangeReport) (v : funcVal) :
  scored v = true ->
  scan_point (p, false) v = (p ++ [score_into rangeReport_zero v], true).
Proof.
  unfold scored, scan_point, score_into. destruct (isNull v); [discriminate|].
  destruct (iscor (scoresOf v) =? 0); [discriminate|]. intros _.
  cbn [fst snd negb].
  destruct (0 <? iscor (scoresOf v)); rewrite !alter_last_app; reflexivity.
Qed.

Lemma scan_point_next (p : list rangeReport) (r : rangeReport) (v : funcVal) :
  scored v = true ->
  scan_point (p ++ [r], true) v = (p ++ [score_into r v], true).
Proof.
  unfold scored, scan_point, score_into. destruct (isNull v); [discriminate|].
  destruct (iscor (scoresOf v) =? 0); [discriminate|]. intros _.
  cbn [fst snd negb].
  destruct (0 <? iscor (scoresOf v)); rewrite !alter_last_app; reflexivity.
Qed.

Lemma scan_scored (vs : list funcVal) (st : list rangeReport * bool) :
  fold_left scan_point vs st = fold_left scan_point (filter scored vs) st.
Proof.
  revert st. induction vs as [|v vs IH]; intros st; [reflexivity|].
  cbn [fold_left filter]. destruct (scored v) eqn:E.
  - cbn [fold_left]. apply IH.
  - rewrite (scan_point_skip st v E). apply IH.
Qed.

Lemma scan_range_column (fn : nat) (p : list rangeReport) (R : Range) :
  scan_range fn p R =
  let st := fold_left scan_point (filter scored (column fn R)) (p, false) in
  if snd st then alter_last (finish_range R) (fst st) else fst st.
Proof.
  unfold scan_range, column. rewrite <- scan_scored.
  generalize (p, false). generalize (seq 0 PointsInOneRange).
  intros l. induction l as [|k l IH]; intros st; [reflexivity|].
  cbn [map fold_left]. apply IH.
Qed.

Lemma filter_scored_nonnull (vs : list funcVal) :
  filter scored vs =
  filter (fun v => negb (iscor (scoresOf v) =? 0))
         (filter (fun v => negb (isNull v)) vs).
Proof.
  induction vs as [|v vs IH]; [reflexivity|].
  cbn [filter]. unfold scored at 1. destruct (isNull v); cbn [negb andb].
  - exact IH.
  - cbn [filter]. destruct (iscor (scoresOf v) =? 0); cbn [negb]; rewrite IH; reflexivity.
Qed.

Lemma three_scores (x y z : Z) :
  Permutation [x; y; z] [5; -2; 0] ->
  (x = 5 /\ y = -2 /\ z = 0) \/ (x = 5 /\ y = 0 /\ z = -2) \/
  (x = -2 /\ y = 5 /\ z = 0) \/ (x = -2 /\ y = 0 /\ z = 5) \/
  (x = 0 /\ y = 5 /\ z = -2) \/ (x = 0 /\ y = -2 /\ z = 5).
Proof.
  intros P.
  assert (Hx : In x [5; -2; 0]) by (apply (Permutation_in _ P); simpl; auto).
  assert (Hy : In y [5; -2; 0]) by (apply (Permutation_in _ P); simpl; auto).
  assert (Hz : In z [5; -2; 0]) by (apply (Permutation_in _ P); simpl; auto).
  apply Permutation_sym in P.
  assert (H5 : In 5 [x; y; z]) by (apply (Permutation_in _ P); simpl; auto).
  assert (H2 : In (-2) [x; y; z]) by (apply (Permutation_in _ P); simpl; auto).
  assert (H0 : In 0 [x; y; z]) by (apply (Permutation_in _ P); simpl; auto).
  simpl in *. lia.
Qed.

Lemma score_into_better (r : rangeReport) (v : funcVal) :
  0 < iscor (scoresOf v) ->
  score_into r v =
  mk_rangeReport (report_limits r)
    (updateMicroReport (improvements r) (iscor (scoresOf v)) (fscor (scoresOf v)))
    (worsenings r) (add (mean1 r) (fscor (scoresOf v))).
Proof.
  intros H. unfold score_into.
  destruct (Z.ltb_spec 0 (iscor (scoresOf v))); [reflexivity | lia].
Qed.

Lemma score_into_worse (r : rangeReport) (v : funcVal) :
  iscor (scoresOf v) <= 0 ->
  score_into r v =
  mk_rangeReport (report_limits r) (improvements r)
    (updateMicroReport (worsenings r) (iscor (scoresOf v)) (fscor (scoresOf v)))
    (add (mean1 r) (fscor (scoresOf v))).
Proof.
  intros H. unfold score_into.
  destruct (Z.ltb_spec 0 (iscor (scoresOf v))); [lia | reflexivity].
Qed.

Lemma finish_range_fields (R : Range) (r : rangeReport) :
  count (improvements (finish_range R r)) = count (improvements r) /\
  max (improvements (finish_range R r)) = max (improvements r) /\
  count (worsenings (finish_range R r)) = count (worsenings r) /\
  max (worsenings (finish_range R r)) = max (worsenings r) /\
  mean1 (finish_range R r) =
    div (mean1 r) (of_Z (count (improvements r) + count (worsenings r))).
Proof. repeat split; reflexivity. Qed.

(** The report of a range whose counted points are one of [iscor] 5
    and one of [iscor] -2, in either order. *)
Lemma report_of_two (R : Range) (p : list rangeReport) (v w : funcVal) :
  isNull v = false -> isNull w = false ->
  (iscor (scoresOf v) = 5 /\ iscor (scoresOf w) = -2) \/
  (iscor (scoresOf v) = -2 /\ iscor (scoresOf w) = 5) ->
  exists r,
    (let st := fold_left scan_point [v; w] (p, false) in
     if snd st then alter_last (finish_range R) (fst st) else fst st) = p ++ [r] /\
    count (improvements r) = 1 /\ max (improvements r) = 5 /\
    count (worsenings r) = 1 /\ max (worsenings r) = -2 /\
    mean1 r = div (fold_left add [fscor (scoresOf v); fscor (scoresOf w)] (of_Z 0))
                  (of_Z 2).
Proof.
  intros Nv Nw H.
  assert (Sv : scored v = true).
  { unfold scored. rewrite Nv. destruct H as [[-> _] | [-> _]]; reflexivity. }
  assert (Sw : scored w = true).
  { unfold scored. rewrite Nw. destruct H as [[_ ->] | [_ ->]]; reflexivity. }
  cbn [fold_left]. rewrite (scan_point_first p v Sv), (scan_point_next p _ w Sw).
  cbn [fst snd]. rewrite alter_last_app.
  eexists. split; [reflexivity|].
  destruct (finish_range_fields R (score_into (score_into rangeReport_zero v) w))
    as (-> & -> & -> & -> & ->).
  destruct H as [[Hv Hw] | [Hv Hw]].
  - rewrite (score_into_worse _ w), (score_into_better _ v) by lia.
    rewrite Hv, Hw. repeat split; reflexivity.
  - rewrite (score_into_better _ w), (score_into_worse _ v) by lia.
    rewrite Hv, Hw. repeat split; reflexivity.
Qed.

(** C8. If, for one function, the points of a range whose old and
    new values differ are exactly three, with [iscor] 5, -2 and 0 in
    some order, then the aggregation appends one report for the range:
    its improvements have count 1 and max 5, its worsenings have
    count 1 and max -2, and its arithmetic mean is the sum of the
    [fscor] of the two points of nonzero [iscor], divided by 2. *)
Theorem three_points_report (fn : nat) (p : list rangeReport) (R : Range)
    (v1 v2 v3 : funcVal) :
  filter (fun v => negb (isNull v)) (column fn R) = [v1; v2; v3] ->
  Permutation (map (fun v => iscor (scoresOf v)) [v1; v2; v3]) [5; -2; 0] ->
  exists r,
    scan_range fn p R = p ++ [r] /\
    count (improvements r) = 1 /\ max (improvements r) = 5 /\
    count (worsenings r) = 1 /\ max (worsenings r) = -2 /\
    mean1 r =
      div (fold_left add
             (map (fun v => fscor (scoresOf v))
                (filter (fun v => negb (iscor (scoresOf v) =? 0)) [v1; v2; v3]))
             (of_Z 0))
          (of_Z (count (improvements r) + count (worsenings r))) /\
    count (improvements r) + count (worsenings r) = 2.
Proof.
  intros Hcol P.
  assert (N : forall v, In v [v1; v2; v3] -> isNull v = false).
  { intros v Hv. rewrite <- Hcol in Hv. apply filter_In in Hv.
    destruct Hv as [_ Hv]. destruct (isNull v); [discriminate | reflexivity]. }
  assert (N1 : isNull v1 = false) by (apply N; simpl; auto).
  assert (N2 : isNull v2 = false) by (apply N; simpl; auto).
  assert (N3 : isNull v3 = false) by (apply N; simpl; auto).
  rewrite scan_range_column, filter_scored_nonnull, Hcol.
  cbn [map] in P. apply three_scores in P.
  cbn [filter].
  assert (G : forall v w,
             isNull v = false -> isNull w = false ->
             (iscor (scoresOf v) = 5 /\ iscor (scoresOf w) = -2) \/
             (iscor (scoresOf v) = -2 /\ iscor (scoresOf w) = 5) ->
             exists r,
               (let st := fold_left scan_point [v; w] (p, false) in
                if snd st then alter_last (finish_range R) (fst st) else fst st)
               = p ++ [r] /\
               count (improvements r) = 1 /\ max (improvements r) = 5 /\
               count (worsenings r) = 1 /\ max (worsenings r) = -2 /\
               mean1 r =
                 div (fold_left add (map (fun v => fscor (scoresOf v)) [v; w]) (of_Z 0))
                     (of_Z (count (improvements r) + count (worsenings r))) /\
               count (improvements r) + count (worsenings r) = 2).
  { intros v w Hv Hw H.
    destruct (report_of_two R p v w Hv Hw H) as (r & E & C1 & M1 & C2 & M2 & Mean).
    exists r. rewrite C1, C2. repeat split; assumption. }
  destruct P as [(E1 & E2 & E3) | [(E1 & E2 & E3) | [(E1 & E2 & E3) |
                [(E1 & E2 & E3) | [(E1 & E2 & E3) | (E1 & E2 & E3)]]]]];
    rewrite E1, E2, E3; cbn [Z.eqb negb]; apply G; auto.
Qed.

Lemma three_points_report_witness :
  filter (fun v => negb (isNull v)) (column sinIndex example_Range)
    = [example_better; example_worse; example_even] /\
  map (fun v => iscor (scoresOf v)) [example_better; example_worse; example_even]
    = [5; -2; 0] /\
  exists r,
    scan_range sinIndex [] example_Range = [] ++ [r] /\
    count (improvements r) = 1 /\ max (improvements r) = 5 /\
    count (worsenings r) = 1 /\ max (worsenings r) = -2 /\
    mean1 r =
      div (fold_left add
             (map (fun v => fscor (scoresOf v))
                (filter (fun v => negb (iscor (scoresOf v) =? 0))
                   [example_better; example_worse; example_even]))
             (of_Z 0))
          (of_Z (count (improvements r) + count (worsenings r))) /\
    count (improvements r) + count (worsenings r) = 2.
Proof.
  split; [vm_compute; reflexivity|]. split; [vm_compute; reflexivity|].
  apply (three_points_report sinIndex [] example_Range
           example_better example_worse example_even).
  - vm_compute; reflexivity.
  - vm_compute. apply Permutation_refl.
Defined.

(** C10. For a value whose accurate field is NaN, whatever the old and
    the new value: [scoresOf] gives [iscor] 0, [quiteInteresting] gives
    nil, the aggregation passes over the point, and the evaluator,
    when FriCAS answers NaN, prints no line for it. *)
Theorem oracle_failure_is_silent (v : funcVal) :
  isnan (accurate v) = true ->
  iscor (scoresOf v) = 0 /\
  quiteInteresting v = None /\
  (forall st, scan_point st v = st) /\
  (forall FricasFloatEval d pointInRange x a_ fn,
      FricasFloatEval (fr d) fn x = accurate v ->
      fr (check_function FricasFloatEval pointInRange x a_ d fn) = fr d \/
      fr (check_function FricasFloatEval pointInRange x a_ d fn)
        = fr d ++ [Call_FricasFloatEval fn x]).
Proof.
  destruct v as [o n acc]. cbn [accurate]. intros H.
  destruct acc; try discriminate H. clear H.
  assert (I : iscor (scoresOf (mk_funcVal o n S754_nan)) = 0).
  { unfold scoresOf. cbn [old new accurate iscor]. rewrite !ud_nan_r. reflexivity. }
  assert (Q : forall o' n', quiteInteresting (mk_funcVal o' n' S754_nan) = None).
  { intros o' n'. unfold quiteInteresting. cbn [old new accurate].
    rewrite !ud_nan_r. reflexivity. }
  split; [exact I|]. split; [apply Q|]. split.
  - intros st. apply scan_point_skip. unfold scored. rewrite I.
    apply andb_false_r.
  - intros F d pt x a_ fn E. unfold check_function.
    destruct (interesting _); [|left; reflexivity].
    rewrite E, Q. right. reflexivity.
Qed.

Lemma oracle_failure_is_silent_witness :
  let v := mk_funcVal (ulps_above_one 6) (ulps_above_one 1) S754_nan in
  isnan (accurate v) = true /\
  iscor (scoresOf v) = 0 /\ quiteInteresting v = None.
Proof.
  intros v. split; [reflexivity|].
  destruct (oracle_failure_is_silent v eq_refl) as (I & Q & _).
  split; [exact I | exact Q].
Defined.

(** ** The evaluator *)

Lemma nth_alter_nth_proj {A B : Type} (g : A -> B) (f : A -> A) (n m : nat)
    (l : list A) (dflt : A) :
  (n = m -> forall y, g (f y) = g y) ->
  g (nth n (alter_nth f m l) dflt) = g (nth n l dflt).
Proof.
  revert n m. induction l as [|y l IH]; intros n m H.
  - destruct m; reflexivity.
  - destruct m as [|m], n as [|n]; cbn [alter_nth nth]; try reflexivity.
    + apply H. reflexivity.
    + apply IH. intros E. apply H. f_equal. exact E.
Qed.

Lemma cell_set_cell_other (d : dat) (ran point point' fn fn' : nat) (v : funcVal) :
  fn <> fn' ->
  cell (set_cell d point' fn' v) ran point fn = cell d ran point fn.
Proof.
  intros Hne. unfold cell, set_cell. cbn [funcData].
  apply (nth_alter_nth_proj
           (fun R => nth fn (nth point (a R) []) funcVal_zero)).
  intros _ R. cbn [a].
  apply (nth_alter_nth_proj (fun row => nth fn row funcVal_zero)).
  intros _ row.
  apply (nth_alter_nth_proj (fun w => w)).
  intros E. contradiction.
Qed.

Section Evaluator_facts.

Variable libm_sin libm_cos : mfloat_t -> mfloat_t.
Variable FricasFloatEval : list event -> nat -> mfloat_t -> mfloat_t.

(** What one turn of the loop of [checkSinCosOmcInPoint] does: it
    adds events about its own function only, and leaves the cells of
    the other functions alone. *)
Lemma check_function_effect (pt : nat) (x : mfloat_t) (a_ : list funcVal)
    (d : dat) (fn' : nat) :
  let d' := check_function FricasFloatEval pt x a_ d fn' in
  data_i d' = data_i d /\
  (exists evs, fr d' = fr d ++ evs /\ forall e, In e evs -> event_fn e = Some fn') /\
  (forall ran point fn, fn <> fn' -> cell d' ran point fn = cell d ran point fn).
Proof.
  unfold check_function.
  destruct (interesting _).
  - destruct (quiteInteresting _) as [s|]; cbn [emit set_cell data_i fr].
    + split; [reflexivity|]. split.
      * eexists. rewrite <- app_assoc. split; [reflexivity|].
        intros e [<- | [<- | []]]; reflexivity.
      * intros ran point fn Hne.
        apply (cell_set_cell_other d ran point pt fn fn' _ Hne).
    + split; [reflexivity|]. split.
      * eexists. split; [reflexivity|]. intros e [<- | []]; reflexivity.
      * intros ran point fn Hne.
        apply (cell_set_cell_other d ran point pt fn fn' _ Hne).
  - split; [reflexivity|]. split.
    + exists []. rewrite app_nil_r. split; [reflexivity|]. intros e [].
    + reflexivity.
Qed.

(** With equal old and new values, not NaN, the turn does nothing. *)
Lemma check_function_equal (pt : nat) (x : mfloat_t) (a_ : list funcVal)
    (d : dat) (fn : nat) :
  old (nth fn a_ funcVal_zero) = new (nth fn a_ funcVal_zero) ->
  isnan (new (nth fn a_ funcVal_zero)) = false ->
  check_function FricasFloatEval pt x a_ d fn = d.
Proof.
  intros E N. unfold check_function. rewrite E, (ud_refl _ N). reflexivity.
Qed.

Lemma check_functions_effect (pt : nat) (x : mfloat_t) (a_ : list funcVal)
    (fns : list nat) (d : dat) :
  let d' := fold_left (check_function FricasFloatEval pt x a_) fns d in
  data_i d' = data_i d /\
  exists evs, fr d' = fr d ++ evs /\ forall e, In e evs -> event_fn e <> None.
Proof.
  revert d. induction fns as [|fn' fns IH]; intros d; cbn [fold_left].
  - split; [reflexivity|]. exists []. rewrite app_nil_r.
    split; [reflexivity|]. intros e [].
  - destruct (check_function_effect pt x a_ d fn') as (I1 & (ev1 & F1 & E1) & _).
    destruct (IH (check_function FricasFloatEval pt x a_ d fn'))
      as (I2 & ev2 & F2 & E2).
    cbv zeta. split; [congruence|].
    exists (ev1 ++ ev2). rewrite F2, F1, app_assoc. split; [reflexivity|].
    intros e He. apply in_app_or in He. destruct He as [He | He].
    + rewrite (E1 e He). discriminate.
    + apply E2, He.
Qed.

Lemma check_functions_skip (pt : nat) (x : mfloat_t) (a_ : list funcVal)
    (fn : nat) (fns : list nat) (d : dat) :
  old (nth fn a_ funcVal_zero) = new (nth fn a_ funcVal_zero) ->
  isnan (new (nth fn a_ funcVal_zero)) = false ->
  let d' := fold_left (check_function FricasFloatEval pt x a_) fns d in
  (exists evs, fr d' = fr d ++ evs /\ forall e, In e evs -> event_fn e <> Some fn) /\
  (forall ran point, cell d' ran point fn = cell d ran point fn).
Proof.
  intros E N. revert d. induction fns as [|fn' fns IH]; intros d; cbn [fold_left].
  - split; [|reflexivity]. exists []. rewrite app_nil_r.
    split; [reflexivity|]. intros e [].
  - destruct (Nat.eq_dec fn fn') as [<- | Hne].
    + rewrite (check_function_equal pt x a_ d fn E N). apply IH.
    + destruct (check_function_effect pt x a_ d fn') as (_ & (ev1 & F1 & E1) & C1).
      destruct (IH (check_function FricasFloatEval pt x a_ d fn'))
        as ((ev2 & F2 & E2) & C2).
      cbv zeta. split.
      * exists (ev1 ++ ev2). rewrite F2, F1, app_assoc. split; [reflexivity|].
        intros e He. apply in_app_or in He. destruct He as [He | He].
        -- rewrite (E1 e He). congruence.
        -- apply E2, He.
      * intros ran point. rewrite C2. apply C1, Hne.
Qed.

End Evaluator_facts.

(** ** The sample generator *)

(** Every sample point is below 32 in magnitude (by evaluation of the
    837 * 32 points). *)
Lemma sample_points_fin :
  forallb (fun i => forallb (finb 5) (successors PointsInOneRange (range_start i)))
          (seq 0 ranges) = true.
Proof. vm_cast_no_check (eq_refl true). Qed.

Lemma sample_point_fin (x : mfloat_t) : sample_point x -> finb 5 x = true.
Proof.
  intros (i & Hi & Hx).
  pose proof sample_points_fin as H.
  rewrite forallb_forall in H. specialize (H i Hi).
  rewrite forallb_forall in H. exact (H x Hx).
Qed.

Lemma fin_defined (x : mfloat_t) :
  finb 5 x = true -> exists r, sncs1cs x = Some r.
Proof.
  intros H. apply sncs1cs_moderate. apply (finb_weaken 5); [exact H | lia].
Qed.

Lemma sampled_app (t1 t2 : list event) :
  sampled (t1 ++ t2) = sampled t1 ++ sampled t2.
Proof. apply flat_map_app. Qed.

Lemma sampled_channel (evs : list event) :
  (forall e, In e evs -> event_fn e <> None) -> sampled evs = [].
Proof.
  induction evs as [|e evs IH]; intros H; [reflexivity|].
  unfold sampled. cbn [flat_map]. fold (sampled evs).
  rewrite IH by (intros e' He'; apply H; right; exact He').
  specialize (H e (or_introl eq_refl)).
  destruct e; try reflexivity; contradiction H; reflexivity.
Qed.

Section Generator_facts.

Variable libm_sin libm_cos : mfloat_t -> mfloat_t.
Variable FricasFloatEval : list event -> nat -> mfloat_t -> mfloat_t.

Let check := checkSinCosOmcInPoint libm_sin libm_cos FricasFloatEval.
Let step_ := testRange_step libm_sin libm_cos FricasFloatEval.
Let range_ := testRange libm_sin libm_cos FricasFloatEval.
Let sample_ := sample_step libm_sin libm_cos FricasFloatEval.

Lemma checkSinCosOmcInPoint_sampled (d : dat) (pt : nat) (x : mfloat_t) :
  finb 5 x = true ->
  exists d', check d pt x = Some d' /\ data_i d' = data_i d /\
             sampled (fr d') = sampled (fr d) ++ [x].
Proof.
  intros K. destruct (fin_defined x K) as [r Hr].
  unfold check, checkSinCosOmcInPoint. rewrite Hr. cbn [bind].
  eexists. split; [reflexivity|].
  destruct (check_functions_effect FricasFloatEval pt x
              (values_at libm_sin libm_cos x r) (seq 0 FuncLimit)
              (emit (Call_cos x) (emit (Call_sin x) d)))
    as (I & evs & F & E).
  split; [exact I|].
  rewrite F. cbn [emit fr]. rewrite !sampled_app, (sampled_channel evs E).
  cbn. rewrite !app_nil_r. reflexivity.
Qed.

Lemma testRange_steps_sampled (n k : nat) (d : dat) (x : mfloat_t) :
  forallb (finb 5) (successors n x) = true ->
  exists dx, fold_left step_ (seq k n) (Some (d, x)) = Some dx /\
             data_i (fst dx) = data_i d /\
             sampled (fr (fst dx)) = sampled (fr d) ++ successors n x.
Proof.
  revert k d x. induction n as [|n IH]; intros k d x H.
  - exists (d, x). cbn. rewrite app_nil_r. auto.
  - cbn [successors forallb] in H. apply andb_true_iff in H. destruct H as [Hx H].
    destruct (checkSinCosOmcInPoint_sampled d k x Hx) as (d1 & E1 & I1 & S1).
    cbn [seq fold_left]. unfold step_ at 2, testRange_step.
    cbn [bind fst snd]. fold check. rewrite E1. cbn [bind].
    destruct (IH (S k) d1 (nextafter_posInf x) H) as (dx & E2 & I2 & S2).
    exists dx. fold step_. rewrite E2. split; [reflexivity|].
    split; [congruence|].
    rewrite S2, S1, <- app_assoc. reflexivity.
Qed.

Lemma testRange_sampled (d : dat) (x : mfloat_t) :
  forallb (finb 5) (successors PointsInOneRange x) = true ->
  exists d', range_ d x = Some d' /\ data_i d' = data_i d /\
             sampled (fr d') = sampled (fr d) ++ successors PointsInOneRange x.
Proof.
  intros H. unfold range_, testRange.
  destruct (testRange_steps_sampled PointsInOneRange 0
              (set_limits (fun l => (x, snd l)) d) x H) as (dx & E & I & S).
  fold step_. rewrite E. cbn [bind].
  eexists. split; [reflexivity|]. split; [exact I | exact S].
Qed.

Lemma sample_loop_sampled (n k : nat) (d : dat) :
  data_i d = k ->
  forallb (fun i => forallb (finb 5) (successors PointsInOneRange (range_start i)))
          (seq k n) = true ->
  exists d', fold_left sample_ (seq k n) (Some d) = Some d' /\
             data_i d' = (k + n)%nat /\
             sampled (fr d') =
             sampled (fr d) ++
             flat_map (fun i => successors PointsInOneRange (range_start i)) (seq k n).
Proof.
  revert k d. induction n as [|n IH]; intros k d Hk H.
  - exists d. cbn. rewrite app_nil_r, Nat.add_0_r. auto.
  - cbn [seq forallb] in H. apply andb_true_iff in H. destruct H as [Hx H].
    rewrite <- Hk in Hx.
    destruct (testRange_sampled d (range_start (data_i d)) Hx) as (d1 & E1 & I1 & S1).
    cbn [seq fold_left]. unfold sample_ at 2, sample_step.
    cbn [bind]. fold range_. rewrite E1. cbn [bind].
    destruct (IH (S k) (mk_dat (fr d1) (funcData d1) (S (data_i d1)))) as (d2 & E2 & I2 & S2).
    + cbn [data_i]. congruence.
    + exact H.
    + exists d2. fold sample_. rewrite E2. split; [reflexivity|].
      split; [lia|].
      rewrite S2. cbn [fr flat_map]. rewrite S1, <- app_assoc, Hk. reflexivity.
Qed.

End Generator_facts.

Lemma values_at_new (libm_sin libm_cos : mfloat_t -> mfloat_t) (x : mfloat_t)
    (r : sincos1cos) (fn : nat) :
  finb 5 x = true -> sncs1cs x = Some r ->
  (fn < FuncLimit)%nat ->
  isnan (new (nth fn (values_at libm_sin libm_cos x r) funcVal_zero)) = false.
Proof.
  intros Hx Hr Hfn. destruct (sncs1cs_fin x r Hx Hr) as (H1 & H2 & H3).
  unfold FuncLimit in Hfn.
  destruct fn as [|[|[|fn]]]; [exact H1 | exact H2 | exact H3 | lia].
Qed.

(** C4. At every sample point and for every tracked function: when
    the old value (of the reference library, whatever it is) and the
    new value (of the kernel) are the same double,
    [checkSinCosOmcInPoint] sends no request to FriCAS and prints no
    line for that function, leaves the stored value of the point and
    function as it was (no accurate value is fetched), and, the store
    being as [calloc] left it, the aggregation passes over the point. *)
Theorem equal_values_are_skipped
    (libm_sin libm_cos : mfloat_t -> mfloat_t)
    (FricasFloatEval : list event -> nat -> mfloat_t -> mfloat_t)
    (d : dat) (pointInRange fn : nat) (x : mfloat_t) :
  sample_point x ->
  (fn < FuncLimit)%nat ->
  exists sc1c d',
    sncs1cs x = Some sc1c /\
    checkSinCosOmcInPoint libm_sin libm_cos FricasFloatEval d pointInRange x = Some d' /\
    let v := nth fn (values_at libm_sin libm_cos x sc1c) funcVal_zero in
    (old v = new v ->
     (exists evs, fr d' = fr d ++ evs /\
                  forall e, In e evs -> event_fn e <> Some fn) /\
     cell d' (data_i d) pointInRange fn = cell d (data_i d) pointInRange fn /\
     (cell d (data_i d) pointInRange fn = funcVal_zero ->
      forall st, scan_point st (cell d' (data_i d) pointInRange fn) = st)).
Proof.
  intros Hx Hfn. apply sample_point_fin in Hx.
  destruct (fin_defined x Hx) as [r Hr].
  pose proof (values_at_new libm_sin libm_cos x r fn Hx Hr Hfn) as N.
  exists r. unfold checkSinCosOmcInPoint. rewrite Hr. cbn [bind].
  eexists. split; [reflexivity|]. split; [reflexivity|].
  intros E.
  destruct (check_functions_skip FricasFloatEval pointInRange x
              (values_at libm_sin libm_cos x r) fn (seq 0 FuncLimit)
              (emit (Call_cos x) (emit (Call_sin x) d)) E N)
    as ((evs & F & Hevs) & C).
  split; [|split].
  - exists ([Call_sin x; Call_cos x] ++ evs). rewrite F. cbn [emit fr].
    rewrite <- !app_assoc. split; [reflexivity|].
    intros e He. apply in_app_or in He. destruct He as [[<- | [<- | []]] | He].
    + discriminate.
    + discriminate.
    + apply Hevs, He.
  - rewrite C. reflexivity.
  - intros Z st. rewrite C. unfold cell in *. cbn [emit funcData].
    rewrite Z. reflexivity.
Qed.

Lemma equal_values_are_skipped_witness :
  sample_point (range_start 0) /\
  exists sc1c d',
    sncs1cs (range_start 0) = Some sc1c /\
    checkSinCosOmcInPoint example_libm_sin example_libm_cos (fun _ _ x => x)
      example_dat 0 (range_start 0) = Some d' /\
    (exists evs, fr d' = fr example_dat ++ evs /\
                 forall e, In e evs -> event_fn e <> Some cosIndex) /\
    cell d' 0 0 cosIndex = cell example_dat 0 0 cosIndex /\
    forall st, scan_point st (cell d' 0 0 cosIndex) = st.
Proof.
  assert (S : sample_point (range_start 0)).
  { exists O. split; [left; reflexivity | left; reflexivity]. }
  split; [exact S|].
  destruct (equal_values_are_skipped example_libm_sin example_libm_cos
              (fun _ _ x => x) example_dat 0 cosIndex (range_start 0) S)
    as (r & d' & Hr & Hd & H).
  - unfold cosIndex, FuncLimit. lia.
  - exists r, d'. split; [exact Hr|]. split; [exact Hd|].
    assert (E : old (nth cosIndex
                       (values_at example_libm_sin example_libm_cos (range_start 0) r)
                       funcVal_zero)
                = new (nth cosIndex
                         (values_at example_libm_sin example_libm_cos (range_start 0) r)
                         funcVal_zero)).
    { cbn [cosIndex nth values_at old new]. unfold example_libm_cos.
      assert (Hc : option_map cos (sncs1cs (range_start 0)) = Some one)
        by (vm_compute; reflexivity).
      rewrite Hr in Hc. injection Hc as ->. reflexivity. }
    destruct (H E) as (He & Hc & Hs).
    split; [exact He|]. split; [exact Hc|]. apply Hs. reflexivity.
Defined.

(** C9. The run has [2 * round ((fourPi + 0.5) / step) + 1 = 837]
    ranges, with [step = 1/32]; the first starts at [-fourPi] and the
    last beyond [fourPi]. The run ends with status 0, and its sample
    points are, in order, for [i] from 0 to 836, the 32 consecutive
    doubles from [-fourPi + step * i] upward by [nextafter]. *)
Theorem sample_generator_ranges
    (libm_sin libm_cos : mfloat_t -> mfloat_t)
    (FricasFloatEval : list event -> nat -> mfloat_t -> mfloat_t) :
  step = div one (of_Z 32) /\
  (n <- round_nearest (div (add fourPi half) step) ;; Some (2 * n + 1))
    = Some (Z.of_nat ranges) /\
  size = Some (Z.of_nat ranges) /\
  ranges = 837%nat /\
  add (neg fourPi) (mul step (of_Z 0)) = neg fourPi /\
  ltb fourPi (add (neg fourPi) (mul step (of_Z (Z.of_nat (ranges - 1))))) = true /\
  exists tr reports,
    main libm_sin libm_cos FricasFloatEval true = Some (0, tr, reports) /\
    sampled tr =
      flat_map
        (fun i => successors PointsInOneRange
                    (add (neg fourPi) (mul step (of_Z (Z.of_nat i)))))
        (seq 0 ranges).
Proof.
  split; [reflexivity|]. split; [reflexivity|].
  assert (Hsize : size = Some (Z.of_nat ranges)) by reflexivity.
  split; [exact Hsize|]. split; [reflexivity|].
  split; [reflexivity|]. split; [reflexivity|].
  unfold main. rewrite Hsize. cbn [bind negb]. rewrite Nat2Z.id.
  destruct (sample_loop_sampled libm_sin libm_cos FricasFloatEval ranges 0
              (mk_dat [] (repeat Range_zero ranges) 0) eq_refl sample_points_fin)
    as (d' & E & _ & S).
  unfold sample_loop. cbn [data_i]. rewrite Nat.sub_0_r, E. cbn [bind].
  eexists _, _. split; [reflexivity|].
  rewrite S. cbn [fr sampled flat_map app]. reflexivity.
Qed.

(** ** The parity of the kernel *)

(** C7, as found false: at [x = posInf] both [sncs1cs x] and
    [sncs1cs (-x)] return NaN in the three components (lines 130 to
    133), and a NaN compares unequal to everything with [==]: none of
    the three equalities holds. *)
Lemma sncs1cs_parity_counterexample :
  exists r r',
    sncs1cs posInf = Some r /\ sncs1cs (neg posInf) = Some r' /\
    isnan (sin r) = true /\ isnan (cos r) = true /\ isnan (omc r) = true /\
    eqb (sin r') (neg (sin r)) = false /\
    eqb (cos r') (cos r) = false /\
    eqb (omc r') (omc r) = false.
Proof. eexists _, _. repeat split; reflexivity. Qed.

(** C7, amended. Whenever [sncs1cs x] returns a triple without a NaN
    in it, [sncs1cs (-x)] returns too, with the sine negated and the
    cosine and the one minus cosine the same: as values of the format,
    sign, exponent and mantissa, and so also by [==]. *)
Theorem sncs1cs_odd_even (x : mfloat_t) (r : sincos1cos) :
  sncs1cs x = Some r ->
  isnan (sin r) = false -> isnan (cos r) = false -> isnan (omc r) = false ->
  exists r',
    sncs1cs (neg x) = Some r' /\
    sin r' = neg (sin r) /\ cos r' = cos r /\ omc r' = omc r /\
    eqb (sin r') (neg (sin r)) = true /\
    eqb (cos r') (cos r) = true /\
    eqb (omc r') (omc r) = true.
Proof.
  intros E Ns Nc No.
  assert (Nx : isnan x = false).
  { destruct x; try reflexivity. injection E as <-. discriminate Ns. }
  assert (Ix : isinf x = false).
  { destruct x as [s | s | | s m e]; try reflexivity.
    destruct s; injection E as <-; discriminate Ns. }
  exists (negate_sin r). rewrite (sncs1cs_neg x Nx Ix), E.
  split; [reflexivity|]. cbn [negate_sin sin cos omc].
  split; [reflexivity|]. split; [reflexivity|]. split; [reflexivity|].
  split; [|split]; apply eqb_refl; try assumption.
  destruct (sin r); try reflexivity. discriminate Ns.
Qed.

Lemma sncs1cs_odd_even_witness :
  exists r r',
    sncs1cs (of_Z 4) = Some r /\
    isnan (sin r) = false /\ isnan (cos r) = false /\ isnan (omc r) = false /\
    sncs1cs (neg (of_Z 4)) = Some r' /\
    sin r' = neg (sin r) /\ cos r' = cos r /\ omc r' = omc r /\
    eqb (sin r') (neg (sin r)) = true /\
    eqb (cos r') (cos r) = true /\
    eqb (omc r') (omc r) = true.
Proof.
  destruct (sncs1cs (of_Z 4)) as [r|] eqn:E; [|vm_compute in E; discriminate E].
  destruct (sncs1cs_fin (of_Z 4) r eq_refl E) as (Ns & Nc & No).
  destruct (sncs1cs_odd_even (of_Z 4) r E Ns Nc No) as (r' & H).
  exists r, r'. split; [reflexivity|].
  split; [exact Ns|]. split; [exact Nc|]. split; [exact No|]. exact H.
Defined.

(** * Further properties *)

(** ** The kernel below [2^28] *)

Lemma finb_is_finite (k : Z) (x : mfloat_t) : finb k x = true -> is_finite x = true.
Proof. destruct x; cbn; congruence. Qed.

Lemma reduced_moderate_fin (s : Z) (x : mfloat_t) (r : sincos1cos) :
  finb 28 x = true -> reduced s x = Some r ->
  finb 810 (sin r) = true /\ finb 810 (cos r) = true /\ finb 810 (omc r) = true.
Proof.
  intros Hx. unfold reduced.
  destruct (to_int (mul x fourOverPi)) as [j|] eqn:Hj; [|discriminate].
  cbn [bind]. apply to_int_in_int in Hj. pose proof (finb_of_int j Hj) as Fj.
  assert (Fy : forall jy,
             (if Z.land j 1 =? 0 then Some (j, of_Z j)
              else j' <- int_add j 1;; Some (j', add (of_Z j) one)) = Some jy ->
             finb 40 (snd jy) = true).
  { intros jy. destruct (Z.land j 1 =? 0).
    - intros E; injection E as <-. cbn [snd]. finb_bound.
    - destruct (int_add j 1) as [j'|]; [|discriminate]. cbn [bind].
      intros E; injection E as <-. cbn [snd]. finb_bound. }
  destruct (if Z.land j 1 =? 0 then Some (j, of_Z j)
            else j' <- int_add j 1;; Some (j', add (of_Z j) one)) as [[j1 y]|];
    [|discriminate].
  specialize (Fy _ eq_refl). cbn [snd] in Fy. cbn [bind fst snd].
  destruct (octant j1 s 1) as [[j' s'] c'].
  intros E; injection E as <-.
  assert (Fz : finb 50 (sub (sub (sub x (mul y DP1)) (mul y DP2)) (mul y DP3)) = true)
    by finb_bound.
  set (z := sub (sub (sub x (mul y DP1)) (mul y DP2)) (mul y DP3)) in *.
  assert (Fzz : finb 110 (mul z z) = true) by finb_bound.
  apply assemble_fin; [apply sin_poly_fin | apply omc_poly_fin]; assumption.
Qed.

(** X1. For every double below [2^28] in magnitude (zeros included)
    [sncs1cs] returns a triple, and its sine, cosine and one minus
    cosine are finite: no NaN and no infinity comes out of the
    reduction or of the polynomials. *)
Theorem sncs1cs_moderate_finite (x : mfloat_t) :
  finb 28 x = true ->
  exists r, sncs1cs x = Some r /\
            is_finite (sin r) = true /\ is_finite (cos r) = true /\
            is_finite (omc r) = true.
Proof.
  intros Hx. destruct (sncs1cs_moderate x Hx) as [r Hr]. exists r.
  split; [exact Hr|].
  destruct x as [s | s | | s m e]; try discriminate Hx.
  - destruct s; injection Hr as <-; repeat split; reflexivity.
  - rewrite sncs1cs_finite in Hr.
    destruct (reduced_moderate_fin _ (S754_finite false m e) r Hx Hr) as (H1 & H2 & H3).
    repeat split; eapply finb_is_finite; eassumption.
Qed.

Lemma sncs1cs_moderate_finite_witness :
  finb 28 (of_Z 100000) = true /\
  exists r, sncs1cs (of_Z 100000) = Some r /\
            is_finite (sin r) = true /\ is_finite (cos r) = true /\
            is_finite (omc r) = true.
Proof.
  split; [reflexivity|]. apply (sncs1cs_moderate_finite (of_Z 100000)). reflexivity.
Defined.

(** X2. When [(mint_t)(|x| * fourOverPi)] is 0, that is below one
    quarter of pi, the argument is not reduced: with [zz = |x| * |x|],
    the sine is the sine polynomial at [|x|] with the sign of [x], the
    one minus cosine is the polynomial [omc_poly zz] as it is, and the
    cosine is the double [1 - omc]. *)
Theorem sncs1cs_first_octant (s : bool) (m : positive) (e : Z) :
  to_int (mul (S754_finite false m e) fourOverPi) = Some 0 ->
  let x := S754_finite false m e in
  let zz := mul x x in
  sncs1cs (S754_finite s m e) =
  Some (mk_sincos1cos (if s then neg (sin_poly x zz) else sin_poly x zz)
                      (sub one (omc_poly zz)) (omc_poly zz)).
Proof.
  intros H. cbv zeta. rewrite sncs1cs_finite. unfold reduced. rewrite H.
  cbn [bind]. change (Z.land 0 1 =? 0) with true. cbn [bind fst snd].
  change (of_Z 0) with (S754_zero false).
  change (mul (S754_zero false) DP1) with (S754_zero false).
  change (mul (S754_zero false) DP2) with (S754_zero false).
  change (mul (S754_zero false) DP3) with (S754_zero false).
  change (sub (S754_finite false m e) (S754_zero false)) with (S754_finite false m e).
  destruct s; reflexivity.
Qed.

Lemma sncs1cs_first_octant_witness :
  to_int (mul (dec 1 (-1)) fourOverPi) = Some 0 /\
  sncs1cs (dec 1 (-1)) =
  Some (mk_sincos1cos (sin_poly (dec 1 (-1)) (mul (dec 1 (-1)) (dec 1 (-1))))
                      (sub one (omc_poly (mul (dec 1 (-1)) (dec 1 (-1)))))
                      (omc_poly (mul (dec 1 (-1)) (dec 1 (-1))))).
Proof.
  split; [vm_compute; reflexivity|].
  exact (sncs1cs_first_octant false 7205759403792794 (-56) ltac:(vm_compute; reflexivity)).
Defined.

(** ** The bit patterns and the distance *)

Lemma digits_le_lt (m : positive) (k : Z) :
  0 <= k -> (Zpos (digits2_pos m) <= k <-> Zpos m < 2 ^ k).
Proof.
  intros Hk. pose proof (Zdigits2_log2 (Zpos m) eq_refl) as D. cbn [Zdigits2] in D.
  rewrite (Z.log2_lt_pow2 (Zpos m) k) by lia. lia.
Qed.

Lemma valid_finite (s : bool) (m : positive) (e : Z) :
  is_double (S754_finite s m e) = true ->
  Zpos m < 2 ^ 53 /\ -1074 <= e <= 971 /\ (2 ^ 52 <= Zpos m \/ e = -1074).
Proof.
  unfold is_double, valid_binary, bounded, canonical_mantissa, fexp, emin, prec, emax.
  intros H. apply andb_true_iff in H. destruct H as [H1 H2].
  apply Z.eqb_eq in H1. apply Z.leb_le in H2.
  pose proof (digits_le_lt m 53 ltac:(lia)) as D53.
  pose proof (digits_le_lt m 52 ltac:(lia)) as D52.
  lia.
Qed.

Lemma mag_value_range (x : mfloat_t) :
  is_double x = true -> 0 <= mag_value x < 2 ^ 63.
Proof.
  destruct x as [s | s | | s m e]; cbn [mag_value]; intros H; try lia.
  destruct (valid_finite s m e H) as (Hm & He & _).
  destruct (Z.ltb_spec (Zpos m) (2 ^ 52)); lia.
Qed.

Lemma land_top_small (u : Z) : 0 <= u < 2 ^ 63 -> Z.land u (Z.shiftl 1 63) = 0.
Proof.
  intros H. apply Z.eqb_eq. rewrite top_bit_clear by lia. apply Z.ltb_lt. lia.
Qed.

Lemma lor_sign_bit (s : bool) (u : Z) :
  0 <= u < 2 ^ 63 -> Z.lor (sign_bit s) u = sign_bit s + u.
Proof.
  intros H. destruct s; cbn [sign_bit]; [|reflexivity].
  rewrite <- Z.lxor_lor, <- Z.add_nocarry_lxor; try reflexivity;
    rewrite Z.land_comm; apply land_top_small, H.
Qed.

Lemma bits_sign_mag (x : mfloat_t) :
  is_double x = true -> isnan x = false ->
  bits x = sign_bit (sign_of x) + mag_value x.
Proof.
  intros V N. pose proof (mag_value_range x V) as R.
  destruct x as [s | s | | s m e]; try discriminate N;
    cbn [bits sign_of mag_value] in *.
  - lia.
  - rewrite <- lor_sign_bit by exact R. f_equal.
  - destruct (Zpos m <? 2 ^ 52).
    + apply lor_sign_bit, R.
    + rewrite <- lor_sign_bit by exact R. f_equal.
      rewrite Z.shiftl_mul_pow2 by lia. reflexivity.
Qed.

Lemma land_top_sign (s : bool) (u : Z) :
  0 <= u < 2 ^ 63 -> Z.land (sign_bit s + u) (Z.shiftl 1 63) = sign_bit s.
Proof.
  intros H. rewrite <- lor_sign_bit by exact H.
  rewrite Z.land_lor_distr_l, (land_top_small u H), Z.lor_0_r.
  destruct s; reflexivity.
Qed.

Lemma sign_bit_eqb (s t : bool) : (sign_bit s =? sign_bit t) = Bool.eqb s t.
Proof. destruct s, t; reflexivity. Qed.

Lemma to_int64_small (u : Z) : 0 <= u < 2 ^ 63 -> to_int64 u = u.
Proof. intros H. unfold to_int64. destruct (Z.ltb_spec u (2 ^ 63)); lia. Qed.

Lemma u64_small (u : Z) : 0 <= u < 2 ^ 64 -> u64 u = u.
Proof. intros H. apply Z.mod_small, H. Qed.

Lemma neb_refl (x : mfloat_t) : isnan x = false -> neb x x = false.
Proof.
  intros H. unfold neb. pose proof (eqb_refl x H) as E. unfold eqb in E.
  rewrite E. reflexivity.
Qed.

(** What [ud] computes, from the bit patterns. *)
Lemma ud_value (x y : mfloat_t) :
  is_double x = true -> is_double y = true ->
  isnan x = false -> isnan y = false ->
  ud x y = if Bool.eqb (sign_of x) (sign_of y)
           then Z.abs (bits x - bits y)
           else to_int64 (bits x + bits y - 2 ^ 63).
Proof.
  intros Vx Vy Nx Ny.
  pose proof (mag_value_range x Vx) as Rx. pose proof (mag_value_range y Vy) as Ry.
  unfold ud. rewrite (neb_refl x Nx), (neb_refl y Ny). cbn [orb].
  rewrite (bits_sign_mag x Vx Nx), (bits_sign_mag y Vy Ny).
  rewrite !land_top_sign by assumption. rewrite sign_bit_eqb.
  set (mx := mag_value x) in *. set (my := mag_value y) in *.
  destruct (sign_of x), (sign_of y); cbn [Bool.eqb sign_bit].
  - replace (Z.shiftl 1 63 + mx - (Z.shiftl 1 63 + my)) with (mx - my) by lia.
    rewrite top_bit_clear by apply u64_range. rewrite u64_opp_sub.
    unfold u64.
    destruct (Z.le_gt_cases my mx).
    + rewrite (Z.mod_small (mx - my)) by lia.
      destruct (Z.ltb_spec (mx - my) (2 ^ 63)); [|lia]. cbn [negb].
      rewrite to_int64_small by lia. lia.
    + replace ((mx - my) mod 2 ^ 64) with (mx - my + 2 ^ 64).
      2:{ apply Z.mod_unique with (q := -1); lia. }
      destruct (Z.ltb_spec (mx - my + 2 ^ 64) (2 ^ 63)); [lia|]. cbn [negb].
      rewrite (Z.mod_small (my - mx)) by lia. rewrite to_int64_small by lia. lia.
  - f_equal. change (Z.shiftl 1 63) with (2 ^ 63). unfold u64.
    rewrite Zplus_mod_idemp_l. rewrite Z.mod_small; lia.
  - f_equal. change (Z.shiftl 1 63) with (2 ^ 63). unfold u64.
    rewrite Zplus_mod_idemp_l. rewrite Z.mod_small; lia.
  - replace (0 + mx - (0 + my)) with (mx - my) by lia.
    rewrite top_bit_clear by apply u64_range. rewrite u64_opp_sub.
    unfold u64.
    destruct (Z.le_gt_cases my mx).
    + rewrite (Z.mod_small (mx - my)) by lia.
      destruct (Z.ltb_spec (mx - my) (2 ^ 63)); [|lia]. cbn [negb].
      rewrite to_int64_small by lia. lia.
    + replace ((mx - my) mod 2 ^ 64) with (mx - my + 2 ^ 64).
      2:{ apply Z.mod_unique with (q := -1); lia. }
      destruct (Z.ltb_spec (mx - my + 2 ^ 64) (2 ^ 63)); [lia|]. cbn [negb].
      rewrite (Z.mod_small (my - mx)) by lia. rewrite to_int64_small by lia. lia.
Qed.

Lemma mag_value_inj (x y : mfloat_t) :
  is_double x = true -> is_double y = true ->
  isnan x = false -> isnan y = false ->
  sign_of x = sign_of y -> mag_value x = mag_value y -> x = y.
Proof.
  intros Vx Vy Nx Ny.
  destruct x as [s | s | | s m e]; try discriminate Nx;
    destruct y as [t | t | | t n f]; try discriminate Ny;
    cbn [sign_of mag_value]; intros -> M; try reflexivity; try lia;
    try (destruct (valid_finite _ _ _ Vx) as (B1 & B2 & B3));
    try (destruct (valid_finite _ _ _ Vy) as (C1 & C2 & C3)).
  - destruct (Z.ltb_spec (Zpos n) (2 ^ 52)); lia.
  - destruct (Z.ltb_spec (Zpos n) (2 ^ 52)); lia.
  - destruct (Z.ltb_spec (Zpos m) (2 ^ 52)); lia.
  - destruct (Z.ltb_spec (Zpos m) (2 ^ 52)); lia.
  - destruct (Z.ltb_spec (Zpos m) (2 ^ 52)), (Z.ltb_spec (Zpos n) (2 ^ 52));
      try lia.
    + assert (e = f) by lia. assert (m = n) by lia. congruence.
    + assert (e = f) by lia. assert (m = n) by lia. congruence.
Qed.

Lemma mag_value_zero (x : mfloat_t) :
  is_double x = true -> isnan x = false -> mag_value x = 0 ->
  exists s, x = S754_zero s.
Proof.
  intros V N. destruct x as [s | s | | s m e]; try discriminate N; cbn [mag_value].
  - intros _. exists s. reflexivity.
  - lia.
  - destruct (valid_finite _ _ _ V) as (B1 & B2 & B3).
    destruct (Z.ltb_spec (Zpos m) (2 ^ 52)); lia.
Qed.

Lemma to_int64_zero (u : Z) : 0 <= u < 2 ^ 64 -> to_int64 u = 0 -> u = 0.
Proof. unfold to_int64. destruct (Z.ltb_spec u (2 ^ 63)); lia. Qed.

(** [x == y] in C, case by case. *)
Lemma eqb_true (x y : mfloat_t) :
  eqb x y = true ->
  x = y \/ (exists s t, x = S754_zero s /\ y = S754_zero t).
Proof.
  unfold eqb, SFeqb.
  destruct x as [s | s | | s m e], y as [t | t | | t n f]; cbn [SFcompare];
    try discriminate; try (destruct s; discriminate); try (destruct t; discriminate).
  - intros _. right. eauto.
  - destruct s, t; try discriminate; auto.
  - destruct s, t; try discriminate;
      destruct (Z.compare_spec e f) as [-> | |]; try discriminate;
      change (Pos.compare_cont Eq m n) with (Pos.compare m n);
      destruct (Pos.compare_spec m n) as [-> | |]; try discriminate; auto.
Qed.

(** X3. For doubles of the binary64 format, [interesting(ud(x, y))]
    and [x != y] agree, NaN included: the filter of
    [checkSinCosOmcInPoint] and [isNull] of [main] select the same
    values. *)
Theorem interesting_iff_not_equal (x y : mfloat_t) :
  is_double x = true -> is_double y = true ->
  interesting (ud x y) = negb (eqb x y).
Proof.
  intros Vx Vy. unfold interesting. f_equal.
  destruct (isnan x) eqn:Nx.
  { destruct x; try discriminate Nx. reflexivity. }
  destruct (isnan y) eqn:Ny.
  { destruct y; try discriminate Ny. unfold ud. rewrite orb_true_r.
    destruct x; reflexivity. }
  destruct (eqb x y) eqn:E.
  - apply Z.eqb_eq. apply eqb_true in E. destruct E as [<- | (s & t & -> & ->)].
    + apply ud_refl, Nx.
    + destruct s, t; reflexivity.
  - apply Z.eqb_neq. intros U.
    rewrite (ud_value x y Vx Vy Nx Ny) in U.
    pose proof (mag_value_range x Vx) as Rx. pose proof (mag_value_range y Vy) as Ry.
    rewrite (bits_sign_mag x Vx Nx), (bits_sign_mag y Vy Ny) in U.
    destruct (Bool.eqb (sign_of x) (sign_of y)) eqn:S.
    + apply Bool.eqb_prop in S. rewrite S in U.
      assert (x = y) by (apply mag_value_inj; try assumption; lia).
      subst y. rewrite (eqb_refl x Nx) in E. discriminate.
    + assert (M : mag_value x + mag_value y = 0).
      { apply to_int64_zero; [lia|]. rewrite <- U. f_equal.
        destruct (sign_of x), (sign_of y); try discriminate S; cbn [sign_bit];
          change (Z.shiftl 1 63) with (2 ^ 63); lia. }
      destruct (mag_value_zero x Vx Nx) as [s ->]; [lia|].
      destruct (mag_value_zero y Vy Ny) as [t ->]; [lia|].
      discriminate E.
Qed.

(** X4. On doubles of one sign, none a NaN, [ud] is not negative and
    satisfies the triangle inequality. *)
Theorem ud_triangle (x y z : mfloat_t) :
  is_double x = true -> is_double y = true -> is_double z = true ->
  isnan x = false -> isnan y = false -> isnan z = false ->
  sign_of x = sign_of y -> sign_of y = sign_of z ->
  0 <= ud x z <= ud x y + ud y z.
Proof.
  intros Vx Vy Vz Nx Ny Nz Sxy Syz.
  rewrite (ud_value x z), (ud_value x y), (ud_value y z) by assumption.
  rewrite Sxy, Syz, !Bool.eqb_reflx. lia.
Qed.

(** For doubles that are not negative, the order of the values is the
    order of the bit patterns. *)
Lemma ltb_bits (x y : mfloat_t) :
  is_double x = true -> is_double y = true ->
  sign_of x = false -> sign_of y = false ->
  ltb x y = true -> mag_value x < mag_value y.
Proof.
  intros Vx Vy. unfold ltb, SFltb.
  destruct x as [s | s | | s m e], y as [t | t | | t n f];
    cbn [sign_of SFcompare mag_value]; intros Sx Sy; subst; try discriminate; try lia;
    try (destruct (valid_finite _ _ _ Vx) as (B1 & B2 & B3));
    try (destruct (valid_finite _ _ _ Vy) as (C1 & C2 & C3)).
  - intros _. destruct (Z.ltb_spec (Zpos n) (2 ^ 52)); lia.
  - intros _. destruct (Z.ltb_spec (Zpos m) (2 ^ 52)); lia.
  - change (Pos.compare_cont Eq m n) with (Pos.compare m n).
    destruct (Z.compare_spec e f) as [-> | |]; try discriminate;
      [destruct (Pos.compare_spec m n) as [-> | |]; try discriminate |]; intros _;
      destruct (Z.ltb_spec (Zpos m) (2 ^ 52)), (Z.ltb_spec (Zpos n) (2 ^ 52)); lia.
Qed.

(** X5. For doubles [x < y < z] with clear sign bits, the distances
    from [x] to [y] and from [y] to [z] are positive and add up to the
    distance from [x] to [z]: [ud] counts the doubles in between. *)
Theorem ud_additive (x y z : mfloat_t) :
  is_double x = true -> is_double y = true -> is_double z = true ->
  sign_of x = false -> sign_of y = false -> sign_of z = false ->
  ltb x y = true -> ltb y z = true ->
  0 < ud x y /\ 0 < ud y z /\ ud x z = ud x y + ud y z.
Proof.
  intros Vx Vy Vz Sx Sy Sz Lxy Lyz.
  assert (Nx : isnan x = false) by (destruct x; try reflexivity; discriminate Lxy).
  assert (Ny : isnan y = false) by (destruct y; try reflexivity; discriminate Lyz).
  assert (Nz : isnan z = false).
  { destruct z; try reflexivity. unfold ltb, SFltb in Lyz. destruct y; discriminate Lyz. }
  pose proof (ltb_bits x y Vx Vy Sx Sy Lxy). pose proof (ltb_bits y z Vy Vz Sy Sz Lyz).
  rewrite (ud_value x z), (ud_value x y), (ud_value y z) by assumption.
  rewrite !bits_sign_mag by assumption.
  rewrite Sx, Sy, Sz. cbn [Bool.eqb sign_bit]. lia.
Qed.

Lemma mag_value_bound (x : mfloat_t) :
  is_double x = true -> isnan x = false -> 0 <= mag_value x <= 2047 * 2 ^ 52.
Proof.
  destruct x as [s | s | | s m e]; cbn [mag_value]; intros H N; try lia;
    try discriminate N.
  destruct (valid_finite s m e H) as (Hm & He & _).
  destruct (Z.ltb_spec (Zpos m) (2 ^ 52)); nia.
Qed.

(** X6. [ud] returns a negative number exactly when the sign bits of
    its arguments differ and their bit patterns sum to [2^64] or more
    (the magnitudes to [2^63] or more), as for -2.0 and 2.0: the sum
    [a - (1UL << 63) + b] then exceeds the greatest [int64]. *)
Theorem ud_negative_iff (x y : mfloat_t) :
  is_double x = true -> is_double y = true ->
  isnan x = false -> isnan y = false ->
  (ud x y < 0 <-> sign_of x <> sign_of y /\ 2 ^ 64 <= bits x + bits y).
Proof.
  intros Vx Vy Nx Ny. rewrite (ud_value x y Vx Vy Nx Ny).
  pose proof (mag_value_range x Vx) as Rx. pose proof (mag_value_range y Vy) as Ry.
  rewrite (bits_sign_mag x Vx Nx), (bits_sign_mag y Vy Ny).
  destruct (sign_of x), (sign_of y); cbn [Bool.eqb sign_bit];
    change (Z.shiftl 1 63) with (2 ^ 63).
  - split; [lia | intros [H _]; contradiction].
  - unfold to_int64.
    destruct (Z.ltb_spec (2 ^ 63 + mag_value x + (0 + mag_value y) - 2 ^ 63) (2 ^ 63));
      split; try lia; intros H; (split; [discriminate | lia]) || (destruct H; lia).
  - unfold to_int64.
    destruct (Z.ltb_spec (0 + mag_value x + (2 ^ 63 + mag_value y) - 2 ^ 63) (2 ^ 63));
      split; try lia; intros H; (split; [discriminate | lia]) || (destruct H; lia).
  - split; [lia | intros [H _]; contradiction].
Qed.

(** ** The text of [about] *)

Lemma bits_range (x : mfloat_t) :
  is_double x = true -> isnan x = false -> 0 <= bits x < 2 ^ 64.
Proof.
  intros V N. rewrite (bits_sign_mag x V N).
  pose proof (mag_value_range x V).
  destruct (sign_of x); cbn [sign_bit]; change (Z.shiftl 1 63) with (2 ^ 63); lia.
Qed.

Lemma same_high_bits (a b : Z) :
  0 <= a < 2 ^ 64 -> 0 <= b < 2 ^ 64 ->
  Z.land (Z.lxor a b) (Z.shiftl 4095 52) = 0 ->
  Z.abs (a - b) < 2 ^ 52.
Proof.
  intros Ha Hb H.
  assert (E : Z.shiftr a 52 = Z.shiftr b 52).
  { apply Z.lxor_eq. rewrite <- Z.shiftr_lxor.
    assert (S : Z.land (Z.shiftr (Z.lxor a b) 52) 4095 = 0).
    { change 4095 with (Z.shiftr (Z.shiftl 4095 52) 52).
      rewrite <- Z.shiftr_land, H. reflexivity. }
    change 4095 with (Z.ones 12) in S. rewrite Z.land_ones in S by lia.
    rewrite Z.mod_small in S; [exact S|].
    rewrite Z.shiftr_lxor, !Z.shiftr_div_pow2 by lia.
    assert (A : 0 <= a / 2 ^ 52 < 2 ^ 12).
    { split; [apply Z.div_pos; lia | apply Z.div_lt_upper_bound; lia]. }
    assert (B : 0 <= b / 2 ^ 52 < 2 ^ 12).
    { split; [apply Z.div_pos; lia | apply Z.div_lt_upper_bound; lia]. }
    split; [apply Z.lxor_nonneg; lia|].
    destruct (Z.eq_dec (Z.lxor (a / 2 ^ 52) (b / 2 ^ 52)) 0) as [-> | Hz]; [lia|].
    apply Z.log2_lt_pow2.
    - assert (0 <= Z.lxor (a / 2 ^ 52) (b / 2 ^ 52)) by (apply Z.lxor_nonneg; lia). lia.
    - pose proof (Z.log2_lxor (a / 2 ^ 52) (b / 2 ^ 52) ltac:(lia) ltac:(lia)) as L.
      assert (La : Z.log2 (a / 2 ^ 52) < 12).
      { destruct (Z.eq_dec (a / 2 ^ 52) 0) as [-> | ?]; [cbn; lia|].
        apply Z.log2_lt_pow2; lia. }
      assert (Lb : Z.log2 (b / 2 ^ 52) < 12).
      { destruct (Z.eq_dec (b / 2 ^ 52) 0) as [-> | ?]; [cbn; lia|].
        apply Z.log2_lt_pow2; lia. }
      lia. }
  rewrite !Z.shiftr_div_pow2 in E by lia.
  pose proof (Z.div_mod a (2 ^ 52) ltac:(lia)).
  pose proof (Z.div_mod b (2 ^ 52) ltac:(lia)).
  pose proof (Z.mod_pos_bound a (2 ^ 52) ltac:(lia)).
  pose proof (Z.mod_pos_bound b (2 ^ 52) ltac:(lia)).
  lia.
Qed.

Lemma msb_loop_size (p : positive) (n : Z) :
  msb_loop p n = n + Z.log2 (Zpos p).
Proof.
  revert n.
  induction p as [p IH | p IH |]; intros n; cbn [msb_loop]; [| |cbn; lia];
    rewrite IH; pose proof (Zdigits2_log2 (Zpos p) eq_refl) as D;
    cbn [Zdigits2] in D; rewrite digits2_pos_size in D;
    [change (Z.log2 (Zpos p~1)) with (Zpos (Pos.size p))
    |change (Z.log2 (Zpos p~0)) with (Zpos (Pos.size p))]; lia.
Qed.

(** The absolute difference of [about], for bit patterns less than
    [2^63] apart. *)
Lemma about_difference (a b : Z) :
  Z.abs (a - b) < 2 ^ 63 ->
  (let d := to_int64 (u64 (a - b)) in if d <? 0 then int64_neg d else d)
  = Z.abs (a - b).
Proof.
  intros H. cbv zeta. unfold int64_neg, to_int64, u64.
  destruct (Z.le_gt_cases b a).
  - rewrite (Z.mod_small (a - b)) by lia.
    destruct (Z.ltb_spec (a - b) (2 ^ 63)); [|lia].
    destruct (Z.ltb_spec (a - b) 0); lia.
  - replace ((a - b) mod 2 ^ 64) with (a - b + 2 ^ 64)
      by (apply Z.mod_unique with (q := -1); lia).
    destruct (Z.ltb_spec (a - b + 2 ^ 64) (2 ^ 63)); [lia|].
    destruct (Z.ltb_spec (a - b + 2 ^ 64 - 2 ^ 64) 0); [|lia].
    replace (- (a - b + 2 ^ 64 - 2 ^ 64)) with (b - a) by lia.
    rewrite (Z.mod_small (b - a)) by lia.
    destruct (Z.ltb_spec (b - a) (2 ^ 63)); lia.
Qed.

(** The two texts of [about], by the bit patterns. *)
Lemma about_bit_length (o n : mfloat_t) :
  is_double o = true -> is_double n = true ->
  isnan o = false -> isnan n = false ->
  about o n = ExponentsOrSignsDiffer \/
  exists k, about o n = MantissasDifferIn k /\ 1 <= k <= 52 /\
            Z.abs (bits o - bits n) < 2 ^ 52 /\
            k = Z.log2 (Z.abs (bits o - bits n)) + 1.
Proof.
  intros Vo Vn No Nn.
  pose proof (bits_range o Vo No) as Ro. pose proof (bits_range n Vn Nn) as Rn.
  unfold about.
  destruct (Z.land (Z.lxor (bits o) (bits n)) (Z.shiftl 4095 52) =? 0) eqn:E;
    cbn [negb]; [|left; reflexivity].
  right. apply Z.eqb_eq in E.
  pose proof (same_high_bits _ _ Ro Rn E) as D.
  rewrite about_difference by lia.
  eexists. split; [reflexivity|].
  destruct (Z.abs (bits o - bits n)) as [|p|p] eqn:A; [cbn; lia | | lia].
  rewrite msb_loop_size.
  assert (Z.log2 (Zpos p) < 52) by (apply Z.log2_lt_pow2; lia).
  pose proof (Z.log2_nonneg (Zpos p)). lia.
Qed.

(** X8. For doubles that are not NaN, when [about] writes that the mantissas
    differ in [n] bits, [n] is between 1 and 52, the ULP distance of the
    two doubles is below [2^52], and [n] is one more than the binary
    logarithm of that distance rounded down (1 when the distance is 0
    or 1). *)
Theorem about_count (o n : mfloat_t) :
  is_double o = true -> is_double n = true ->
  isnan o = false -> isnan n = false ->
  about o n = ExponentsOrSignsDiffer \/
  exists k, about o n = MantissasDifferIn k /\ 1 <= k <= 52 /\
            0 <= ud o n < 2 ^ 52 /\ k = Z.log2 (ud o n) + 1.
Proof.
  intros Vo Vn No Nn.
  destruct (about_bit_length o n Vo Vn No Nn) as [E | (k & E & Hk & D & L)];
    [left; exact E | right].
  assert (U : ud o n = Z.abs (bits o - bits n)).
  { rewrite (ud_value o n Vo Vn No Nn).
    destruct (Bool.eqb (sign_of o) (sign_of n)) eqn:S; [reflexivity|]. exfalso.
    pose proof (mag_value_bound o Vo No). pose proof (mag_value_bound n Vn Nn).
    rewrite (bits_sign_mag o Vo No), (bits_sign_mag n Vn Nn) in D.
    destruct (sign_of o), (sign_of n); try discriminate S; cbn [sign_bit] in D;
      change (Z.shiftl 1 63) with (2 ^ 63) in D; lia. }
  exists k. rewrite U. split; [exact E|]. split; [exact Hk|]. split; [lia | exact L].
Qed.

Lemma fmt_2d_length :
  forallb (fun k => (String.length (about_string (MantissasDifferIn (Z.of_nat k))) =? 27)%nat)
          (seq 1 52) = true.
Proof. vm_compute. reflexivity. Qed.

(** X9. For doubles that are not NaN, [about] writes 27 characters,
    which with the terminating NUL fit the [char buf[30]] of
    [checkSinCosOmcInPoint]. *)
Theorem about_fits_buffer (o n : mfloat_t) :
  is_double o = true -> is_double n = true ->
  isnan o = false -> isnan n = false ->
  String.length (about_string (about o n)) = 27%nat.
Proof.
  intros Vo Vn No Nn.
  destruct (about_bit_length o n Vo Vn No Nn) as [-> | (k & -> & Hk & _)]; [reflexivity|].
  pose proof fmt_2d_length as F. rewrite forallb_forall in F.
  specialize (F (Z.to_nat k)). rewrite Z2Nat.id in F by lia.
  apply Nat.eqb_eq, F. apply in_seq. lia.
Qed.

Lemma abs_to_int64 (u : Z) :
  0 <= u < 2 ^ 64 ->
  (let d := to_int64 u in if d <? 0 then int64_neg d else d) =
  if u <? 2 ^ 63 then u else if u =? 2 ^ 63 then - 2 ^ 63 else 2 ^ 64 - u.
Proof.
  intros Hu. cbv zeta. unfold to_int64 at 1 3.
  destruct (Z.ltb_spec u (2 ^ 63)) as [L | L].
  - destruct (Z.ltb_spec u 0); [lia|]. unfold to_int64.
    destruct (Z.ltb_spec u (2 ^ 63)); lia.
  - destruct (Z.ltb_spec (u - 2 ^ 64) 0); [|lia].
    unfold int64_neg, to_int64 at 2.
    destruct (Z.ltb_spec u (2 ^ 63)); [lia|].
    replace (- (u - 2 ^ 64)) with (2 ^ 64 - u) by lia.
    unfold u64. rewrite Z.mod_small by lia. unfold to_int64.
    destruct (Z.ltb_spec (2 ^ 64 - u) (2 ^ 63)), (Z.eqb_spec u (2 ^ 63)); lia.
Qed.

Lemma about_abs_sym (a b : Z) :
  (let d := to_int64 (u64 (a - b)) in if d <? 0 then int64_neg d else d) =
  (let d := to_int64 (u64 (b - a)) in if d <? 0 then int64_neg d else d).
Proof.
  pose proof (u64_range (a - b)) as Ra. pose proof (u64_range (b - a)) as Rb.
  rewrite !abs_to_int64 by assumption.
  assert (S : u64 (a - b) = 0 /\ u64 (b - a) = 0 \/
              u64 (a - b) + u64 (b - a) = 2 ^ 64).
  { rewrite <- (u64_opp_sub a b). unfold u64 in *.
    destruct (Z.eq_dec ((a - b) mod 2 ^ 64) 0) as [E | E].
    - left. rewrite E. split; reflexivity.
    - right. rewrite Z.mod_opp_l_nz by (rewrite ?Z.mod_mod; lia).
      rewrite Z.mod_mod by lia. lia. }
  generalize dependent (u64 (a - b)). generalize dependent (u64 (b - a)).
  intros v Rv u Ru S.
  destruct (Z.ltb_spec u (2 ^ 63)), (Z.ltb_spec v (2 ^ 63)),
    (Z.eqb_spec u (2 ^ 63)), (Z.eqb_spec v (2 ^ 63)); lia.
Qed.

(** X7. The text of [about] does not depend on the order of its two
    doubles. *)
Theorem about_symmetric (o n : mfloat_t) : about o n = about n o.
Proof.
  unfold about. rewrite (Z.lxor_comm (bits o)).
  destruct (negb _); [reflexivity|]. f_equal.
  pose proof (about_abs_sym (bits o) (bits n)) as S. cbv zeta in S. rewrite S.
  reflexivity.
Qed.

(** ** The verdict and the score *)

(** The sign that a rounding is given is the sign of its result. *)
Lemma binary_round_aux_sign (s : bool) (m e : Z) (l : location) :
  match binary_round_aux prec emax s m e l with
  | S754_nan => True
  | r => sign_of r = s
  end.
Proof.
  unfold binary_round_aux.
  destruct (shr_fexp prec emax m e l) as [r1 e1].
  destruct (shr_fexp prec emax _ e1 loc_Exact) as [r2 e2].
  destruct (shr_m r2); [reflexivity | | exact I].
  destruct (e2 <=? emax - prec); reflexivity.
Qed.

Lemma of_Z_sign (z : Z) :
  z <> 0 -> isnan (of_Z z) = false -> sign_of (of_Z z) = (z <? 0).
Proof.
  unfold of_Z, binary_normalize. destruct z as [|p|p]; [lia | |]; intros _;
    unfold binary_round;
    destruct (shl_align _ _ _) as [mz ez];
    match goal with
    | |- context [binary_round_aux prec emax ?s ?m ?e ?l] =>
        pose proof (binary_round_aux_sign s m e l) as S;
        destruct (binary_round_aux prec emax s m e l)
    end; cbn [isnan]; intros N; try discriminate N; exact S.
Qed.

(** A quotient above [L] has operands of one sign, the dividend not a
    zero. *)
Lemma ltb_L_div (x y : mfloat_t) :
  ltb L (div x y) = true ->
  isnan x = false /\ isnan y = false /\ (forall s, x <> S754_zero s) /\
  sign_of x = sign_of y.
Proof.
  unfold div, SFdiv.
  destruct x as [s | s | | s m e], y as [t | t | | t n f]; try discriminate;
    try (destruct s, t; discriminate);
    try (destruct s, t; try discriminate; intros _;
         repeat split; discriminate).
  destruct (SFdiv_core_binary _ _ _ _ _ _) as [[mz ez] lz].
  pose proof (binary_round_aux_sign (xorb s t) mz ez lz) as S.
  destruct (binary_round_aux prec emax (xorb s t) mz ez lz) as [u | u | | u k g];
    try discriminate; cbn [sign_of] in S; subst u;
    destruct s, t; try discriminate; intros _; repeat split; discriminate.
Qed.

Lemma ltb_L_quotient (i c : Z) :
  ltb L (div (of_Z i) (of_Z c)) = true -> 0 <= c -> 0 < i.
Proof.
  intros H Hc. apply ltb_L_div in H. destruct H as (Ni & Nc & Zi & S).
  destruct (Z.eq_dec i 0) as [-> | Hi]; [exfalso; apply (Zi false); reflexivity|].
  rewrite (of_Z_sign i Hi Ni) in S.
  destruct (Z.eq_dec c 0) as [-> | Hc0].
  - change (sign_of (of_Z 0)) with false in S. apply Z.ltb_ge in S. lia.
  - rewrite (of_Z_sign c Hc0 Nc) in S.
    destruct (Z.ltb_spec c 0); [lia|]. apply Z.ltb_ge in S. lia.
Qed.

Lemma to_int64_range (u : Z) : 0 <= u < 2 ^ 64 -> - 2 ^ 63 <= to_int64 u < 2 ^ 63.
Proof. intros H. unfold to_int64. destruct (Z.ltb_spec u (2 ^ 63)); lia. Qed.

Lemma ud_range (x y : mfloat_t) : - 2 ^ 63 <= ud x y < 2 ^ 63.
Proof.
  unfold ud. destruct (neb x x || neb y y); [vm_compute; split; [discriminate | reflexivity]|].
  cbv zeta.
  destruct (_ =? _); [destruct (negb _)|]; apply to_int64_range, u64_range.
Qed.

Lemma int64_sub_small (a b : Z) : - 2 ^ 63 <= a - b < 2 ^ 63 -> int64_sub a b = a - b.
Proof.
  intros H. unfold int64_sub, to_int64, u64.
  destruct (Z.le_gt_cases 0 (a - b)).
  - rewrite Z.mod_small by lia. destruct (Z.ltb_spec (a - b) (2 ^ 63)); lia.
  - replace ((a - b) mod 2 ^ 64) with (a - b + 2 ^ 64)
      by (apply Z.mod_unique with (q := -1); lia).
    destruct (Z.ltb_spec (a - b + 2 ^ 64) (2 ^ 63)); lia.
Qed.

Lemma int64_sub_zero (a b : Z) : int64_sub a b = 0 -> int64_sub b a = 0.
Proof.
  unfold int64_sub. intros H.
  apply to_int64_zero in H; [|apply u64_range].
  rewrite <- u64_opp_sub, H. reflexivity.
Qed.

(** X10. When the distances of the old and of the new value to the
    accurate one are not negative, a point that [quiteInteresting]
    calls better has a positive [iscor] and one that it calls worse
    a negative one: the line printed for a point and the side of the
    report that counts it ([0 < s.iscor] in [main]) agree. *)
Theorem verdict_agrees_with_score (v : funcVal) (s : string) :
  0 <= ud (old v) (accurate v) -> 0 <= ud (new v) (accurate v) ->
  quiteInteresting v = Some s ->
  (s = "better"%string /\ 0 < iscor (scoresOf v)) \/
  (s = "worse "%string /\ iscor (scoresOf v) < 0).
Proof.
  intros Ha Hb. unfold quiteInteresting, scoresOf. cbn [iscor].
  pose proof (ud_range (old v) (accurate v)) as Ra.
  pose proof (ud_range (new v) (accurate v)) as Rb.
  set (ac := ud (old v) (accurate v)) in *. set (bc := ud (new v) (accurate v)) in *.
  destruct (ltb L (div (of_Z (int64_sub ac bc)) (of_Z bc))) eqn:B.
  - intros [= <-]. left. split; [reflexivity|]. apply (ltb_L_quotient _ bc B Hb).
  - destruct (ltb L (div (of_Z (int64_sub bc ac)) (of_Z ac))) eqn:W; [|discriminate].
    intros [= <-]. right. split; [reflexivity|].
    pose proof (ltb_L_quotient _ ac W Ha) as P.
    rewrite int64_sub_small in P |- * by lia. lia.
Qed.

(** A point whose integer score is 0 gets no verdict. *)
Lemma no_score_no_verdict (v : funcVal) :
  iscor (scoresOf v) = 0 -> quiteInteresting v = None.
Proof.
  unfold scoresOf, quiteInteresting. cbn [iscor]. intros E.
  rewrite (int64_sub_zero _ _ E), E.
  destruct (ltb L (div (of_Z 0) _)) eqn:B.
  { apply ltb_L_div in B. destruct B as (_ & _ & Zi & _).
    exfalso. apply (Zi false). reflexivity. }
  destruct (ltb L (div (of_Z 0) (of_Z (ud (old v) (accurate v))))) eqn:W.
  { apply ltb_L_div in W. destruct W as (_ & _ & Zi & _).
    exfalso. apply (Zi false). reflexivity. }
  reflexivity.
Qed.

Lemma isNull_ud (v : funcVal) : isNull v = true -> ud (old v) (new v) = 0.
Proof.
  unfold isNull. intros E. pose proof (eqb_true _ _ E) as [D | (s & t & -> & ->)].
  - rewrite <- D in *. apply ud_refl. destruct (old v); try reflexivity.
    discriminate E.
  - destruct s, t; reflexivity.
Qed.

(** ** The reports *)

Lemma scan_counted (vs : list funcVal) (p : list rangeReport) (r : rangeReport) :
  Forall (fun v => scored v = true) vs ->
  fold_left scan_point vs (p ++ [r], true) =
  (p ++ [fold_left score_into vs r], true).
Proof.
  intros F. revert r. induction F as [|v vs Hv _ IH]; intros r; [reflexivity|].
  cbn [fold_left]. rewrite (scan_point_next p r v Hv). apply IH.
Qed.

(** The loop over the points of a range, as a whole. *)
Lemma scan_range_counted (fn : nat) (p : list rangeReport) (R : Range) :
  scan_range fn p R =
  match counted fn R with
  | [] => p
  | v :: vs =>
      p ++ [finish_range R (fold_left score_into vs (score_into rangeReport_zero v))]
  end.
Proof.
  rewrite scan_range_column. unfold counted.
  assert (F : Forall (fun v => scored v = true) (filter scored (column fn R))).
  { apply Forall_forall. intros v Hv. apply filter_In in Hv. apply Hv. }
  destruct (filter scored (column fn R)) as [|v vs]; [reflexivity|].
  cbv zeta. cbn [fold_left]. inversion F as [|? ? Hv Hvs]; subst.
  rewrite (scan_point_first p v Hv), (scan_counted vs p _ Hvs).
  cbn [fst snd]. apply alter_last_app.
Qed.

Lemma score_into_limits (vs : list funcVal) (r : rangeReport) :
  report_limits (fold_left score_into vs r) = report_limits r.
Proof.
  revert r. induction vs as [|v vs IH]; intros r; [reflexivity|].
  cbn [fold_left]. rewrite IH. unfold score_into.
  destruct (0 <? iscor (scoresOf v)); reflexivity.
Qed.

(** X11. For one function, the loop of [main] over the points of a
    range leaves the slice of reports as it is when the range has no
    counted point, and otherwise appends exactly one report, which
    carries the limits of the range. *)
Theorem scan_range_appends (fn : nat) (p : list rangeReport) (R : Range) :
  (counted fn R = [] /\ scan_range fn p R = p) \/
  (counted fn R <> [] /\
   exists r, scan_range fn p R = p ++ [r] /\ report_limits r = limits R).
Proof.
  rewrite scan_range_counted. destruct (counted fn R) as [|v vs].
  - left. split; reflexivity.
  - right. split; [discriminate|]. eexists. split; reflexivity.
Qed.

Lemma gains_cons (v : funcVal) (vs : list funcVal) :
  gains (v :: vs) =
  if 0 <? iscor (scoresOf v) then iscor (scoresOf v) :: gains vs else gains vs.
Proof. reflexivity. Qed.

Lemma losses_cons (v : funcVal) (vs : list funcVal) :
  losses (v :: vs) =
  if iscor (scoresOf v) <? 0 then iscor (scoresOf v) :: losses vs else losses vs.
Proof. reflexivity. Qed.

Lemma scored_nonzero (v : funcVal) : scored v = true -> iscor (scoresOf v) <> 0.
Proof.
  unfold scored. intros H. apply andb_prop in H. destruct H as [_ H].
  apply negb_true_iff, Z.eqb_neq in H. exact H.
Qed.

Lemma updateMicroReport_gain (r : microReport) (iS : Z) (fS : mfloat_t) :
  0 < iS -> 0 <= max r ->
  count (updateMicroReport r iS fS) = count r + 1 /\
  max (updateMicroReport r iS fS) = Z.max (max r) iS.
Proof.
  intros P M. unfold updateMicroReport. cbn [count max]. split; [reflexivity|].
  destruct (Z.leb_spec 0 iS), (Z.ltb_spec (max r) iS), (Z.leb_spec iS 0),
    (Z.leb_spec iS (max r)); cbn [andb orb]; lia.
Qed.

Lemma updateMicroReport_loss (r : microReport) (iS : Z) (fS : mfloat_t) :
  iS < 0 -> max r <= 0 ->
  count (updateMicroReport r iS fS) = count r + 1 /\
  max (updateMicroReport r iS fS) = Z.min (max r) iS.
Proof.
  intros P M. unfold updateMicroReport. cbn [count max]. split; [reflexivity|].
  destruct (Z.leb_spec 0 iS), (Z.ltb_spec (max r) iS), (Z.leb_spec iS 0),
    (Z.leb_spec iS (max r)); cbn [andb orb]; lia.
Qed.

(** What the loop has accumulated in the integer fields. *)
Lemma score_into_fields (vs : list funcVal) (r : rangeReport) :
  Forall (fun v => scored v = true) vs ->
  0 <= max (improvements r) -> max (worsenings r) <= 0 ->
  let r' := fold_left score_into vs r in
  count (improvements r') =
    count (improvements r) + Z.of_nat (List.length (gains vs)) /\
  count (worsenings r') =
    count (worsenings r) + Z.of_nat (List.length (losses vs)) /\
  max (improvements r') =
    Z.max (max (improvements r)) (fold_right Z.max 0 (gains vs)) /\
  max (worsenings r') =
    Z.min (max (worsenings r)) (fold_right Z.min 0 (losses vs)).
Proof.
  intros F. revert r. induction F as [|v vs Hv _ IH]; intros r Hi Hw.
  - cbn. repeat split; lia.
  - cbn [fold_left]. cbv zeta. apply scored_nonzero in Hv.
    rewrite gains_cons, losses_cons.
    destruct (Z.ltb_spec 0 (iscor (scoresOf v))) as [P | P].
    + destruct (Z.ltb_spec (iscor (scoresOf v)) 0) as [Q | _]; [lia|].
      rewrite (score_into_better r v P).
      destruct (updateMicroReport_gain (improvements r) _ (fscor (scoresOf v)) P Hi)
        as [U1 U2].
      match goal with |- context [fold_left score_into vs ?r1] =>
        destruct (IH r1) as (I1 & I2 & I3 & I4) end.
      { cbn [improvements]. lia. }
      { exact Hw. }
      rewrite I1, I2, I3, I4. cbn [improvements worsenings List.length fold_right].
      rewrite U1, U2, Nat2Z.inj_succ. repeat split; lia.
    + assert (Q : iscor (scoresOf v) < 0) by lia.
      destruct (Z.ltb_spec (iscor (scoresOf v)) 0) as [_ | ?]; [|lia].
      rewrite (score_into_worse r v P).
      destruct (updateMicroReport_loss (worsenings r) _ (fscor (scoresOf v)) Q Hw)
        as [U1 U2].
      match goal with |- context [fold_left score_into vs ?r1] =>
        destruct (IH r1) as (I1 & I2 & I3 & I4) end.
      { exact Hi. }
      { cbn [worsenings]. lia. }
      rewrite I1, I2, I3, I4. cbn [improvements worsenings List.length fold_right].
      rewrite U1, U2, Nat2Z.inj_succ. repeat split; lia.
Qed.

Lemma counted_scored (fn : nat) (R : Range) :
  Forall (fun v => scored v = true) (counted fn R).
Proof.
  unfold counted. apply Forall_forall. intros v Hv.
  apply filter_In in Hv. exact (proj2 Hv).
Qed.

(** X12. In the report of a range with a counted point, the count of
    the improvements is the number of counted points of positive
    [iscor] and the count of the worsenings that of negative [iscor],
    they add up to the number of counted points, [improvements.max] is
    the greatest positive [iscor] and [worsenings.max] the least
    negative one (0 when there is none). *)
Theorem report_counts_and_extremes (fn : nat) (p : list rangeReport) (R : Range) :
  counted fn R <> [] ->
  exists r,
    scan_range fn p R = p ++ [r] /\
    count (improvements r) = Z.of_nat (List.length (gains (counted fn R))) /\
    count (worsenings r) = Z.of_nat (List.length (losses (counted fn R))) /\
    count (improvements r) + count (worsenings r)
      = Z.of_nat (List.length (counted fn R)) /\
    max (improvements r) = fold_right Z.max 0 (gains (counted fn R)) /\
    max (worsenings r) = fold_right Z.min 0 (losses (counted fn R)).
Proof.
  intros NE. rewrite scan_range_counted.
  pose proof (counted_scored fn R) as F.
  destruct (counted fn R) as [|v vs]; [contradiction|].
  eexists. split; [reflexivity|].
  change (fold_left score_into vs (score_into rangeReport_zero v))
    with (fold_left score_into (v :: vs) rangeReport_zero).
  destruct (finish_range_fields R (fold_left score_into (v :: vs) rangeReport_zero))
    as (-> & -> & -> & -> & _).
  destruct (score_into_fields (v :: vs) rangeReport_zero F) as (I1 & I2 & I3 & I4);
    [cbn; lia | cbn; lia |].
  rewrite I1, I2, I3, I4. cbn [rangeReport_zero improvements worsenings
    microReport_zero count max].
  assert (G : forall l, 0 <= fold_right Z.max 0 l)
    by (induction l; cbn [fold_right]; lia).
  assert (G' : forall l, fold_right Z.min 0 l <= 0)
    by (induction l; cbn [fold_right]; lia).
  specialize (G (gains (v :: vs))). specialize (G' (losses (v :: vs))).
  assert (T : (List.length (gains (v :: vs)) + List.length (losses (v :: vs))
               = List.length (v :: vs))%nat).
  { clear -F. induction F as [|w ws Hw _ IH]; [reflexivity|].
    rewrite gains_cons, losses_cons. apply scored_nonzero in Hw.
    destruct (Z.ltb_spec 0 (iscor (scoresOf w))),
      (Z.ltb_spec (iscor (scoresOf w)) 0); cbn [List.length]; lia. }
  repeat split; lia.
Qed.

(** X13. In the report of a range with a counted point, a side
    (improvements or worsenings) without any point has the quadratic
    mean NaN: [sqrt(0.0 / (mfloat_t)0)]. *)
Theorem empty_side_mean_is_nan (fn : nat) (p : list rangeReport) (R : Range) :
  counted fn R <> [] ->
  exists r,
    scan_range fn p R = p ++ [r] /\
    (losses (counted fn R) = [] -> mean2 (worsenings r) = S754_nan) /\
    (gains (counted fn R) = [] -> mean2 (improvements r) = S754_nan).
Proof.
  intros NE. rewrite scan_range_counted.
  pose proof (counted_scored fn R) as F.
  destruct (counted fn R) as [|v vs]; [contradiction|].
  eexists. split; [reflexivity|].
  change (fold_left score_into vs (score_into rangeReport_zero v))
    with (fold_left score_into (v :: vs) rangeReport_zero).
  assert (W : forall ws r, Forall (fun v => scored v = true) ws ->
            (losses ws = [] -> worsenings (fold_left score_into ws r) = worsenings r) /\
            (gains ws = [] -> improvements (fold_left score_into ws r) = improvements r)).
  { clear. intros ws r F. revert r. induction F as [|w ws Hw _ IH]; intros r.
    - split; reflexivity.
    - cbn [fold_left]. rewrite gains_cons, losses_cons. apply scored_nonzero in Hw.
      destruct (Z.ltb_spec 0 (iscor (scoresOf w))) as [P | P],
        (Z.ltb_spec (iscor (scoresOf w)) 0) as [Q | Q]; try lia.
      + rewrite (score_into_better r w P). split; [|discriminate].
        intros E. destruct (IH (mk_rangeReport (report_limits r)
          (updateMicroReport (improvements r) (iscor (scoresOf w)) (fscor (scoresOf w)))
          (worsenings r) (add (mean1 r) (fscor (scoresOf w))))) as [I _].
        rewrite (I E). reflexivity.
      + rewrite (score_into_worse r w P). split; [discriminate|].
        intros E. destruct (IH (mk_rangeReport (report_limits r) (improvements r)
          (updateMicroReport (worsenings r) (iscor (scoresOf w)) (fscor (scoresOf w)))
          (add (mean1 r) (fscor (scoresOf w))))) as [_ I].
        rewrite (I E). reflexivity. }
  destruct (W (v :: vs) rangeReport_zero F) as [W1 W2].
  split; intros E; unfold finish_range; cbn [worsenings improvements mean2].
  - rewrite (W1 E). reflexivity.
  - rewrite (W2 E). reflexivity.
Qed.

Lemma fold_scan_range (fn : nat) (Rs : list Range) (p : list rangeReport) :
  map report_limits (fold_left (scan_range fn) Rs p) =
  map report_limits p ++
  map limits (filter (fun R => negb (match counted fn R with [] => true | _ => false end)) Rs).
Proof.
  revert p. induction Rs as [|R Rs IH]; intros p; cbn [fold_left filter].
  - rewrite app_nil_r. reflexivity.
  - rewrite IH, scan_range_counted. destruct (counted fn R) as [|v vs].
    + reflexivity.
    + cbn [negb map]. rewrite map_app, <- app_assoc. reflexivity.
Qed.

(** Whether a range has a counted point for a function. *)
Lemma counted_existsb (fn : nat) (R : Range) :
  existsb scored (column fn R) = negb (match counted fn R with [] => true | _ => false end).
Proof.
  unfold counted. induction (column fn R) as [|v vs IH]; [reflexivity|].
  cbn [existsb filter]. destruct (scored v); [reflexivity | exact IH].
Qed.

Lemma aggregate_ranges (d : dat) :
  aggregate d =
  map (fun fn => fold_left (scan_range fn) (ranges_of d) []) (seq 0 FuncLimit).
Proof.
  unfold aggregate, ranges_of. apply map_ext. intros fn.
  generalize (@nil rangeReport). generalize (seq 0 (data_i d)).
  induction l as [|k l IH]; intros p; [reflexivity|]. cbn [map fold_left]. apply IH.
Qed.

Lemma reports_limits (fn : nat) (Rs : list Range) :
  map report_limits (fold_left (scan_range fn) Rs []) =
  map limits (filter (fun R => existsb scored (column fn R)) Rs).
Proof.
  rewrite fold_scan_range. cbn [map app]. f_equal.
  apply filter_ext. intros R. symmetry. apply counted_existsb.
Qed.

(** X14. [dataByFunction] has an element for each of the [FuncLimit]
    functions, and the limits of the reports of a function are, in
    order, the limits of the ranges that have a counted point for it. *)
Theorem aggregate_shape (d : dat) (fn : nat) :
  (fn < FuncLimit)%nat ->
  List.length (aggregate d) = FuncLimit /\
  map report_limits (nth fn (aggregate d) []) =
  map limits (filter (fun R => existsb scored (column fn R)) (ranges_of d)).
Proof.
  intros Hfn. rewrite aggregate_ranges. split; [reflexivity|].
  rewrite <- reports_limits.
  unfold FuncLimit in *. destruct fn as [|[|[|fn]]]; [| | |lia]; reflexivity.
Qed.

(** ** The store *)

Lemma length_alter_nth {A : Type} (f : A -> A) (n : nat) (l : list A) :
  List.length (alter_nth f n l) = List.length l.
Proof.
  revert n. induction l as [|y l IH]; intros [|n]; cbn [alter_nth List.length];
    rewrite ?IH; reflexivity.
Qed.

Lemma nth_alter_nth_same {A : Type} (f : A -> A) (n : nat) (l : list A) (dflt : A) :
  (n < List.length l)%nat -> nth n (alter_nth f n l) dflt = f (nth n l dflt).
Proof.
  revert n. induction l as [|y l IH]; intros [|n] H; cbn [List.length] in H;
    try lia; cbn [alter_nth nth]; [reflexivity|]. apply IH. lia.
Qed.

Lemma nth_alter_nth_other {A : Type} (f : A -> A) (n m : nat) (l : list A) (dflt : A) :
  n <> m -> nth n (alter_nth f m l) dflt = nth n l dflt.
Proof.
  intros H. apply (nth_alter_nth_proj (fun w => w)). intros E. contradiction.
Qed.

Lemma forallb_alter_nth {A : Type} (P : A -> bool) (f : A -> A) (n : nat) (l : list A) :
  (forall y, P (f y) = P y) -> forallb P (alter_nth f n l) = forallb P l.
Proof.
  intros H. revert n. induction l as [|y l IH]; intros [|n]; cbn [alter_nth forallb];
    rewrite ?H, ?IH; reflexivity.
Qed.

Lemma shaped_set_cell (d : dat) (pt fn : nat) (v : funcVal) :
  shaped (set_cell d pt fn v) = shaped d.
Proof.
  unfold shaped, set_cell. cbn [funcData].
  apply forallb_alter_nth. intros R. cbn [a].
  rewrite length_alter_nth. f_equal.
  apply forallb_alter_nth. intros row. rewrite length_alter_nth. reflexivity.
Qed.

Lemma shaped_nth (d : dat) (ran pt : nat) :
  shaped d = true -> (ran < List.length (funcData d))%nat ->
  (pt < PointsInOneRange)%nat ->
  List.length (a (nth ran (funcData d) Range_zero)) = PointsInOneRange /\
  List.length (nth pt (a (nth ran (funcData d) Range_zero)) []) = FuncLimit.
Proof.
  unfold shaped. intros S Hr Hp. rewrite forallb_forall in S.
  specialize (S (nth ran (funcData d) Range_zero) (nth_In _ _ Hr)).
  apply andb_prop in S. destruct S as [S1 S2]. apply Nat.eqb_eq in S1.
  split; [exact S1|]. rewrite forallb_forall in S2.
  apply Nat.eqb_eq, S2, nth_In. rewrite S1. exact Hp.
Qed.

Lemma cell_set_cell_same (d : dat) (pt fn : nat) (v : funcVal) :
  shaped d = true -> (data_i d < List.length (funcData d))%nat ->
  (pt < PointsInOneRange)%nat -> (fn < FuncLimit)%nat ->
  cell (set_cell d pt fn v) (data_i d) pt fn = v.
Proof.
  intros S Hr Hp Hf. destruct (shaped_nth d (data_i d) pt S Hr Hp) as [L1 L2].
  unfold cell, set_cell. cbn [funcData].
  rewrite nth_alter_nth_same by exact Hr. cbn [a].
  rewrite nth_alter_nth_same by (rewrite L1; exact Hp).
  rewrite nth_alter_nth_same by (rewrite L2; exact Hf). reflexivity.
Qed.

Lemma cell_set_cell_elsewhere (d : dat) (ran point fn pt' fn' : nat) (v : funcVal) :
  ran <> data_i d \/ point <> pt' ->
  cell (set_cell d pt' fn' v) ran point fn = cell d ran point fn.
Proof.
  intros H. unfold cell, set_cell. cbn [funcData].
  apply (nth_alter_nth_proj (fun R => nth fn (nth point (a R) []) funcVal_zero)).
  intros E R. cbn [a].
  apply (nth_alter_nth_proj (fun row => nth fn row funcVal_zero)).
  intros E'. destruct H; contradiction.
Qed.

Lemma limits_set_cell (d : dat) (ran pt fn : nat) (v : funcVal) :
  limits (nth ran (funcData (set_cell d pt fn v)) Range_zero) =
  limits (nth ran (funcData d) Range_zero).
Proof.
  unfold set_cell. cbn [funcData]. apply (nth_alter_nth_proj limits).
  intros _ R. reflexivity.
Qed.

Section Store_facts.

Variable libm_sin libm_cos : mfloat_t -> mfloat_t.
Variable FricasFloatEval : list event -> nat -> mfloat_t -> mfloat_t.

(** What a turn of the loop of [checkSinCosOmcInPoint] keeps. *)
Lemma check_function_frame (pt : nat) (x : mfloat_t) (a_ : list funcVal)
    (d : dat) (fn' : nat) :
  let d' := check_function FricasFloatEval pt x a_ d fn' in
  shaped d' = shaped d /\
  List.length (funcData d') = List.length (funcData d) /\
  (forall ran, limits (nth ran (funcData d') Range_zero)
               = limits (nth ran (funcData d) Range_zero)) /\
  (forall ran point fn, ran <> data_i d \/ point <> pt ->
     cell d' ran point fn = cell d ran point fn) /\
  (forall ran, ran <> data_i d ->
     nth ran (funcData d') Range_zero = nth ran (funcData d) Range_zero).
Proof.
  unfold check_function. destruct (interesting _).
  2:{ repeat split; reflexivity. }
  assert (G : forall e d0, funcData (emit e d0) = funcData d0) by reflexivity.
  assert (S : forall e d0, shaped (emit e d0) = shaped d0) by reflexivity.
  assert (C : forall e d0 r p f, cell (emit e d0) r p f = cell d0 r p f) by reflexivity.
  destruct (quiteInteresting _) as [s|]; rewrite ?G, ?S;
    (split; [apply shaped_set_cell|]);
    (split; [unfold set_cell; cbn [funcData]; apply length_alter_nth|]);
    (split; [intros ran; apply limits_set_cell|]);
    (split; [intros ran point fn H; rewrite ?C; apply cell_set_cell_elsewhere, H|]);
    intros ran H; unfold set_cell; cbn [funcData]; apply nth_alter_nth_other, H.
Qed.

Lemma check_functions_frame (pt : nat) (x : mfloat_t) (a_ : list funcVal)
    (fns : list nat) (d : dat) :
  let d' := fold_left (check_function FricasFloatEval pt x a_) fns d in
  data_i d' = data_i d /\
  shaped d' = shaped d /\
  List.length (funcData d') = List.length (funcData d) /\
  (forall ran, limits (nth ran (funcData d') Range_zero)
               = limits (nth ran (funcData d) Range_zero)) /\
  (forall ran point fn, ran <> data_i d \/ point <> pt ->
     cell d' ran point fn = cell d ran point fn) /\
  (forall ran, ran <> data_i d ->
     nth ran (funcData d') Range_zero = nth ran (funcData d) Range_zero).
Proof.
  revert d. induction fns as [|fn' fns IH]; intros d; cbn [fold_left].
  - repeat split; reflexivity.
  - destruct (check_function_effect FricasFloatEval pt x a_ d fn') as (I1 & _ & _).
    destruct (check_function_frame pt x a_ d fn') as (S1 & L1 & M1 & C1 & N1).
    destruct (IH (check_function FricasFloatEval pt x a_ d fn'))
      as (I2 & S2 & L2 & M2 & C2 & N2).
    cbv zeta. rewrite I1 in *.
    split; [congruence|]. split; [congruence|]. split; [congruence|].
    split; [intros ran; rewrite M2; apply M1|].
    split; [intros ran point fn H; rewrite (C2 _ _ _ H); apply C1, H|].
    intros ran H. rewrite (N2 _ H). apply N1, H.
Qed.

(** The turns for other functions leave the cell and only add events. *)
Lemma check_functions_other (pt : nat) (x : mfloat_t) (a_ : list funcVal)
    (fn : nat) (fns : list nat) (d : dat) :
  ~ In fn fns ->
  let d' := fold_left (check_function FricasFloatEval pt x a_) fns d in
  (exists evs, fr d' = fr d ++ evs /\ forall e, In e evs -> event_fn e <> Some fn
                                                /\ event_fn e <> None) /\
  (forall ran point, cell d' ran point fn = cell d ran point fn).
Proof.
  revert d. induction fns as [|fn' fns IH]; intros d NI; cbn [fold_left].
  - split; [|reflexivity]. exists []. rewrite app_nil_r.
    split; [reflexivity|]. intros e [].
  - destruct (check_function_effect FricasFloatEval pt x a_ d fn')
      as (_ & (ev1 & F1 & E1) & C1).
    destruct (IH (check_function FricasFloatEval pt x a_ d fn'))
      as ((ev2 & F2 & E2) & C2).
    { intros H. apply NI. right. exact H. }
    cbv zeta. split.
    + exists (ev1 ++ ev2). rewrite F2, F1, app_assoc. split; [reflexivity|].
      intros e He. apply in_app_or in He. destruct He as [He | He].
      * rewrite (E1 e He). split; [|discriminate].
        intros [= ->]. apply NI. left. reflexivity.
      * apply E2, He.
    + intros ran point. rewrite C2. apply C1.
      intros ->. apply NI. left. reflexivity.
Qed.

End Store_facts.

(** X15. [checkSinCosOmcInPoint] keeps the index [data->i], the shape
    of the store and the limits of every range, and leaves alone the
    values of every other range and of every other point of its
    range. *)
Theorem checkSinCosOmcInPoint_frame
    (libm_sin libm_cos : mfloat_t -> mfloat_t)
    (FricasFloatEval : list event -> nat -> mfloat_t -> mfloat_t)
    (d d' : dat) (pointInRange : nat) (x : mfloat_t) :
  checkSinCosOmcInPoint libm_sin libm_cos FricasFloatEval d pointInRange x = Some d' ->
  data_i d' = data_i d /\
  shaped d' = shaped d /\
  List.length (funcData d') = List.length (funcData d) /\
  (forall ran, limits (nth ran (funcData d') Range_zero)
               = limits (nth ran (funcData d) Range_zero)) /\
  (forall ran point fn, ran <> data_i d \/ point <> pointInRange ->
     cell d' ran point fn = cell d ran point fn).
Proof.
  unfold checkSinCosOmcInPoint. destruct (sncs1cs x) as [r|]; [|discriminate].
  cbn [bind]. intros [= <-].
  destruct (check_functions_frame FricasFloatEval pointInRange x
              (values_at libm_sin libm_cos x r) (seq 0 FuncLimit)
              (emit (Call_cos x) (emit (Call_sin x) d)))
    as (I & S & Ln & M & C & _).
  repeat split; assumption.
Qed.

Section Point_facts.

Variable libm_sin libm_cos : mfloat_t -> mfloat_t.
Variable FricasFloatEval : list event -> nat -> mfloat_t -> mfloat_t.

(** The turn of the loop of [checkSinCosOmcInPoint] for a function
    whose two values differ. *)
Lemma check_function_at (pt : nat) (x : mfloat_t) (a_ : list funcVal)
    (d : dat) (fn : nat) :
  shaped d = true -> (data_i d < List.length (funcData d))%nat ->
  (pt < PointsInOneRange)%nat -> (fn < FuncLimit)%nat ->
  let v := nth fn a_ funcVal_zero in
  let w := mk_funcVal (old v) (new v) (FricasFloatEval (fr d) fn x) in
  let d' := check_function FricasFloatEval pt x a_ d fn in
  interesting (ud (old v) (new v)) = true ->
  cell d' (data_i d) pt fn = w /\
  fr d' = fr d ++ Call_FricasFloatEval fn x ::
          match quiteInteresting w with
          | Some s => [Printf_point s x fn (about (old v) (new v))
                         (ud (old v) (new v)) w]
          | None => []
          end.
Proof.
  intros S Hr Hp Hf v w d' I. subst d'. unfold check_function. fold v. rewrite I.
  fold w. destruct (quiteInteresting w) as [s|]; cbn [emit fr]; split;
    rewrite <- ?app_assoc; try reflexivity;
    apply (cell_set_cell_same d pt fn w S Hr Hp Hf).
Qed.

(** The loop of [checkSinCosOmcInPoint], seen from one function. *)
Lemma check_functions_at (pt : nat) (x : mfloat_t) (a_ : list funcVal)
    (pre post : list nat) (d : dat) (fn : nat) :
  shaped d = true -> (data_i d < List.length (funcData d))%nat ->
  (pt < PointsInOneRange)%nat -> (fn < FuncLimit)%nat ->
  ~ In fn pre -> ~ In fn post ->
  let v := nth fn a_ funcVal_zero in
  let d' := fold_left (check_function FricasFloatEval pt x a_) (pre ++ fn :: post) d in
  if interesting (ud (old v) (new v))
  then exists before after,
      fr d' = fr d ++ before ++ Call_FricasFloatEval fn x :: after /\
      (forall y, ~ In (Call_FricasFloatEval fn y) (before ++ after)) /\
      cell d' (data_i d) pt fn =
        mk_funcVal (old v) (new v) (FricasFloatEval (fr d ++ before) fn x)
  else
      cell d' (data_i d) pt fn = cell d (data_i d) pt fn /\
      exists evs, fr d' = fr d ++ evs /\
                  forall e, In e evs -> event_fn e <> Some fn.
Proof.
  intros S Hr Hp Hf N1 N2 v d'. subst d'. rewrite fold_left_app. cbn [fold_left].
  set (d1 := fold_left (check_function FricasFloatEval pt x a_) pre d).
  destruct (check_functions_other FricasFloatEval pt x a_ fn pre d N1)
    as ((ev1 & F1 & E1) & C1). fold d1 in F1, C1.
  destruct (check_functions_frame FricasFloatEval pt x a_ pre d)
    as (I1 & S1 & L1 & _). fold d1 in I1, S1, L1.
  set (d2 := check_function FricasFloatEval pt x a_ d1 fn).
  destruct (check_functions_other FricasFloatEval pt x a_ fn post d2 N2)
    as ((ev3 & F3 & E3) & C3).
  destruct (check_function_effect FricasFloatEval pt x a_ d1 fn) as (I2 & _ & _).
  fold d2 in I2.
  destruct (interesting (ud (old v) (new v))) eqn:I.
  - destruct (check_function_at pt x a_ d1 fn) as [C2 F2];
      [congruence | rewrite I1, L1; exact Hr | exact Hp | exact Hf | exact I |].
    fold d2 in C2, F2. rewrite I1 in C2.
    exists ev1. eexists. rewrite F3, F2, F1, <- !app_assoc. cbn [app].
    split; [reflexivity|]. split.
    + intros y H. apply in_app_or in H. destruct H as [H | H].
      * destruct (E1 _ H) as [A _]. apply A. reflexivity.
      * apply in_app_or in H. destruct H as [H | H].
        -- destruct (quiteInteresting _) in H; [|destruct H].
           destruct H as [H | []]. discriminate H.
        -- destruct (E3 _ H) as [A _]. apply A. reflexivity.
    + rewrite C3, C2, F1. reflexivity.
  - assert (D : d2 = d1).
    { unfold d2, check_function. fold v. rewrite I. reflexivity. }
    rewrite D in *. split; [rewrite C3, C1; reflexivity|].
    exists (ev1 ++ ev3). rewrite F3, F1, app_assoc. split; [reflexivity|].
    intros e H. apply in_app_or in H. destruct H as [H | H]; [apply E1, H | apply E3, H].
Qed.

(** Whatever the loop prints concerns a point that it has stored and
    that the aggregation counts. *)
Lemma check_functions_printed (pt : nat) (x : mfloat_t) (a_ : list funcVal)
    (fns : list nat) (d : dat) :
  shaped d = true -> (data_i d < List.length (funcData d))%nat ->
  (pt < PointsInOneRange)%nat ->
  NoDup fns -> (forall fn, In fn fns -> (fn < FuncLimit)%nat) ->
  let d' := fold_left (check_function FricasFloatEval pt x a_) fns d in
  exists evs, fr d' = fr d ++ evs /\
    forall s x' fn buf diff v, In (Printf_point s x' fn buf diff v) evs ->
      x' = x /\ In fn fns /\
      cell d' (data_i d) pt fn = v /\ scored v = true /\
      quiteInteresting v = Some s /\
      buf = about (old v) (new v) /\ diff = ud (old v) (new v).
Proof.
  intros S Hr Hp ND. revert d S Hr.
  induction ND as [|f fns NI ND IH]; intros d S Hr Hf; cbn [fold_left].
  - exists []. rewrite app_nil_r. split; [reflexivity|]. intros ? ? ? ? ? ? [].
  - set (d1 := check_function FricasFloatEval pt x a_ d f).
    destruct (check_function_effect FricasFloatEval pt x a_ d f) as (I1 & _ & _).
    destruct (check_function_frame FricasFloatEval pt x a_ d f) as (S1 & L1 & _).
    fold d1 in I1, S1, L1.
    destruct (IH d1) as (ev2 & F2 & P2); [congruence | lia | intros; apply Hf; right; assumption|].
    destruct (check_functions_other FricasFloatEval pt x a_ f fns d1 NI) as (_ & C2).
    cbv zeta.
    destruct (interesting (ud (old (nth f a_ funcVal_zero)) (new (nth f a_ funcVal_zero))))
      eqn:I.
    + destruct (check_function_at pt x a_ d f S Hr Hp) as [C1 F1];
        [apply Hf; left; reflexivity | exact I |]. fold d1 in C1, F1.
      eexists. rewrite F2, F1, <- app_assoc. split; [reflexivity|].
      intros s x' fn buf diff v H. cbn [app] in H.
      destruct H as [H | H]; [discriminate H|].
      apply in_app_or in H. destruct H as [H | H].
      * set (w := mk_funcVal _ _ _) in *.
        destruct (quiteInteresting w) as [s0|] eqn:Q; [|destruct H].
        destruct H as [H | []]. injection H as <- <- <- <- <- <-.
        split; [reflexivity|]. split; [left; reflexivity|].
        split; [rewrite C2; exact C1|].
        split; [|repeat split; assumption].
        unfold scored. apply andb_true_intro. split.
        -- apply negb_true_iff. destruct (isNull w) eqn:N; [|reflexivity].
           apply isNull_ud in N. cbn [old new w] in N.
           unfold interesting in I. rewrite N in I. discriminate I.
        -- apply negb_true_iff, Z.eqb_neq. intros Z.
           rewrite (no_score_no_verdict w Z) in Q. discriminate Q.
      * destruct (P2 _ _ _ _ _ _ H) as (A1 & A2 & A3 & A4).
        split; [exact A1|]. split; [right; exact A2|].
        rewrite I1 in A3. exact (conj A3 A4).
    + assert (D : d1 = d).
      { unfold d1, check_function. rewrite I. reflexivity. }
      rewrite D in *. exists ev2. split; [exact F2|].
      intros s x' fn buf diff v H.
      destruct (P2 _ _ _ _ _ _ H) as (A1 & A2 & A3).
      split; [exact A1|]. split; [right; exact A2 | exact A3].
Qed.

End Point_facts.

(** X16. In a store of the allocated shape, for a function whose old
    and new values have a nonzero ULP distance,
    [checkSinCosOmcInPoint] sends exactly one request to FriCAS for
    that function, at the sample point, and stores the old value, the
    new value and the answer to that request; otherwise it leaves the
    stored value as it was and nothing happens for that function. *)
Theorem differing_values_are_stored
    (libm_sin libm_cos : mfloat_t -> mfloat_t)
    (FricasFloatEval : list event -> nat -> mfloat_t -> mfloat_t)
    (d d' : dat) (pointInRange fn : nat) (x : mfloat_t) :
  shaped d = true -> (data_i d < List.length (funcData d))%nat ->
  (pointInRange < PointsInOneRange)%nat -> (fn < FuncLimit)%nat ->
  checkSinCosOmcInPoint libm_sin libm_cos FricasFloatEval d pointInRange x = Some d' ->
  exists sc1c,
    sncs1cs x = Some sc1c /\
    let v := nth fn (values_at libm_sin libm_cos x sc1c) funcVal_zero in
    if interesting (ud (old v) (new v))
    then exists before after,
        fr d' = fr d ++ [Call_sin x; Call_cos x] ++ before
                     ++ Call_FricasFloatEval fn x :: after /\
        (forall y, ~ In (Call_FricasFloatEval fn y) (before ++ after)) /\
        cell d' (data_i d) pointInRange fn =
          mk_funcVal (old v) (new v)
            (FricasFloatEval (fr d ++ [Call_sin x; Call_cos x] ++ before) fn x)
    else
        cell d' (data_i d) pointInRange fn = cell d (data_i d) pointInRange fn /\
        exists evs, fr d' = fr d ++ evs /\
                    forall e, In e evs -> event_fn e <> Some fn.
Proof.
  intros S Hr Hp Hf. unfold checkSinCosOmcInPoint.
  destruct (sncs1cs x) as [r|]; [|discriminate]. cbn [bind].
  intros E. apply (f_equal (fun o => match o with Some y => y | None => d end)) in E.
  cbv beta iota in E. subst d'.
  exists r. split; [reflexivity|]. cbv zeta.
  set (d0 := emit (Call_cos x) (emit (Call_sin x) d)).
  assert (F0 : fr d0 = fr d ++ [Call_sin x; Call_cos x]).
  { unfold d0. cbn [emit fr]. rewrite <- app_assoc. reflexivity. }
  assert (H : exists pre post, seq 0 FuncLimit = pre ++ fn :: post /\
                               ~ In fn pre /\ ~ In fn post).
  { unfold FuncLimit in *. destruct fn as [|[|[|fn]]]; [| | |lia].
    - exists [], [1%nat; 2%nat]. cbn. intuition lia.
    - exists [0%nat], [2%nat]. cbn. intuition lia.
    - exists [0%nat; 1%nat], []. cbn. intuition lia. }
  destruct H as (pre & post & -> & N1 & N2).
  pose proof (check_functions_at FricasFloatEval pointInRange x
                (values_at libm_sin libm_cos x r) pre post d0 fn S Hr Hp Hf N1 N2) as A.
  cbv zeta in A.
  destruct (interesting _).
  - destruct A as (before & after & F & U & C).
    exists before, after. rewrite F, F0, <- !app_assoc.
    split; [reflexivity|]. split; [exact U|].
    rewrite F0, <- app_assoc in C. exact C.
  - destruct A as (C & evs & F & E). split; [exact C|].
    exists ([Call_sin x; Call_cos x] ++ evs). rewrite F, F0, <- app_assoc.
    split; [reflexivity|].
    intros e H. apply in_app_or in H.
    destruct H as [[<- | [<- | []]] | H]; [discriminate | discriminate | apply E, H].
Qed.

(** X17. In a store of the allocated shape, every line that
    [checkSinCosOmcInPoint] prints is about its sample point and about
    the value it has just stored for one of the functions; it reports
    the verdict of [quiteInteresting], the text of [about] and the ULP
    distance of the old and new values, and that stored value is one
    that the aggregation of [main] counts. *)
Theorem printed_points_are_counted
    (libm_sin libm_cos : mfloat_t -> mfloat_t)
    (FricasFloatEval : list event -> nat -> mfloat_t -> mfloat_t)
    (d d' : dat) (pointInRange : nat) (x : mfloat_t) :
  shaped d = true -> (data_i d < List.length (funcData d))%nat ->
  (pointInRange < PointsInOneRange)%nat ->
  checkSinCosOmcInPoint libm_sin libm_cos FricasFloatEval d pointInRange x = Some d' ->
  exists evs, fr d' = fr d ++ evs /\
    forall s x' fn buf diff v, In (Printf_point s x' fn buf diff v) evs ->
      x' = x /\ (fn < FuncLimit)%nat /\
      cell d' (data_i d) pointInRange fn = v /\ scored v = true /\
      quiteInteresting v = Some s /\
      buf = about (old v) (new v) /\ diff = ud (old v) (new v).
Proof.
  intros S Hr Hp. unfold checkSinCosOmcInPoint.
  destruct (sncs1cs x) as [r|]; [|discriminate]. cbn [bind].
  intros E. apply (f_equal (fun o => match o with Some y => y | None => d end)) in E.
  cbv beta iota in E. subst d'.
  set (d0 := emit (Call_cos x) (emit (Call_sin x) d)).
  destruct (check_functions_printed FricasFloatEval pointInRange x
              (values_at libm_sin libm_cos x r) (seq 0 FuncLimit) d0 S Hr Hp)
    as (evs & F & P).
  { apply seq_NoDup. }
  { intros fn H. apply in_seq in H. lia. }
  exists ([Call_sin x; Call_cos x] ++ evs). rewrite F. unfold d0. cbn [emit fr].
  rewrite <- !app_assoc. split; [reflexivity|].
  intros s x' fn buf diff v H. apply in_app_or in H.
  destruct H as [[H | [H | []]] | H]; try discriminate H.
  destruct (P _ _ _ _ _ _ H) as (A1 & A2 & A3).
  split; [exact A1|]. split; [apply in_seq in A2; lia | exact A3].
Qed.

Lemma shaped_set_limits (f : mfloat_t * mfloat_t -> mfloat_t * mfloat_t) (d : dat) :
  shaped (set_limits f d) = shaped d.
Proof.
  unfold shaped, set_limits. cbn [funcData].
  apply forallb_alter_nth. intros R. reflexivity.
Qed.

Lemma set_limits_at (f : mfloat_t * mfloat_t -> mfloat_t * mfloat_t) (d : dat) :
  (data_i d < List.length (funcData d))%nat ->
  limits (nth (data_i d) (funcData (set_limits f d)) Range_zero) =
  f (limits (nth (data_i d) (funcData d) Range_zero)).
Proof.
  intros H. unfold set_limits. cbn [funcData].
  rewrite nth_alter_nth_same by exact H. reflexivity.
Qed.

Lemma set_limits_other (f : mfloat_t * mfloat_t -> mfloat_t * mfloat_t) (d : dat)
    (ran : nat) :
  ran <> data_i d ->
  nth ran (funcData (set_limits f d)) Range_zero = nth ran (funcData d) Range_zero.
Proof. intros H. unfold set_limits. cbn [funcData]. apply nth_alter_nth_other, H. Qed.

Lemma set_limits_cell (f : mfloat_t * mfloat_t -> mfloat_t * mfloat_t) (d : dat)
    (ran point fn : nat) :
  cell (set_limits f d) ran point fn = cell d ran point fn.
Proof.
  unfold cell, set_limits. cbn [funcData].
  apply (nth_alter_nth_proj (fun R => nth fn (nth point (a R) []) funcVal_zero)).
  intros _ R. reflexivity.
Qed.

Section Range_facts.

Variable libm_sin libm_cos : mfloat_t -> mfloat_t.
Variable FricasFloatEval : list event -> nat -> mfloat_t -> mfloat_t.

Let check := checkSinCosOmcInPoint libm_sin libm_cos FricasFloatEval.
Let step_ := testRange_step libm_sin libm_cos FricasFloatEval.
Let range_ := testRange libm_sin libm_cos FricasFloatEval.
Let sample_ := sample_step libm_sin libm_cos FricasFloatEval.

Lemma check_keeps (d d' : dat) (pt : nat) (x : mfloat_t) :
  check d pt x = Some d' ->
  data_i d' = data_i d /\
  shaped d' = shaped d /\
  List.length (funcData d') = List.length (funcData d) /\
  (forall ran, limits (nth ran (funcData d') Range_zero)
               = limits (nth ran (funcData d) Range_zero)) /\
  (forall ran, ran <> data_i d ->
     nth ran (funcData d') Range_zero = nth ran (funcData d) Range_zero).
Proof.
  unfold check, checkSinCosOmcInPoint. destruct (sncs1cs x) as [r|]; [|discriminate].
  cbn [bind]. intros E.
  apply (f_equal (fun o => match o with Some y => y | None => d end)) in E.
  cbv beta iota in E. subst d'.
  destruct (check_functions_frame FricasFloatEval pt x
              (values_at libm_sin libm_cos x r) (seq 0 FuncLimit)
              (emit (Call_cos x) (emit (Call_sin x) d)))
    as (I & S & Ln & M & _ & N).
  repeat split; assumption.
Qed.

Lemma testRange_steps_none (l : list nat) : fold_left step_ l None = None.
Proof. induction l as [|k l IH]; [reflexivity | exact IH]. Qed.

Lemma testRange_steps_keep (n k : nat) (d : dat) (x : mfloat_t)
    (dx : dat * mfloat_t) :
  fold_left step_ (seq k n) (Some (d, x)) = Some dx ->
  snd dx = Nat.iter n nextafter_posInf x /\
  data_i (fst dx) = data_i d /\
  shaped (fst dx) = shaped d /\
  List.length (funcData (fst dx)) = List.length (funcData d) /\
  (forall ran, limits (nth ran (funcData (fst dx)) Range_zero)
               = limits (nth ran (funcData d) Range_zero)) /\
  (forall ran, ran <> data_i d ->
     nth ran (funcData (fst dx)) Range_zero = nth ran (funcData d) Range_zero).
Proof.
  revert k d x. induction n as [|n IH]; intros k d x.
  - cbn [seq fold_left]. intros [= <-]. repeat split; reflexivity.
  - cbn [seq fold_left]. unfold step_ at 2, testRange_step. cbn [bind fst snd].
    fold check. destruct (check d k x) as [d1|] eqn:E1; cbn [bind].
    2:{ fold step_. rewrite testRange_steps_none. discriminate. }
    fold step_. intros E2.
    destruct (check_keeps d d1 k x E1) as (I1 & S1 & L1 & M1 & N1).
    destruct (IH _ _ _ E2) as (X2 & I2 & S2 & L2 & M2 & N2).
    split.
    { rewrite X2. symmetry. apply Nat.iter_succ_r. }
    split; [congruence|]. split; [congruence|]. split; [congruence|].
    split; [intros ran; rewrite M2; apply M1|].
    intros ran H. rewrite N2 by congruence. apply N1, H.
Qed.

Lemma testRange_keeps (d d' : dat) (x : mfloat_t) :
  range_ d x = Some d' ->
  (data_i d < List.length (funcData d))%nat ->
  data_i d' = data_i d /\
  shaped d' = shaped d /\
  List.length (funcData d') = List.length (funcData d) /\
  limits (nth (data_i d) (funcData d') Range_zero)
    = (x, Nat.iter PointsInOneRange nextafter_posInf x) /\
  (forall ran, ran <> data_i d ->
     nth ran (funcData d') Range_zero = nth ran (funcData d) Range_zero).
Proof.
  unfold range_, testRange. fold step_.
  destruct (fold_left step_ _ _) as [dx|] eqn:E; [|discriminate].
  cbn [bind]. intros [= <-] Hr.
  destruct (testRange_steps_keep _ _ _ _ _ E) as (X & I & S & Ln & M & N).
  rewrite shaped_set_limits in S.
  assert (Ln0 : List.length (funcData (set_limits (fun l => (x, snd l)) d))
                = List.length (funcData d)).
  { unfold set_limits. cbn [funcData]. apply length_alter_nth. }
  change (data_i (set_limits (fun l => (x, snd l)) d)) with (data_i d) in *.
  split; [exact I|]. split; [rewrite shaped_set_limits; exact S|].
  split.
  { unfold set_limits at 1. cbn [funcData]. rewrite length_alter_nth. congruence. }
  split.
  - rewrite <- I. rewrite set_limits_at by (rewrite I; congruence).
    rewrite I, M, set_limits_at by exact Hr. cbn [fst]. rewrite X. reflexivity.
  - intros ran H. rewrite set_limits_other by congruence.
    rewrite N by exact H. apply set_limits_other, H.
Qed.

Lemma sample_steps_none (l : list nat) : fold_left sample_ l None = None.
Proof. induction l as [|k l IH]; [reflexivity | exact IH]. Qed.

Lemma sample_steps_limits (n k : nat) (d d' : dat) :
  data_i d = k -> (k + n <= List.length (funcData d))%nat ->
  fold_left sample_ (seq k n) (Some d) = Some d' ->
  data_i d' = (k + n)%nat /\
  shaped d' = shaped d /\
  List.length (funcData d') = List.length (funcData d) /\
  (forall i, (k <= i < k + n)%nat ->
     limits (nth i (funcData d') Range_zero)
     = (range_start i, Nat.iter PointsInOneRange nextafter_posInf (range_start i))) /\
  (forall i, (i < k)%nat \/ (k + n <= i)%nat ->
     nth i (funcData d') Range_zero = nth i (funcData d) Range_zero).
Proof.
  revert k d. induction n as [|n IH]; intros k d Hk Hn.
  - cbn [seq fold_left]. intros [= <-]. rewrite Nat.add_0_r.
    repeat split; try assumption; try reflexivity. intros i H. lia.
  - cbn [seq fold_left]. unfold sample_ at 2, sample_step. cbn [bind].
    fold range_. destruct (range_ d (range_start (data_i d))) as [d1|] eqn:E1; cbn [bind].
    2:{ fold sample_. rewrite sample_steps_none. discriminate. }
    fold sample_. intros E2.
    destruct (testRange_keeps d d1 _ E1) as (I1 & S1 & L1 & M1 & N1); [lia|].
    destruct (IH (S k) (mk_dat (fr d1) (funcData d1) (S (data_i d1))))
      as (I2 & S2 & L2 & M2 & N2);
      [cbn [data_i]; congruence | cbn [funcData]; lia | exact E2 |].
    cbn [funcData] in *.
    split; [lia|]. split; [exact (eq_trans S2 S1)|]. split; [congruence|].
    split.
    + intros i Hi. destruct (Nat.eq_dec i k) as [-> | Hne].
      * rewrite N2 by lia. rewrite <- Hk. exact M1.
      * apply M2. lia.
    + intros i Hi. rewrite N2 by lia. apply N1. lia.
Qed.

End Range_facts.

(** X18. [testRange] records as limits of the current range its
    first argument [x] and the [PointsInOneRange]-th successor of [x],
    the first double after the last point sampled; it keeps the index
    and leaves the other ranges as they were. *)
Theorem testRange_limits
    (libm_sin libm_cos : mfloat_t -> mfloat_t)
    (FricasFloatEval : list event -> nat -> mfloat_t -> mfloat_t)
    (d d' : dat) (x : mfloat_t) :
  (data_i d < List.length (funcData d))%nat ->
  testRange libm_sin libm_cos FricasFloatEval d x = Some d' ->
  limits (nth (data_i d) (funcData d') Range_zero)
    = (x, Nat.iter PointsInOneRange nextafter_posInf x) /\
  data_i d' = data_i d /\
  forall ran, ran <> data_i d ->
    nth ran (funcData d') Range_zero = nth ran (funcData d) Range_zero.
Proof.
  intros Hr E.
  destruct (testRange_keeps libm_sin libm_cos FricasFloatEval d d' x E Hr)
    as (I & _ & _ & M & N).
  repeat split; assumption.
Qed.

(** X19. When the sampling loop of [main] ends, the index is [size],
    the store has kept its shape and length, every range [i] gone
    through has the limits [-fourPi + step*i] and its
    [PointsInOneRange]-th successor, and the ranges not gone through
    are as they were. *)
Theorem sample_loop_store
    (libm_sin libm_cos : mfloat_t -> mfloat_t)
    (FricasFloatEval : list event -> nat -> mfloat_t -> mfloat_t)
    (n : nat) (d d' : dat) :
  (data_i d <= n <= List.length (funcData d))%nat ->
  sample_loop libm_sin libm_cos FricasFloatEval n d = Some d' ->
  data_i d' = n /\
  shaped d' = shaped d /\
  List.length (funcData d') = List.length (funcData d) /\
  (forall i, (data_i d <= i < n)%nat ->
     limits (nth i (funcData d') Range_zero)
     = (range_start i, Nat.iter PointsInOneRange nextafter_posInf (range_start i))) /\
  (forall i, (i < data_i d)%nat \/ (n <= i)%nat ->
     nth i (funcData d') Range_zero = nth i (funcData d) Range_zero).
Proof.
  intros Hn E. unfold sample_loop in E.
  destruct (sample_steps_limits libm_sin libm_cos FricasFloatEval
              (n - data_i d) (data_i d) d d' eq_refl)
    as (I & S & Ln & M & N); [lia | exact E |].
  split; [lia|]. split; [exact S|]. split; [exact Ln|]. split.
  - intros i Hi. apply M. lia.
  - intros i Hi. apply N. lia.
Qed.

Lemma filter_map_comm {A B : Type} (g : A -> B) (P : B -> bool) (l : list A) :
  filter P (map g l) = map g (filter (fun x => P (g x)) l).
Proof.
  induction l as [|x l IH]; [reflexivity|]. cbn [map filter].
  destruct (P (g x)); cbn [map]; rewrite IH; reflexivity.
Qed.

(** X20. A run that could start FriCAS ends with status 0 and with an
    element of reports for each function, and the limits of the
    reports of a function are those of some of the 837 sampled ranges,
    in increasing order of the range: [-fourPi + step*i] and its
    [PointsInOneRange]-th successor. *)
Theorem main_report_limits
    (libm_sin libm_cos : mfloat_t -> mfloat_t)
    (FricasFloatEval : list event -> nat -> mfloat_t -> mfloat_t) :
  exists tr reports,
    main libm_sin libm_cos FricasFloatEval true = Some (0, tr, reports) /\
    List.length reports = FuncLimit /\
    Forall (fun rs => exists q,
              map report_limits rs =
              map (fun i => (range_start i,
                             Nat.iter PointsInOneRange nextafter_posInf (range_start i)))
                  (filter q (seq 0 ranges)))
           reports.
Proof.
  assert (Hsize : size = Some (Z.of_nat ranges)) by reflexivity.
  unfold main. rewrite Hsize. cbn [bind negb]. rewrite Nat2Z.id.
  destruct (sample_loop_sampled libm_sin libm_cos FricasFloatEval ranges 0
              (mk_dat [] (repeat Range_zero ranges) 0) eq_refl sample_points_fin)
    as (d' & E & _ & _).
  unfold sample_loop. cbn [data_i]. rewrite Nat.sub_0_r, E. cbn [bind].
  eexists _, _. split; [reflexivity|].
  destruct (sample_steps_limits libm_sin libm_cos FricasFloatEval ranges 0
              (mk_dat [] (repeat Range_zero ranges) 0) d' eq_refl)
    as (I & _ & _ & M & _); [cbn [funcData]; rewrite repeat_length; lia | exact E |].
  rewrite aggregate_ranges. split; [reflexivity|].
  apply Forall_forall. intros rs Hrs. apply in_map_iff in Hrs.
  destruct Hrs as (fn & <- & _).
  rewrite reports_limits. unfold ranges_of. rewrite I, filter_map_comm, map_map.
  eexists. apply map_ext_in. intros i Hi. apply filter_In in Hi.
  destruct Hi as [Hi _]. apply in_seq in Hi. apply M. lia.
Qed.

(** ** The lexer of the C interface *)


Lemma skip_past_app (stop : ascii) (pre rest : CFricas.stream) :
  ~ In stop pre -> CFricas.skip_past stop (pre ++ stop :: rest) = Some rest.
Proof.
  induction pre as [|c pre IH]; intros H; cbn [app CFricas.skip_past].
  - rewrite Ascii.eqb_refl. reflexivity.
  - destruct (Ascii.eqb_spec c stop) as [-> | _].
    + exfalso. apply H. left. reflexivity.
    + apply IH. intros K. apply H. right. exact K.
Qed.

Lemma skip_past_none (stop : ascii) (s : CFricas.stream) :
  ~ In stop s -> CFricas.skip_past stop s = None.
Proof.
  induction s as [|c s IH]; intros H; cbn [CFricas.skip_past]; [reflexivity|].
  destruct (Ascii.eqb_spec c stop) as [-> | _].
  - exfalso. apply H. left. reflexivity.
  - apply IH. intros K. apply H. right. exact K.
Qed.

Lemma skip_past_split (stop : ascii) (s rest : CFricas.stream) :
  CFricas.skip_past stop s = Some rest ->
  exists pre, s = pre ++ stop :: rest /\ ~ In stop pre.
Proof.
  revert rest. induction s as [|c s IH]; intros rest; cbn [CFricas.skip_past]; [discriminate|].
  destruct (Ascii.eqb_spec c stop) as [-> | N].
  - intros [= ->]. exists []. split; [reflexivity | intros []].
  - intros H. destruct (IH _ H) as (pre & -> & NI).
    exists (c :: pre). split; [reflexivity|].
    intros [K | K]; [apply N, K | apply NI, K].
Qed.

Lemma fgets_line (k : nat) (num rest : CFricas.stream) :
  ~ In CFricas.newline num -> (List.length num < k)%nat ->
  CFricas.fgets k (num ++ CFricas.newline :: rest) = (num ++ [CFricas.newline], rest).
Proof.
  revert k. induction num as [|c num IH]; intros k H L; cbn [List.length] in L.
  - destruct k; [lia|]. cbn [app CFricas.fgets]. rewrite Ascii.eqb_refl. reflexivity.
  - destruct k; [lia|]. cbn [app CFricas.fgets].
    destruct (Ascii.eqb_spec c CFricas.newline) as [-> | _].
    + exfalso. apply H. left. reflexivity.
    + rewrite IH; [reflexivity | | lia]. intros K. apply H. right. exact K.
Qed.

Lemma fgets_full (k : nat) (num rest : CFricas.stream) :
  ~ In CFricas.newline num -> List.length num = k ->
  CFricas.fgets k (num ++ rest) = (num, rest).
Proof.
  revert k. induction num as [|c num IH]; intros k H L; cbn [List.length] in L; subst k.
  - reflexivity.
  - cbn [app CFricas.fgets]. destruct (Ascii.eqb_spec c CFricas.newline) as [-> | _].
    + exfalso. apply H. left. reflexivity.
    + rewrite IH; [reflexivity | | reflexivity]. intros K. apply H. right. exact K.
Qed.

Lemma c_string_id (l : list ascii) : ~ In CFricas.NUL l -> CFricas.c_string l = l.
Proof.
  induction l as [|c l IH]; intros H; cbn [CFricas.c_string]; [reflexivity|].
  destruct (Ascii.eqb_spec c CFricas.NUL) as [-> | _].
  - exfalso. apply H. left. reflexivity.
  - rewrite IH; [reflexivity|]. intros K. apply H. right. exact K.
Qed.


(** X21. After a successful write, when the stream holds a closing
    parenthesis, two bytes and then a line [num] of at most 58 bytes
    before its newline, not starting with a minus sign and without
    NUL, [FricasFloatEval] converts with
    [strtod] exactly [num] and the newline, and leaves the stream at
    the start of the next line. *)
Theorem FricasFloatEval_line
    (strtod : list ascii -> mfloat_t * nat) (fprintf_n fflush_s : Z)
    (pre num rest : CFricas.stream) (c1 c2 : ascii) :
  0 < fprintf_n -> fflush_s = 0 ->
  ~ In ")"%char pre ->
  ~ In CFricas.newline num -> ~ In CFricas.NUL num -> (List.length num <= 58)%nat ->
  hd CFricas.NUL num <> "-"%char ->
  CFricas.FricasFloatEval strtod fprintf_n fflush_s
    (pre ++ ")"%char :: c1 :: c2 :: num ++ CFricas.newline :: rest)
  = Some (CFricas.convert strtod (num ++ [CFricas.newline]), rest).
Proof.
  intros Hp Hf Hpre Hnl Hnul Hlen Hm. unfold CFricas.FricasFloatEval.
  destruct (Z.leb_spec fprintf_n 0); [lia|]. rewrite Hf. cbn [Z.eqb negb].
  rewrite (skip_past_app _ _ _ Hpre), (fgets_line 59 num rest Hnl) by lia.
  destruct num as [|c num]; cbn [app].
  - cbn. reflexivity.
  - cbn [hd] in Hm. destruct (Ascii.eqb_spec c "-"%char) as [-> | _]; [contradiction|].
    change (c :: num ++ [CFricas.newline]) with ((c :: num) ++ [CFricas.newline]).
    rewrite c_string_id; [reflexivity|].
    intros K. apply in_app_or in K. destruct K as [K | [K | []]]; [apply Hnul, K | discriminate K].
Qed.

(** X22. After a successful write, when the line after the closing
    parenthesis and two bytes starts with a minus sign and has at most
    58 bytes before its newline, none of them NUL, [FricasFloatEval]
    drops the byte that follows the sign, whatever it is (a newline
    apart), and converts the sign followed by the rest of the line: a
    minus sign, a space and digits are read as the sign and the
    digits. *)
Theorem FricasFloatEval_minus_line
    (strtod : list ascii -> mfloat_t * nat) (fprintf_n fflush_s : Z)
    (pre digits rest : CFricas.stream) (c1 c2 c : ascii) :
  0 < fprintf_n -> fflush_s = 0 ->
  ~ In ")"%char pre ->
  c <> CFricas.newline ->
  ~ In CFricas.newline digits -> ~ In CFricas.NUL digits -> (List.length digits <= 56)%nat ->
  CFricas.FricasFloatEval strtod fprintf_n fflush_s
    (pre ++ ")"%char :: c1 :: c2 :: "-"%char :: c :: digits ++ CFricas.newline :: rest)
  = Some (CFricas.convert strtod ("-"%char :: digits ++ [CFricas.newline]), rest).
Proof.
  intros Hp Hf Hpre Hc Hnl Hnul Hlen. unfold CFricas.FricasFloatEval.
  destruct (Z.leb_spec fprintf_n 0); [lia|]. rewrite Hf. cbn [Z.eqb negb].
  rewrite (skip_past_app _ _ _ Hpre).
  change ("-"%char :: c :: digits ++ CFricas.newline :: rest)
    with (("-"%char :: c :: digits) ++ CFricas.newline :: rest).
  rewrite (fgets_line 59 ("-"%char :: c :: digits) rest).
  - cbn [app]. rewrite Ascii.eqb_refl.
    change ("-"%char :: digits ++ [CFricas.newline]) with (("-"%char :: digits) ++ [CFricas.newline]).
    rewrite c_string_id; [reflexivity|].
    intros K. apply in_app_or in K.
    destruct K as [[K | K] | [K | []]]; [discriminate K | apply Hnul, K | discriminate K].
  - intros [K | [K | K]]; [discriminate K | apply Hc, K | apply Hnl, K].
  - cbn [List.length]. lia.
Qed.

(** X23. After a successful write, when 59 bytes without a newline or
    NUL, the first of them not a minus sign, follow the two bytes
    after the closing parenthesis, [FricasFloatEval] converts these 59
    bytes and leaves the rest of the line in the stream, where the
    next call starts. *)
Theorem FricasFloatEval_long_line
    (strtod : list ascii -> mfloat_t * nat) (fprintf_n fflush_s : Z)
    (pre num rest : CFricas.stream) (c1 c2 : ascii) :
  0 < fprintf_n -> fflush_s = 0 ->
  ~ In ")"%char pre ->
  ~ In CFricas.newline num -> ~ In CFricas.NUL num -> List.length num = 59%nat ->
  hd CFricas.NUL num <> "-"%char ->
  CFricas.FricasFloatEval strtod fprintf_n fflush_s (pre ++ ")"%char :: c1 :: c2 :: num ++ rest)
  = Some (CFricas.convert strtod num, rest).
Proof.
  intros Hp Hf Hpre Hnl Hnul Hlen Hm. unfold CFricas.FricasFloatEval.
  destruct (Z.leb_spec fprintf_n 0); [lia|]. rewrite Hf. cbn [Z.eqb negb].
  rewrite (skip_past_app _ _ _ Hpre), (fgets_full 59 num rest Hnl Hlen).
  destruct num as [|c num]; [discriminate Hlen|].
  cbn [hd] in Hm. destruct (Ascii.eqb_spec c "-"%char) as [-> | _]; [contradiction|].
  rewrite c_string_id by exact Hnul. reflexivity.
Qed.

(** X24. After a successful write, if the stream ends without a
    closing parenthesis, or with at most two bytes after the first
    one, [FricasFloatEval] returns NaN and the stream is exhausted. *)
Theorem FricasFloatEval_eof
    (strtod : list ascii -> mfloat_t * nat) (fprintf_n fflush_s : Z) (out : CFricas.stream) :
  0 < fprintf_n -> fflush_s = 0 ->
  (~ In ")"%char out \/
   exists pre tail, out = pre ++ ")"%char :: tail /\ ~ In ")"%char pre /\
                    (List.length tail <= 2)%nat) ->
  CFricas.FricasFloatEval strtod fprintf_n fflush_s out = Some (CFricas.nan, []).
Proof.
  intros Hp Hf H. unfold CFricas.FricasFloatEval.
  destruct (Z.leb_spec fprintf_n 0); [lia|]. rewrite Hf. cbn [Z.eqb negb].
  destruct H as [H | (pre & tail & -> & Hpre & Hlen)].
  - rewrite (skip_past_none _ _ H). reflexivity.
  - rewrite (skip_past_app _ _ _ Hpre).
    destruct tail as [|a [|b [|c tail]]]; cbn [List.length] in Hlen; try lia; reflexivity.
Qed.

(** A failed write reads nothing. *)
Lemma FricasFloatEval_write_failure
    (strtod : list ascii -> mfloat_t * nat) (fprintf_n fflush_s : Z) (out : CFricas.stream) :
  fprintf_n <= 0 \/ fflush_s <> 0 ->
  CFricas.FricasFloatEval strtod fprintf_n fflush_s out = Some (CFricas.nan, out).
Proof.
  intros H. unfold CFricas.FricasFloatEval.
  destruct (Z.leb_spec fprintf_n 0); [reflexivity|].
  destruct (Z.eqb_spec fflush_s 0); [lia | reflexivity].
Qed.

(** With a lone minus sign at the end of the input, the terminating
    NUL is overwritten and [strtod] reads on. *)
Lemma FricasFloatEval_lone_minus
    (strtod : list ascii -> mfloat_t * nat) (fprintf_n fflush_s : Z)
    (pre : CFricas.stream) (c1 c2 : ascii) :
  0 < fprintf_n -> fflush_s = 0 -> ~ In ")"%char pre ->
  CFricas.FricasFloatEval strtod fprintf_n fflush_s (pre ++ [")"%char; c1; c2; "-"%char]) = None.
Proof.
  intros Hp Hf Hpre. unfold CFricas.FricasFloatEval.
  destruct (Z.leb_spec fprintf_n 0); [lia|]. rewrite Hf. cbn [Z.eqb negb].
  rewrite (skip_past_app _ _ _ Hpre). reflexivity.
Qed.

Lemma skip_past_none_inv (stop : ascii) (s : CFricas.stream) :
  CFricas.skip_past stop s = None -> ~ In stop s.
Proof.
  induction s as [|c s IH]; cbn [CFricas.skip_past]; [intros _ []|].
  destruct (Ascii.eqb_spec c stop) as [-> | N]; [discriminate|].
  intros H [K | K]; [apply N, K | apply (IH H), K].
Qed.

Lemma last_app_cons {A : Type} (l : list A) (x : A) (b : list A) (dflt : A) :
  last (l ++ x :: b) dflt = last (x :: b) dflt.
Proof.
  induction l as [|c l IH]; [reflexivity|].
  cbn [app]. rewrite <- IH. destruct (l ++ x :: b) eqn:E; [|reflexivity].
  destruct l; discriminate E.
Qed.

Lemma discard_lines_split (n : nat) (s rest : CFricas.stream) :
  CFricas.discard_lines n s = Some rest ->
  exists banner, s = banner ++ rest /\ count_occ ascii_dec banner CFricas.newline = n /\
                 (banner = [] \/ last banner CFricas.NUL = CFricas.newline).
Proof.
  revert s. induction n as [|n IH]; intros s; cbn [CFricas.discard_lines].
  - intros [= ->]. exists []. repeat split. left. reflexivity.
  - destruct (CFricas.skip_past CFricas.newline s) as [r|] eqn:E; [|discriminate].
    intros H. destruct (skip_past_split _ _ _ E) as (pre & -> & NI).
    destruct (IH _ H) as (b & -> & C & La).
    exists ((pre ++ [CFricas.newline]) ++ b). rewrite <- !app_assoc. cbn [app].
    split; [reflexivity|]. split.
    + rewrite !count_occ_app, (proj1 (count_occ_not_In ascii_dec pre CFricas.newline) NI).
      cbn [count_occ]. destruct (ascii_dec CFricas.newline CFricas.newline); [|contradiction]. lia.
    + right. destruct La as [-> | La].
      * apply last_last.
      * destruct b as [|x b]; [discriminate La|].
        change (pre ++ CFricas.newline :: x :: b) with (pre ++ [CFricas.newline] ++ x :: b).
        rewrite app_assoc, last_app_cons. exact La.
Qed.

Lemma discard_lines_short (n : nat) (s : CFricas.stream) :
  CFricas.discard_lines n s = None -> (count_occ ascii_dec s CFricas.newline < n)%nat.
Proof.
  revert s. induction n as [|n IH]; intros s; cbn [CFricas.discard_lines]; [discriminate|].
  destruct (CFricas.skip_past CFricas.newline s) as [r|] eqn:E.
  - intros H. destruct (skip_past_split _ _ _ E) as (pre & -> & NI).
    rewrite count_occ_app, (proj1 (count_occ_not_In ascii_dec pre CFricas.newline) NI).
    cbn [count_occ]. destruct (ascii_dec CFricas.newline CFricas.newline); [|contradiction].
    specialize (IH _ H). lia.
  - intros _. apply skip_past_none_inv in E.
    rewrite (proj1 (count_occ_not_In ascii_dec s CFricas.newline) E). lia.
Qed.

(** X25. [FricasFloatNew] returns a working interface exactly when the
    process could be started and FriCAS prints at least
    [FloatFricasLinesToSkipAtStartup] newlines; the stream then starts
    right after the 17th of them. Otherwise it returns the null pair. *)
Theorem FricasFloatNew_banner (started : bool) (out : CFricas.stream) :
  match CFricas.FricasFloatNew started out with
  | Some rest =>
      started = true /\
      exists banner, out = banner ++ rest /\
        count_occ ascii_dec banner CFricas.newline = CFricas.FloatFricasLinesToSkipAtStartup /\
        last banner CFricas.NUL = CFricas.newline
  | None =>
      started = false \/
      (count_occ ascii_dec out CFricas.newline < CFricas.FloatFricasLinesToSkipAtStartup)%nat
  end.
Proof.
  unfold CFricas.FricasFloatNew. destruct started.
  - destruct (CFricas.discard_lines _ out) as [rest|] eqn:E.
    + split; [reflexivity|].
      destruct (discard_lines_split _ _ _ E) as (b & -> & C & La).
      exists b. split; [reflexivity|]. split; [exact C|].
      destruct La as [-> | La]; [discriminate C | exact La].
    + right. apply discard_lines_short, E.
  - left. reflexivity.
Qed.

(** ** The lexer of the Go interface *)

Lemma find_last (delim : ascii) (k : nat) (s rest : CFricas.stream) (l : list ascii) :
  GoFricas.find delim k s = Some (l, rest) ->
  exists pre, l = pre ++ [delim] /\ s = pre ++ delim :: rest /\ ~ In delim pre /\
              (List.length pre < k)%nat.
Proof.
  revert s l. induction k as [|k IH]; intros s l; [destruct s; discriminate|].
  destruct s as [|c s]; cbn [GoFricas.find]; [discriminate|].
  destruct (Ascii.eqb_spec c delim) as [-> | N].
  - intros [= <- <-]. exists []. repeat split; [intros [] | cbn; lia].
  - destruct (GoFricas.find delim k s) as [[l' rest']|] eqn:E; [|discriminate].
    intros [= <- <-]. destruct (IH _ _ E) as (pre & -> & -> & NI & Ln).
    exists (c :: pre). repeat split.
    + intros [K | K]; [apply N, K | apply NI, K].
    + cbn [List.length]. lia.
Qed.

Lemma find_app (delim : ascii) (k : nat) (pre rest : CFricas.stream) :
  ~ In delim pre -> (List.length pre < k)%nat ->
  GoFricas.find delim k (pre ++ delim :: rest) = Some (pre ++ [delim], rest).
Proof.
  revert k. induction pre as [|c pre IH]; intros k H L; cbn [List.length] in L;
    (destruct k; [lia|]); cbn [app GoFricas.find].
  - rewrite Ascii.eqb_refl. reflexivity.
  - destruct (Ascii.eqb_spec c delim) as [-> | _].
    + exfalso. apply H. left. reflexivity.
    + rewrite IH; [reflexivity | | lia]. intros K. apply H. right. exact K.
Qed.

Lemma ReadSlice_app (delim : ascii) (pre rest : CFricas.stream) :
  ~ In delim pre -> (List.length pre < GoFricas.buffer_size)%nat ->
  GoFricas.ReadSlice delim (pre ++ delim :: rest) = (Some (pre ++ [delim]), rest).
Proof.
  intros H L. unfold GoFricas.ReadSlice. rewrite (find_app _ _ _ _ H L). reflexivity.
Qed.

(** X26. Whatever FriCAS prints, [FloatEval] of the Go package returns
    a value: the index expressions [num[0]], [num[1:]] and
    [num[:len(num)-1]] are never out of range. *)
Theorem FloatEval_no_panic
    (ParseFloat : list ascii -> mfloat_t * GoFricas.parse_error)
    (out : CFricas.stream) :
  exists r, GoFricas.FloatEval ParseFloat out = Some r.
Proof.
  unfold GoFricas.FloatEval.
  destruct (GoFricas.ReadSlice ")" out) as [[l|] r]; [|eexists; reflexivity].
  destruct r as [|c1 [|c2 r]]; try (eexists; reflexivity).
  unfold GoFricas.ReadSlice.
  destruct (GoFricas.find CFricas.newline GoFricas.buffer_size r) as [[num rest]|] eqn:E;
    [|eexists; reflexivity].
  destruct (find_last _ _ _ _ _ E) as (pre & -> & _ & _ & _).
  destruct pre as [|c pre]; cbn [app]; [eexists; reflexivity|].
  destruct (Ascii.eqb c "-"); [|eexists; reflexivity].
  destruct pre; eexists; reflexivity.
Qed.

Lemma removelast_snoc {A : Type} (l : list A) (x : A) : removelast (l ++ [x]) = l.
Proof. apply removelast_last. Qed.

(** X27. After a successful write of the C lexer, on a line of at most
    58 bytes before its newline, without NUL and not a lone minus
    sign, that follows a closing parenthesis and two bytes, with fewer
    than 4096 bytes before that parenthesis, the C and the Go lexer
    leave the same stream and convert the same text, the line without
    the byte after a leading minus sign: [strtod] is given it with the
    newline, [strconv.ParseFloat] without. *)
Theorem lexers_agree
    (strtod : list ascii -> mfloat_t * nat) (fprintf_n fflush_s : Z)
    (ParseFloat : list ascii -> mfloat_t * GoFricas.parse_error)
    (pre line rest : CFricas.stream) (c1 c2 : ascii) :
  0 < fprintf_n -> fflush_s = 0 ->
  ~ In ")"%char pre -> (List.length pre < GoFricas.buffer_size)%nat ->
  ~ In CFricas.newline line -> ~ In CFricas.NUL line ->
  (List.length line <= 58)%nat -> line <> ["-"%char] ->
  let out := pre ++ ")"%char :: c1 :: c2 :: line ++ CFricas.newline :: rest in
  let text := match line with
              | c :: _ :: tl => if Ascii.eqb c "-" then c :: tl else line
              | _ => line
              end in
  CFricas.FricasFloatEval strtod fprintf_n fflush_s out
    = Some (CFricas.convert strtod (text ++ [CFricas.newline]), rest) /\
  GoFricas.FloatEval ParseFloat out
    = Some (GoFricas.parse ParseFloat text, rest).
Proof.
  intros Hp Hf Hpre Lpre Hnl Hnul Hlen Hm out text. subst out. split.
  - unfold CFricas.FricasFloatEval.
    destruct (Z.leb_spec fprintf_n 0); [lia|]. rewrite Hf. cbn [Z.eqb negb].
    rewrite (skip_past_app _ _ _ Hpre), (fgets_line 59 line rest Hnl) by lia.
    assert (N : CFricas.NUL <> CFricas.newline) by discriminate.
    subst text. destruct line as [|c [|c' tl]]; cbn [app].
    + cbn. reflexivity.
    + destruct (Ascii.eqb_spec c "-"%char) as [-> | _]; [contradiction|].
      rewrite c_string_id; [reflexivity|].
      cbn [In] in *. intuition congruence.
    + destruct (Ascii.eqb_spec c "-"%char) as [-> | _]; cbn [app];
        (rewrite c_string_id; [reflexivity|]);
        cbn [In] in *; rewrite in_app_iff in *; cbn [In] in *; intuition congruence.
  - unfold GoFricas.FloatEval.
    rewrite (ReadSlice_app _ _ _ Hpre Lpre).
    rewrite (ReadSlice_app _ line rest Hnl) by (unfold GoFricas.buffer_size; lia).
    subst text. destruct line as [|c [|c' tl]]; cbn [app].
    + cbn. reflexivity.
    + destruct (Ascii.eqb_spec c "-"%char) as [-> | _]; [contradiction|].
      reflexivity.
    + destruct (Ascii.eqb_spec c "-"%char) as [-> | _].
      * change ("-"%char :: tl ++ [CFricas.newline])
          with (("-"%char :: tl) ++ [CFricas.newline]).
        rewrite removelast_snoc. reflexivity.
      * change (c :: c' :: tl ++ [CFricas.newline])
          with ((c :: c' :: tl) ++ [CFricas.newline]).
        rewrite removelast_snoc. reflexivity.
Qed.

Lemma find_none (delim : ascii) (k : nat) (s : CFricas.stream) :
  ~ In delim s -> GoFricas.find delim k s = None.
Proof.
  revert s. induction k as [|k IH]; intros s H; [destruct s; reflexivity|].
  destruct s as [|c s]; [reflexivity|]. cbn [GoFricas.find].
  destruct (Ascii.eqb_spec c delim) as [-> | _].
  - exfalso. apply H. left. reflexivity.
  - rewrite IH; [reflexivity|]. intros K. apply H. right. exact K.
Qed.

Lemma skip_lines_nil (n : nat) : GoFricas.skip_lines n [] = [].
Proof. induction n as [|n IH]; [reflexivity | exact IH]. Qed.

Lemma discard_lines_length (n : nat) (s rest : CFricas.stream) :
  CFricas.discard_lines n s = Some rest -> (List.length rest <= List.length s)%nat.
Proof.
  intros H. destruct (discard_lines_split _ _ _ H) as (b & -> & _).
  rewrite length_app. lia.
Qed.

Lemma discard_lines_agree (n : nat) (s rest : CFricas.stream) :
  CFricas.discard_lines n s = Some rest ->
  (List.length s - List.length rest <= GoFricas.buffer_size)%nat ->
  GoFricas.skip_lines n s = rest.
Proof.
  revert s. induction n as [|n IH]; intros s; cbn [GoFricas.skip_lines CFricas.discard_lines].
  - intros [= ->] _. reflexivity.
  - destruct (CFricas.skip_past CFricas.newline s) as [r|] eqn:E; [|discriminate].
    intros H L. destruct (skip_past_split _ _ _ E) as (pre & -> & NI).
    pose proof (discard_lines_length _ _ _ H) as Lr.
    rewrite length_app in L. cbn [List.length] in L.
    rewrite ReadSlice_app by (exact NI || lia). cbn [snd]. apply IH; [exact H | lia].
Qed.

Lemma discard_lines_short_input (n : nat) (s : CFricas.stream) :
  CFricas.discard_lines n s = None ->
  (List.length s <= GoFricas.buffer_size)%nat ->
  GoFricas.skip_lines n s = [].
Proof.
  revert s. induction n as [|n IH]; intros s; cbn [GoFricas.skip_lines CFricas.discard_lines];
    [discriminate|].
  destruct (CFricas.skip_past CFricas.newline s) as [r|] eqn:E.
  - intros H L. destruct (skip_past_split _ _ _ E) as (pre & -> & NI).
    rewrite length_app in L. cbn [List.length] in L.
    rewrite ReadSlice_app by (exact NI || lia). cbn [snd]. apply IH; [exact H | lia].
  - intros _ L. apply skip_past_none_inv in E. unfold GoFricas.ReadSlice.
    rewrite (find_none _ _ _ E). cbn [snd].
    rewrite skipn_all2 by exact L. apply skip_lines_nil.
Qed.

(** X28. Where [FricasFloatNew] of the C package succeeds and the
    lines it discards fit the buffer of the Go reader,
    [NewFloatFricas] of the Go package leaves the same stream; where
    the C package returns the null pair for want of 17 lines, the
    output fitting the buffer, the Go package goes on with an
    exhausted stream, on which [FloatEval] returns NaN. *)
Theorem startups_agree_on_a_full_banner
    (ParseFloat : list ascii -> mfloat_t * GoFricas.parse_error)
    (out : CFricas.stream) :
  (forall rest,
     CFricas.FricasFloatNew true out = Some rest ->
     (List.length out - List.length rest <= GoFricas.buffer_size)%nat ->
     GoFricas.NewFloatFricas out = rest) /\
  (CFricas.FricasFloatNew true out = None ->
   (List.length out <= GoFricas.buffer_size)%nat ->
   GoFricas.NewFloatFricas out = [] /\
   GoFricas.FloatEval ParseFloat (GoFricas.NewFloatFricas out) = Some (S754_nan, [])).
Proof.
  unfold GoFricas.NewFloatFricas, CFricas.FricasFloatNew.
  change GoFricas.FloatFricasLinesToSkipAtStartup
    with CFricas.FloatFricasLinesToSkipAtStartup.
  split.
  - intros rest H L. apply (discard_lines_agree _ _ _ H L).
  - intros H L. rewrite (discard_lines_short_input _ _ H L). split; reflexivity.
Qed.

(** ** Examples of the further properties *)

Lemma interesting_iff_not_equal_witness :
  is_double (of_Z 1) = true /\ is_double (of_Z 2) = true /\
  interesting (ud (of_Z 1) (of_Z 2)) = negb (eqb (of_Z 1) (of_Z 2)).
Proof.
  split; [reflexivity|]. split; [reflexivity|].
  apply (interesting_iff_not_equal (of_Z 1) (of_Z 2)); reflexivity.
Defined.

Lemma ud_triangle_witness :
  0 <= ud (of_Z 1) (of_Z 3) <= ud (of_Z 1) (of_Z 2) + ud (of_Z 2) (of_Z 3).
Proof. apply (ud_triangle (of_Z 1) (of_Z 2) (of_Z 3)); reflexivity. Defined.

Lemma ud_additive_witness :
  ltb (of_Z 1) (of_Z 2) = true /\ ltb (of_Z 2) (of_Z 3) = true /\
  0 < ud (of_Z 1) (of_Z 2) /\ 0 < ud (of_Z 2) (of_Z 3) /\
  ud (of_Z 1) (of_Z 3) = ud (of_Z 1) (of_Z 2) + ud (of_Z 2) (of_Z 3).
Proof.
  split; [reflexivity|]. split; [reflexivity|].
  apply (ud_additive (of_Z 1) (of_Z 2) (of_Z 3)); reflexivity.
Defined.

Lemma ud_negative_iff_witness :
  sign_of (of_Z (-2)) <> sign_of (of_Z 2) /\
  2 ^ 64 <= bits (of_Z (-2)) + bits (of_Z 2) /\
  ud (of_Z (-2)) (of_Z 2) < 0.
Proof.
  assert (H : sign_of (of_Z (-2)) <> sign_of (of_Z 2) /\
              2 ^ 64 <= bits (of_Z (-2)) + bits (of_Z 2)).
  { split; [discriminate | apply Z.leb_le; reflexivity]. }
  split; [apply H|]. split; [apply H|].
  apply (ud_negative_iff (of_Z (-2)) (of_Z 2)); try reflexivity. exact H.
Defined.

Lemma about_count_witness :
  about (ulps_above_one 6) (ulps_above_one 1) = MantissasDifferIn 3 /\
  ud (ulps_above_one 6) (ulps_above_one 1) = 5 /\
  (about (ulps_above_one 6) (ulps_above_one 1) = ExponentsOrSignsDiffer \/
   exists k, about (ulps_above_one 6) (ulps_above_one 1) = MantissasDifferIn k /\
             1 <= k <= 52 /\
             0 <= ud (ulps_above_one 6) (ulps_above_one 1) < 2 ^ 52 /\
             k = Z.log2 (ud (ulps_above_one 6) (ulps_above_one 1)) + 1).
Proof.
  split; [reflexivity|]. split; [reflexivity|].
  apply (about_count (ulps_above_one 6) (ulps_above_one 1)); reflexivity.
Defined.

Lemma about_fits_buffer_witness :
  about_string (about (ulps_above_one 6) (ulps_above_one 1))
    = "Mantissas differ in  3 bits"%string /\
  String.length (about_string (about (ulps_above_one 6) (ulps_above_one 1))) = 27%nat.
Proof.
  split; [reflexivity|].
  apply (about_fits_buffer (ulps_above_one 6) (ulps_above_one 1)); reflexivity.
Defined.

Lemma verdict_agrees_with_score_witness :
  quiteInteresting example_worse = Some "worse "%string /\
  (("worse "%string = "better"%string /\ 0 < iscor (scoresOf example_worse)) \/
   ("worse "%string = "worse "%string /\ iscor (scoresOf example_worse) < 0)).
Proof.
  split; [reflexivity|].
  apply (verdict_agrees_with_score example_worse "worse ");
    [apply Z.leb_le; reflexivity | apply Z.leb_le; reflexivity | reflexivity].
Defined.

Lemma counted_example : counted sinIndex example_Range = [example_better; example_worse].
Proof. reflexivity. Qed.

Lemma report_counts_and_extremes_witness :
  counted sinIndex example_Range = [example_better; example_worse] /\
  exists r,
    scan_range sinIndex [] example_Range = [] ++ [r] /\
    count (improvements r) = Z.of_nat (List.length (gains (counted sinIndex example_Range))) /\
    count (worsenings r) = Z.of_nat (List.length (losses (counted sinIndex example_Range))) /\
    count (improvements r) + count (worsenings r)
      = Z.of_nat (List.length (counted sinIndex example_Range)) /\
    max (improvements r) = fold_right Z.max 0 (gains (counted sinIndex example_Range)) /\
    max (worsenings r) = fold_right Z.min 0 (losses (counted sinIndex example_Range)).
Proof.
  split; [reflexivity|].
  apply (report_counts_and_extremes sinIndex [] example_Range).
  rewrite counted_example. discriminate.
Defined.

Lemma empty_side_mean_is_nan_witness :
  counted sinIndex example_gain_Range = [example_better] /\
  exists r,
    scan_range sinIndex [] example_gain_Range = [] ++ [r] /\
    mean2 (worsenings r) = S754_nan.
Proof.
  split; [reflexivity|].
  destruct (empty_side_mean_is_nan sinIndex [] example_gain_Range) as (r & E & W & _).
  - discriminate.
  - exists r. split; [exact E|]. apply W. reflexivity.
Defined.

Lemma aggregate_shape_witness :
  (sinIndex < FuncLimit)%nat /\
  List.length (aggregate example_store) = FuncLimit /\
  map report_limits (nth sinIndex (aggregate example_store) []) =
  map limits (filter (fun R => existsb scored (column sinIndex R))
                     (ranges_of example_store)).
Proof.
  assert (H : (sinIndex < FuncLimit)%nat) by (unfold sinIndex, FuncLimit; lia).
  split; [exact H|]. apply (aggregate_shape example_store sinIndex H).
Defined.

Lemma checkSinCosOmcInPoint_frame_witness :
  exists d',
    checkSinCosOmcInPoint example_libm_sin example_libm_cos example_oracle
      example_dat 0 (range_start 0) = Some d' /\
    data_i d' = data_i example_dat /\
    shaped d' = shaped example_dat /\
    List.length (funcData d') = List.length (funcData example_dat) /\
    (forall ran, limits (nth ran (funcData d') Range_zero)
                 = limits (nth ran (funcData example_dat) Range_zero)) /\
    (forall ran point fn, ran <> data_i example_dat \/ point <> 0%nat ->
       cell d' ran point fn = cell example_dat ran point fn).
Proof.
  eexists. split; [vm_compute; reflexivity|].
  apply (checkSinCosOmcInPoint_frame example_libm_sin example_libm_cos example_oracle
           example_dat _ 0%nat (range_start 0)).
  vm_compute. reflexivity.
Defined.

Lemma differing_values_are_stored_witness :
  exists d' sc1c,
    checkSinCosOmcInPoint example_libm_sin example_libm_cos example_oracle
      example_dat 0 (range_start 0) = Some d' /\
    sncs1cs (range_start 0) = Some sc1c /\
    interesting (ud (example_libm_sin (range_start 0)) (sin sc1c)) = true /\
    exists before after,
      fr d' = fr example_dat ++ [Call_sin (range_start 0); Call_cos (range_start 0)]
                ++ before ++ Call_FricasFloatEval sinIndex (range_start 0) :: after /\
      (forall y, ~ In (Call_FricasFloatEval sinIndex y) (before ++ after)) /\
      cell d' (data_i example_dat) 0 sinIndex =
        mk_funcVal (example_libm_sin (range_start 0)) (sin sc1c)
          (example_oracle
             (fr example_dat ++ [Call_sin (range_start 0); Call_cos (range_start 0)]
                ++ before) sinIndex (range_start 0)).
Proof.
  destruct (checkSinCosOmcInPoint example_libm_sin example_libm_cos example_oracle
              example_dat 0 (range_start 0)) as [d'|] eqn:E;
    [|vm_compute in E; discriminate E].
  exists d'.
  destruct (differing_values_are_stored example_libm_sin example_libm_cos example_oracle
              example_dat d' 0 sinIndex (range_start 0)) as (sc & Hs & H).
  - reflexivity.
  - cbn. lia.
  - unfold PointsInOneRange. lia.
  - unfold sinIndex, FuncLimit. lia.
  - exact E.
  - exists sc. split; [reflexivity|]. split; [exact Hs|].
    cbv zeta in H. cbn [sinIndex nth values_at old new] in H.
    assert (I : option_map (fun r => interesting (ud (example_libm_sin (range_start 0)) (sin r)))
                  (sncs1cs (range_start 0)) = Some true) by (vm_compute; reflexivity).
    rewrite Hs in I. cbn [option_map] in I. injection I as I.
    rewrite I in H. split; [exact I | exact H].
Defined.

Lemma printed_points_are_counted_witness :
  exists d' evs,
    checkSinCosOmcInPoint example_libm_sin example_libm_cos example_oracle
      example_dat 0 (range_start 0) = Some d' /\
    fr d' = fr example_dat ++ evs /\
    forall s x' fn buf diff v, In (Printf_point s x' fn buf diff v) evs ->
      x' = range_start 0 /\ (fn < FuncLimit)%nat /\
      cell d' (data_i example_dat) 0 fn = v /\ scored v = true /\
      quiteInteresting v = Some s /\
      buf = about (old v) (new v) /\ diff = ud (old v) (new v).
Proof.
  destruct (checkSinCosOmcInPoint example_libm_sin example_libm_cos example_oracle
              example_dat 0 (range_start 0)) as [d'|] eqn:E;
    [|vm_compute in E; discriminate E].
  exists d'.
  destruct (printed_points_are_counted example_libm_sin example_libm_cos example_oracle
              example_dat d' 0 (range_start 0)) as (evs & F & P).
  - reflexivity.
  - cbn. lia.
  - unfold PointsInOneRange. lia.
  - exact E.
  - exists evs. split; [reflexivity|]. split; [exact F | exact P].
Defined.

Lemma testRange_limits_witness :
  exists d',
    testRange example_libm_sin example_libm_cos example_oracle
      example_dat (range_start 0) = Some d' /\
    limits (nth (data_i example_dat) (funcData d') Range_zero)
      = (range_start 0, Nat.iter PointsInOneRange nextafter_posInf (range_start 0)) /\
    data_i d' = data_i example_dat /\
    forall ran, ran <> data_i example_dat ->
      nth ran (funcData d') Range_zero = nth ran (funcData example_dat) Range_zero.
Proof.
  destruct (testRange example_libm_sin example_libm_cos example_oracle
              example_dat (range_start 0)) as [d'|] eqn:E;
    [|vm_compute in E; discriminate E].
  exists d'. split; [reflexivity|].
  apply (testRange_limits example_libm_sin example_libm_cos example_oracle
           example_dat d' (range_start 0)); [cbn; lia | exact E].
Defined.

Lemma sample_loop_store_witness :
  exists d',
    sample_loop example_libm_sin example_libm_cos example_oracle 1 example_dat = Some d' /\
    data_i d' = 1%nat /\
    shaped d' = shaped example_dat /\
    List.length (funcData d') = List.length (funcData example_dat) /\
    (forall i, (data_i example_dat <= i < 1)%nat ->
       limits (nth i (funcData d') Range_zero)
       = (range_start i, Nat.iter PointsInOneRange nextafter_posInf (range_start i))) /\
    (forall i, (i < data_i example_dat)%nat \/ (1 <= i)%nat ->
       nth i (funcData d') Range_zero = nth i (funcData example_dat) Range_zero).
Proof.
  destruct (sample_loop example_libm_sin example_libm_cos example_oracle 1 example_dat)
    as [d'|] eqn:E; [|vm_compute in E; discriminate E].
  exists d'. split; [reflexivity|].
  apply (sample_loop_store example_libm_sin example_libm_cos example_oracle
           1 example_dat d'); [cbn; lia | exact E].
Defined.

Ltac not_among :=
  let K := fresh "K" in
  intros K; vm_compute in K;
  repeat (destruct K as [K | K]; [discriminate K|]); exact K.

Lemma FricasFloatEval_line_witness :
  CFricas.FricasFloatEval example_strtod 38 0
    (example_prompt ++ ")"%char :: " "%char :: " "%char ::
     example_number ++ CFricas.newline :: [])
  = Some (CFricas.convert example_strtod (example_number ++ [CFricas.newline]), []).
Proof.
  apply (FricasFloatEval_line example_strtod 38 0 example_prompt example_number []
           " "%char " "%char);
    [lia | reflexivity | not_among | not_among | not_among
    | unfold example_number; cbn; lia | discriminate].
Defined.

Lemma FricasFloatEval_minus_line_witness :
  CFricas.FricasFloatEval example_strtod 38 0
    (example_prompt ++ ")"%char :: " "%char :: " "%char :: "-"%char :: " "%char ::
     example_number ++ CFricas.newline :: [])
  = Some (CFricas.convert example_strtod
            ("-"%char :: example_number ++ [CFricas.newline]), []).
Proof.
  apply (FricasFloatEval_minus_line example_strtod 38 0 example_prompt example_number []
           " "%char " "%char " "%char);
    [lia | reflexivity | not_among | discriminate | not_among | not_among
    | unfold example_number; cbn; lia].
Defined.

Lemma FricasFloatEval_long_line_witness :
  CFricas.FricasFloatEval example_strtod 38 0
    (example_prompt ++ ")"%char :: " "%char :: " "%char ::
     repeat "1"%char 59 ++ [CFricas.newline])
  = Some (CFricas.convert example_strtod (repeat "1"%char 59), [CFricas.newline]).
Proof.
  apply (FricasFloatEval_long_line example_strtod 38 0 example_prompt
           (repeat "1"%char 59) [CFricas.newline] " "%char " "%char);
    [lia | reflexivity | not_among | not_among | not_among | reflexivity | discriminate].
Defined.

Lemma FricasFloatEval_eof_witness :
  CFricas.FricasFloatEval example_strtod 38 0 example_prompt = Some (CFricas.nan, []).
Proof.
  apply (FricasFloatEval_eof example_strtod 38 0 example_prompt);
    [lia | reflexivity | left; not_among].
Defined.

Lemma lexers_agree_witness :
  CFricas.FricasFloatEval example_strtod 38 0
    (example_prompt ++ ")"%char :: " "%char :: " "%char :: "-"%char :: " "%char ::
     example_number ++ CFricas.newline :: [])
  = Some (CFricas.convert example_strtod
            (("-"%char :: example_number) ++ [CFricas.newline]), []) /\
  GoFricas.FloatEval example_ParseFloat
    (example_prompt ++ ")"%char :: " "%char :: " "%char :: "-"%char :: " "%char ::
     example_number ++ CFricas.newline :: [])
  = Some (GoFricas.parse example_ParseFloat ("-"%char :: example_number), []).
Proof.
  apply (lexers_agree example_strtod 38 0 example_ParseFloat example_prompt
           ("-"%char :: " "%char :: example_number) [] " "%char " "%char);
    [lia | reflexivity | not_among | vm_compute; lia | not_among | not_among
    | unfold example_number; cbn; lia | discriminate].
Defined.

Lemma startups_agree_on_a_full_banner_witness :
  CFricas.FricasFloatNew true (example_banner ++ example_prompt) = Some example_prompt /\
  (List.length (example_banner ++ example_prompt) - List.length example_prompt
   <= GoFricas.buffer_size)%nat /\
  GoFricas.NewFloatFricas (example_banner ++ example_prompt) = example_prompt.
Proof.
  assert (H : CFricas.FricasFloatNew true (example_banner ++ example_prompt)
              = Some example_prompt) by reflexivity.
  assert (L : (List.length (example_banner ++ example_prompt)
               - List.length example_prompt <= GoFricas.buffer_size)%nat)
    by (vm_compute; lia).
  split; [exact H|]. split; [exact L|].
  exact (proj1 (startups_agree_on_a_full_banner example_ParseFloat
                  (example_banner ++ example_prompt)) example_prompt H L).
Defined.
